(** * build_coast: shallow embedding and verified properties

    build_coast reads shapes, cuts them into one-degree cells (pass 1, through
    per-cell staging files) and writes a bit-packed, cell-indexed coastline
    file (pass 2).  This development embeds both passes of [main] and the bit
    codec they rely on, and proves the properties of the format. *)

From Stdlib Require Import ZArith QArith Qround Qabs Qpower Lia List Bool.
From Stdlib Require Import Reals Lra.
From Stdlib Require Lqa Floats String Ascii DecimalString DecimalN.
From stdpp Require Import base option list gmap.

Local Open Scope Z_scope.

(** ** Machine integers

    [int32_t] values are integers of [Z]; the wrap-around of 32-bit two's
    complement arithmetic is written out by [wrap32]. *)

Definition wrap32 (z : Z) : Z := (z + 2 ^ 31) mod 2 ^ 32 - 2 ^ 31.

Definition sub32 (a b : Z) : Z := wrap32 (a - b).
Definition add32 (a b : Z) : Z := wrap32 (a + b).
Definition neg32 (a : Z) : Z := wrap32 (- a).

Definition int32 (z : Z) : Prop := - 2 ^ 31 <= z < 2 ^ 31.

(** ** Doubles

    A finite [double] is the rational number it stands for.  The sum, the
    difference and the product of two doubles are the exact ones rounded to
    the nearest double, the one with the even significand when two are
    equally near (binary64: significands of 53 bits, least exponent -1074).
    A result beyond the largest double, which is infinite in the source, is
    not told apart from the finite ones: all that [main] does with such a
    value is to compare it with 360.0 and to convert it to [int32_t], and
    both give the same for either. *)

Module Double.

(** [floor (log2 |q|)], for [q] other than 0. *)
Definition ilog2 (q : Q) : Z :=
  let n := Z.abs (Qnum q) in
  let d := Zpos (Qden q) in
  let e := Z.log2 n - Z.log2 d in
  if (if 0 <=? e then d * 2 ^ e <=? n else d <=? n * 2 ^ (- e))
  then e else e - 1.

(** The distance between the doubles next to [q]: [2 ^ (e - 52)] where
    [2 ^ e <= |q| < 2 ^ (e + 1)], and [2 ^ (-1074)] below [2 ^ (-1022)]. *)
Definition ulp (q : Q) : Q := (2 ^ (Z.max (ilog2 q) (-1022) - 52))%Q.

(** The integer nearest to [q], the even one of the two when [q] is
    half-way between them. *)
Definition rne (q : Q) : Z :=
  let k := Qfloor q in
  match (q - inject_Z k ?= 1 # 2)%Q with
  | Lt => k
  | Gt => k + 1
  | Eq => if Z.even k then k else k + 1
  end.

(** The double nearest to [q], in lowest terms. *)
Definition round (q : Q) : Q :=
  Qred (inject_Z (rne (q / ulp q)) * ulp q).

(** [a + b], [a - b] and [a * b] on doubles. *)
Definition add (a b : Q) : Q := round (a + b).
Definition sub (a b : Q) : Q := round (a - b).
Definition mul (a b : Q) : Q := round (a * b).

(** The integer part of [q]. *)
Definition truncate (q : Q) : Z :=
  if Qle_bool 0 q then Qfloor q else Qceiling q.

(** The doubles: an integer of at most 53 bits times a power of two which
    is at least the least one, [2 ^ (-1074)]. *)
Definition format (f : Q) : Prop :=
  exists m E : Z,
    (f == inject_Z m * 2 ^ E)%Q /\ Z.abs m <= 2 ^ 53 /\ -1074 <= E.

(** [(int32_t) q]: the integer part of [q] when it is an [int32_t]; when it
    is not, the conversion is undefined in C, and the value taken here is
    the one which the conversion instruction of x86-64 gives. *)
Definition to_int32 (q : Q) : Z :=
  let t := truncate q in
  if (- 2 ^ 31 <=? t) && (t <? 2 ^ 31) then t else - 2 ^ 31.

End Double.

(** ** The doubles of the kernel, to compare [Double] with *)

Module Binary64.

Import Floats.

(** The rational which a finite double of the kernel stands for. *)
Definition to_Q (f : float) : Q :=
  match Prim2SF f with
  | S754_finite s m e =>
      let v := (inject_Z (Zpos m) * 2 ^ e)%Q in
      if s then (- v)%Q else v
  | _ => 0%Q
  end.

(** The sums and the product of lines 244-245 and 408-409 and of [NINT] on
    a double of the kernel, against those of [Double] on its rational. *)
Definition agrees (x : float) : bool :=
  Qeq_bool (to_Q (x + 180)) (Double.add (to_Q x) 180)
  && Qeq_bool (to_Q (x + 90)) (Double.add (to_Q x) 90)
  && Qeq_bool (to_Q (x * 100000)) (Double.mul (to_Q x) 100000)
  && Qeq_bool (to_Q (x + 0.5)) (Double.add (to_Q x) (1 # 2))
  && Qeq_bool (to_Q (x - 0.5)) (Double.sub (to_Q x) (1 # 2)).

(** Doubles on which the two are compared: the ends of the input range and
    their neighbours, and coordinates with six and with more decimals. *)
Definition samples : list float :=
  [ 0x1.67fffffffffffp+6; 0x1.67fffffffffffp+7; -0x1.9376e19b90eaap+6;
     0x1.3fffffffffffdp+4; 0x1.6800000000001p+7; -0x1.6800000000000p+7;
     0x1.6800000000000p+7; 0x1.6800000000000p+6; -0x1.6800000000000p+6;
     0x0.0p+0; 0x1.0000000000000p-1; -0x1.5300000000000p+7;
     0x1.67ffff79c8430p+7; -0x1.999999999999ap-4; 0x1.56e1fc2f8f359p-997;
     0x0.0000000000001p-1022; -0x1.124b34e768598p+4; 0x1.5849f83be6602p+4;
     0x1.316e7ea5f84cbp+7; -0x1.8bb6113404ea5p+3; 0x1.69536933a0408p+1;
     0x1.f7562bf11f927p+4; -0x1.c616cf850df16p+6; 0x1.1260029f16b12p+2;
     0x1.760fee6fb4c3cp+5; 0x1.a5e2fe82517e7p+6; -0x1.243b2a27f1b69p+7;
     -0x1.1b1a2877ee4e2p+6; -0x1.26b79b56323bcp+7; 0x1.bde35c5b4aa97p+6;
     0x1.168d2999567dcp+6; -0x1.49d89dcf893fbp+7; 0x1.5b2de42da7868p+6;
     0x1.4ea0277ac5006p+6; 0x1.bb4c016a027ccp+4; 0x1.4cd21222068a4p+4;
     -0x1.ed356073d63dcp+5; -0x1.5d33106d25984p+6; 0x1.46f3c27af51e0p+2;
     -0x1.3d1f8a50ca8f6p+6]%float.

End Binary64.

(** ** BitCodec *)

Module BitCodec.

(** A buffer is an array of [uint8_t]; bit [i] of the buffer is bit
    [7 - i mod 8] of byte [i / 8] (most significant bit first). *)
Abbreviation bytes := (list Z).

Definition get_bit (buf : bytes) (i : Z) : bool :=
  match buf !! Z.to_nat (i / 8) with
  | Some byte => Z.testbit byte (7 - i mod 8)
  | None => false
  end.

Definition set_bit (buf : bytes) (i : Z) (b : bool) : bytes :=
  match buf !! Z.to_nat (i / 8) with
  | Some byte =>
      <[Z.to_nat (i / 8) :=
          if b then Z.setbit byte (7 - i mod 8)
          else Z.clearbit byte (7 - i mod 8)]> buf
  | None => buf
  end.

Fixpoint pack_bits (buf : bytes) (start : Z) (n : nat) (value : Z)
  : bytes :=
  match n with
  | O => buf
  | S m =>
      pack_bits (set_bit buf start (Z.testbit value (Z.of_nat m)))
                (start + 1) m value
  end.

Fixpoint unpack_bits (buf : bytes) (start : Z) (n : nat) : Z :=
  match n with
  | O => 0
  | S m =>
      Z.b2z (get_bit buf start) * 2 ^ Z.of_nat m
      + unpack_bits buf (start + 1) m
  end.

(** Modelled from the spec: [bit_pack] of the nvutility library, which is
    not part of the sources.  It stores the low [numbits] bits of [value]
    in the buffer at bit offset [start], most significant bit first, and
    leaves every other bit of the buffer as it was. *)
Definition bit_pack (buf : bytes) (start numbits value : Z) : bytes :=
  pack_bits buf start (Z.to_nat numbits) value.

(** Modelled from the spec: the inverse capability of the bit codec, which
    reads the unsigned [numbits]-bit field at bit offset [start]. *)
Definition bit_unpack (buf : bytes) (start numbits : Z) : Z :=
  unpack_bits buf start (Z.to_nat numbits).

(** [calloc (1, size)]: [size] bytes of zero, or the null pointer for a
    negative [size], which as a [size_t] is beyond what can be allocated. *)
Definition calloc (size : Z) : option bytes :=
  if size <? 0 then None else Some (replicate (Z.to_nat size) 0).

End BitCodec.

Import BitCodec.

(** ** Macros of nvutility.h used by [main] *)

(** Modelled from the spec: [NINT(a)], nearest-integer rounding of a
    [double], a macro of nvutility.h which is not part of the sources:
    [(a) < 0.0 ? (int32_t) ((a) - 0.5) : (int32_t) ((a) + 0.5)], where the
    sum and the difference are those of doubles. *)
Definition NINT (a : Q) : Z :=
  if Qle_bool 0 a then Double.to_int32 (Double.add a (1 # 2))
  else Double.to_int32 (Double.sub a (1 # 2)).

(** Modelled from the spec: [MIN] and [MAX] of nvutility.h. *)
Definition MIN (a b : Z) : Z := Z.min a b.
Definition MAX (a b : Z) : Z := Z.max a b.

(** ** SegmentEncoder (pass 2 of [main], one segment) *)

Module Encoder.

Definition vertex : Type := Z * Z.
Abbreviation segment := (list vertex).

(** [max_bias = (int32_t) (pow (2.0, 17.0) - 1.0)] *)
Definition max_bias : Z := 2 ^ 17 - 1.

(** [round_log2 n] is the integer nearest to [log2 n] for [1 <= n]: the
    [k] with [2 ^ (2 k) <= 2 n^2 < 2 ^ (2 k + 2)], that is with
    [k - 1/2 < log2 n < k + 1/2] ([log2 n] is never half-way between two
    integers, as [2 n^2] is no power of 4). *)
Definition round_log2 (n : Z) : Z := Z.log2 (2 * n * n) / 2.

(** [NINT (log10 ((double) n) / log10 (2.0) + 1.0)], computed on the
    integers: for [1 <= n] the argument of [NINT] is at least [1], where
    [NINT (a + 1)] is [floor (a + 1/2) + 1].  The logarithm in [double]
    is taken as the exact real logarithm; [field_bits_real] below proves
    that this is [RealModel.field_bits_R], the expression of the source on
    the real numbers.  For [n <= 0] the logarithm is no number, and its
    conversion to [int32_t] is [Double.to_int32] of a value out of range. *)
Definition field_bits (n : Z) : Z :=
  if n <=? 0 then - 2 ^ 31 else round_log2 n + 1.

(** The loop of lines 565-588 on one axis: smallest and largest
    difference between consecutive values, starting from the sentinels
    [diff[0] = 99999999] and [diff[1] = -99999999]. *)
Fixpoint diff_scan (prev : Z) (rest : list Z) (diff : Z * Z) : Z * Z :=
  match rest with
  | [] => diff
  | v :: rest' =>
      diff_scan v rest'
        (MIN (sub32 v prev) diff.1, MAX (sub32 v prev) diff.2)
  end.

Definition diff_range (vs : list Z) : Z * Z :=
  match vs with
  | [] => (99999999, -99999999)
  | v0 :: rest => diff_scan v0 rest (99999999, -99999999)
  end.

(** The loop of lines 647-654: the biased offsets of every vertex after
    the first, packed at [pos]. *)
Fixpoint pack_offsets (lon_offset_bits lat_offset_bits bias_x bias_y : Z)
    (prev : vertex) (rest : segment) (buffer : bytes) (pos : Z)
  : bytes * Z :=
  match rest with
  | [] => (buffer, pos)
  | v :: rest' =>
      let xoff := add32 (sub32 v.1 prev.1) bias_x in
      let yoff := add32 (sub32 v.2 prev.2) bias_y in
      let buffer := bit_pack buffer pos lon_offset_bits xoff in
      let pos := pos + lon_offset_bits in
      let buffer := bit_pack buffer pos lat_offset_bits yoff in
      let pos := pos + lat_offset_bits in
      pack_offsets lon_offset_bits lat_offset_bits bias_x bias_y
        v rest' buffer pos
  end.

(** What is printed before [exit (-1)] in pass 2: one of the two bias
    errors with the cell and the bias, or "Allocating buffer". *)
Inductive range_error : Type :=
| LonBiasOutOfRange (i j bias_x : Z)
| LatBiasOutOfRange (i j bias_y : Z)
| AllocatingBuffer.

(** The values computed for one segment before it is packed
    (lines 560-626). *)
Record fields : Type := Fields {
  f_count : Z;
  f_bias_x : Z;
  f_bias_y : Z;
  f_range_x : Z;
  f_range_y : Z;
  f_count_bits : Z;
  f_lon_offset_bits : Z;
  f_lat_offset_bits : Z;
  f_size : Z
}.

Definition total_bits (count_bits lon_offset_bits lat_offset_bits segCount : Z)
  : Z :=
  5 + 5 + 5 + count_bits + lon_offset_bits + lat_offset_bits
  + 18 + 18 + 26 + 25
  + (segCount - 1) * (lon_offset_bits + lat_offset_bits).

(** Lines 560-626 for a segment of [segCount = length seg] vertices read
    from cell [(i, j)]: either one of the two bias errors, or the fields
    of the block. *)
Definition segment_fields (i j : Z) (seg : segment)
  : range_error + fields :=
  let segCount := Z.of_nat (length seg) in
  let diff_x := diff_range seg.*1 in
  let diff_y := diff_range seg.*2 in
  let bias_x := neg32 diff_x.1 in
  let bias_y := neg32 diff_y.1 in
  if (bias_x >? max_bias) || (bias_x <? - max_bias)
  then inl (LonBiasOutOfRange i j bias_x)
  else if (bias_y >? max_bias) || (bias_y <? - max_bias)
  then inl (LatBiasOutOfRange i j bias_y)
  else
    let range_x := sub32 diff_x.2 diff_x.1 in
    let range_y := sub32 diff_y.2 diff_y.1 in
    let range_x := if range_x =? 0 then 1 else range_x in
    let range_y := if range_y =? 0 then 1 else range_y in
    let count_bits := field_bits segCount in
    let lon_offset_bits := field_bits range_x in
    let lat_offset_bits := field_bits range_y in
    let size :=
      wrap32 (total_bits count_bits lon_offset_bits lat_offset_bits
                segCount) in
    let size := Z.quot size 8 + 1 in
    inr (Fields segCount bias_x bias_y range_x range_y
           count_bits lon_offset_bits lat_offset_bits size).

(** Lines 636-654: the fields [f] and the vertices packed in [buffer].
    Where the buffer is shorter than the bits, as it is when the size has
    wrapped around to a value which is not negative, the source writes
    beyond it; here such bits are dropped, and the theorems on packed
    blocks are on segments whose buffer holds all the bits. *)
Definition pack_segment (f : fields) (seg : segment) (buffer : bytes)
  : bytes :=
  match seg with
  | [] => []
  | v0 :: rest =>
      let pos := 0 in
      let buffer := bit_pack buffer pos 5 (f_count_bits f) in
      let pos := pos + 5 in
      let buffer := bit_pack buffer pos 5 (f_lon_offset_bits f) in
      let pos := pos + 5 in
      let buffer := bit_pack buffer pos 5 (f_lat_offset_bits f) in
      let pos := pos + 5 in
      let buffer := bit_pack buffer pos (f_count_bits f) (f_count f) in
      let pos := pos + f_count_bits f in
      let buffer := bit_pack buffer pos 18 (f_bias_x f + max_bias) in
      let pos := pos + 18 in
      let buffer := bit_pack buffer pos 18 (f_bias_y f + max_bias) in
      let pos := pos + 18 in
      let buffer := bit_pack buffer pos 26 v0.1 in
      let pos := pos + 26 in
      let buffer := bit_pack buffer pos 25 v0.2 in
      let pos := pos + 25 in
      (pack_offsets (f_lon_offset_bits f) (f_lat_offset_bits f)
         (f_bias_x f) (f_bias_y f) v0 rest buffer pos).1
  end.

(** The body of [if (segCount)] (lines 540-661) for one segment: the bytes
    handed to [fwrite (buffer, size, 1, ofp)], or the error printed before
    [exit (-1)]. *)
Definition encode_segment (i j : Z) (seg : segment)
  : range_error + bytes :=
  match segment_fields i j seg with
  | inl e => inl e
  | inr f =>
      match calloc (f_size f) with
      | None => inl AllocatingBuffer
      | Some buffer => inr (pack_segment f seg buffer)
      end
  end.

End Encoder.

(** ** The widths on the real numbers *)

Module RealModel.

(** [log10] of math.h, on the real numbers. *)
Definition log10 (x : R) : R := (ln x / ln 10)%R.

(** Modelled from the spec: [NINT(a)] of nvutility.h on a real number: the
    conversion to [int32_t] of [a - 0.5] for [a < 0] and of [a + 0.5]
    otherwise, which truncates towards zero. *)
Definition NINT_R (a : R) : Z :=
  if Rlt_dec a 0 then - Int_part (- (a - / 2)) else Int_part (a + / 2).

(** [NINT (log10 ((double) n) / log10 (2.0) + 1.0)], as lines 618-620 have
    it, with real numbers for the doubles. *)
Definition field_bits_R (n : Z) : Z :=
  NINT_R (log10 (IZR n) / log10 2 + 1).

End RealModel.

(** ** Decoder of one block *)

Module Decoder.

Import Encoder.

(** Modelled from the spec: the decoder of a block, which the repository
    does not contain.  It inverts the packing of [pack_segment] field by
    field: each offset read has the bias taken off and is added to the
    vertex before it. *)
Fixpoint unpack_offsets (lon_offset_bits lat_offset_bits bias_x bias_y : Z)
    (prev : vertex) (n : nat) (buffer : bytes) (pos : Z) : segment :=
  match n with
  | O => []
  | S m =>
      let xoff := bit_unpack buffer pos lon_offset_bits in
      let pos := pos + lon_offset_bits in
      let yoff := bit_unpack buffer pos lat_offset_bits in
      let pos := pos + lat_offset_bits in
      let v := (prev.1 + (xoff - bias_x), prev.2 + (yoff - bias_y)) in
      v :: unpack_offsets lon_offset_bits lat_offset_bits bias_x bias_y
             v m buffer pos
  end.

(** Modelled from the spec: the whole block, read in the field order of
    section 4.3. *)
Definition decode_segment (buffer : bytes) : segment :=
  let pos := 0 in
  let count_bits := bit_unpack buffer pos 5 in
  let pos := pos + 5 in
  let lon_offset_bits := bit_unpack buffer pos 5 in
  let pos := pos + 5 in
  let lat_offset_bits := bit_unpack buffer pos 5 in
  let pos := pos + 5 in
  let count := bit_unpack buffer pos count_bits in
  let pos := pos + count_bits in
  let bias_x := bit_unpack buffer pos 18 - max_bias in
  let pos := pos + 18 in
  let bias_y := bit_unpack buffer pos 18 - max_bias in
  let pos := pos + 18 in
  let x0 := bit_unpack buffer pos 26 in
  let pos := pos + 26 in
  let y0 := bit_unpack buffer pos 25 in
  let pos := pos + 25 in
  (x0, y0)
    :: unpack_offsets lon_offset_bits lat_offset_bits bias_x bias_y
         (x0, y0) (Z.to_nat count - 1) buffer pos.

End Decoder.

(** ** GeometryIngester (pass 1 of [main]) *)

Module Ingester.

Import Encoder.

(** A shape as read by [SHPReadObject]: the part starts and the vertices
    [(padfX[j], padfY[j])], finite doubles given by the rationals they
    stand for ([Double.round] of a decimal is the double written so). *)
Record SHPObject : Type := SHP {
  panPartStart : list Z;
  padf : list (Q * Q)
}.

Definition nVertices (shape : SHPObject) : Z :=
  Z.of_nat (length (padf shape)).

Definition nParts (shape : SHPObject) : Z :=
  Z.of_nat (length (panPartStart shape)).

(** The name [cell_%03d_%03d] of a staging file is determined by, and
    determines, the two integers printed in it. *)
Definition cell : Type := Z * Z.

(** The variables of [main] which pass 1 reads and writes, and the staging
    files: [fp] is the cell whose file is open for appending, or [None] for
    the null pointer; a file is the list of the segments written to it, each
    one standing for its count followed by its vertices. *)
Record state : Type := State {
  total : Z;
  fp : option cell;
  files : gmap cell (list segment);
  segCount : Z;
  segxy : segment;
  londeg0 : Z;
  latdeg0 : Z;
  lon0 : Q;
  lat0 : Q
}.

Definition set_fp (h : option cell) (st : state) : state :=
  State (total st) h (files st) (segCount st) (segxy st)
    (londeg0 st) (latdeg0 st) (lon0 st) (lat0 st).

Definition set_files (m : gmap cell (list segment)) (st : state) : state :=
  State (total st) (fp st) m (segCount st) (segxy st)
    (londeg0 st) (latdeg0 st) (lon0 st) (lat0 st).

Definition set_segCount (n : Z) (st : state) : state :=
  State (total st) (fp st) (files st) n (segxy st)
    (londeg0 st) (latdeg0 st) (lon0 st) (lat0 st).

Definition set_segxy (vs : segment) (st : state) : state :=
  State (total st) (fp st) (files st) (segCount st) vs
    (londeg0 st) (latdeg0 st) (lon0 st) (lat0 st).

Definition set_total (n : Z) (st : state) : state :=
  State n (fp st) (files st) (segCount st) (segxy st)
    (londeg0 st) (latdeg0 st) (lon0 st) (lat0 st).

Definition set_previous (londeg latdeg : Z) (lon lat : Q) (st : state)
  : state :=
  State (total st) (fp st) (files st) (segCount st) (segxy st)
    londeg latdeg lon lat.

(** The state after "Initialize variables" and the removal of the old cell
    files. *)
Definition initial : state :=
  State 0 None ∅ 0 [] (-999) (-999) (-999) (-999).

(** A run of pass 1 either goes on, or passes the null pointer to [fwrite]
    or [fclose]. *)
Inductive outcome (A : Type) : Type :=
| Ok (a : A)
| NullStream.

Arguments Ok {A} a.
Arguments NullStream {A}.

Definition bind {A B : Type} (c : outcome A) (k : A -> outcome B)
  : outcome B :=
  match c with
  | Ok a => k a
  | NullStream => NullStream
  end.

Notation "'do' x <- c ; k" := (bind c (fun x => k))
  (at level 10, x name, c at level 100, k at level 200).

(** [fwrite (&count, ...)] followed by the [fwrite]s of the vertices. *)
Definition fwrite_segment (vs : segment) (st : state) : outcome state :=
  match fp st with
  | None => NullStream
  | Some c =>
      Ok (set_files (<[c := default [] (files st !! c) ++ [vs]]> (files st))
            st)
  end.

Definition fclose (st : state) : outcome state :=
  match fp st with
  | None => NullStream
  | Some _ => Ok st
  end.

(** [fp = fopen (fname, "ab")], which creates the file when it is new. *)
Definition fopen_ab (c : cell) (st : state) : state :=
  set_fp (Some c)
    (set_files (<[c := default [] (files st !! c)]> (files st)) st).

(** [NINT (q * 100000.0)] *)
Definition scaled (q : Q) : Z := NINT (Double.mul q 100000).

(** Lines 244-260: the bias by 180 and 90 and the boundary rule. *)
Definition normalize (xy : Q * Q) : Q * Q :=
  let lon := Double.add xy.1 180 in
  let lat := Double.add xy.2 90 in
  let lon := if Qeq_bool lon 360 then 180%Q else lon in
  (lon, lat).

(** Lines 263-264. *)
Definition cell_of (lonlat : Q * Q) : cell :=
  (Double.to_int32 lonlat.1, Double.to_int32 lonlat.2).

(** Lines 225-239: [start_segment] and the new [numParts]. *)
Definition start_of_segment (shape : SHPObject) (j numParts : Z)
  : bool * Z :=
  let start_segment := false in
  let start_segment :=
    if (j =? 0) && (0 <? nParts shape) then true else start_segment in
  if (numParts <? nParts shape)
     && (default 0 (panPartStart shape !! Z.to_nat numParts) =? j)
  then (true, numParts + 1)
  else (start_segment, numParts).

(** The arrays [segx], [segy] after [realloc] to [segCount + 1] entries and
    the assignment of entry [segCount], and [segCount++]. *)
Definition push (v : vertex) (st : state) : state :=
  set_segCount (segCount st + 1)
    (set_segxy (take (Z.to_nat (segCount st)) (segxy st) ++ [v]) st).

(** Lines 270-388: what is done before the vertex is added. *)
Definition split_step (start_segment : bool) (londeg1 latdeg1 : Z)
    (st : state) : outcome state :=
  if (latdeg0 st >? -999)
     && (negb (latdeg1 =? latdeg0 st) || negb (londeg1 =? londeg0 st))
  then
    if start_segment then
      do st <- fwrite_segment (take (Z.to_nat (segCount st)) (segxy st)) st ;
      do st <- fclose st ;
      let st := fopen_ab (londeg1, latdeg1) st in
      Ok (set_segCount 0 st)
    else
      let st := set_segCount (segCount st + 1) st in
      let lastx := scaled (lon0 st) in
      let lasty := scaled (lat0 st) in
      do st <- fwrite_segment
              (take (Z.to_nat (segCount st - 1)) (segxy st)
               ++ [(lastx, lasty)]) st ;
      do st <- fclose st ;
      let st := fopen_ab (londeg1, latdeg1) st in
      let st := set_segCount 0 st in
      Ok (push (scaled (lon0 st), scaled (lat0 st)) st)
  else
    if start_segment then
      if latdeg0 st =? -999 then
        Ok (fopen_ab (londeg1, latdeg1) st)
      else
        do st <- fwrite_segment (take (Z.to_nat (segCount st)) (segxy st)) st ;
        Ok (set_segCount 0 st)
    else Ok st.

(** Lines 225-417: the body of the loop over the vertices of a shape. *)
Definition vertex_step (shape : SHPObject) (j numParts : Z) (xy : Q * Q)
    (st : state) : outcome (state * Z) :=
  let '(start_segment, numParts) := start_of_segment shape j numParts in
  let lonlat := normalize xy in
  let '(londeg1, latdeg1) := cell_of lonlat in
  do st <- split_step start_segment londeg1 latdeg1 st ;
  let st := push (scaled lonlat.1, scaled lonlat.2) st in
  Ok (set_previous londeg1 latdeg1 lonlat.1 lonlat.2 st, numParts).

Fixpoint vertex_loop (shape : SHPObject) (j numParts : Z)
    (vs : list (Q * Q)) (st : state) : outcome state :=
  match vs with
  | [] => Ok st
  | xy :: vs' =>
      do r <- vertex_step shape j numParts xy st ;
      vertex_loop shape (j + 1) r.2 vs' r.1
  end.

(** Lines 214-431: one shape. *)
Definition shape_step (shape : SHPObject) (st : state) : outcome state :=
  let st := set_total (add32 (total st) (nVertices shape)) st in
  if 2 <=? nVertices shape
  then vertex_loop shape 0 1 (padf shape) st
  else Ok st.

Fixpoint shape_loop (shapes : list SHPObject) (st : state) : outcome state :=
  match shapes with
  | [] => Ok st
  | shape :: shapes' =>
      do st <- shape_step shape st ;
      shape_loop shapes' st
  end.

(** Lines 183-456: one input file, given by its shapes. *)
Definition source_step (shapes : list SHPObject) (st : state)
  : outcome state :=
  let st := set_segCount 0 st in
  do st <- shape_loop shapes st ;
  do st <- fwrite_segment (take (Z.to_nat (segCount st)) (segxy st)) st ;
  Ok (set_previous (londeg0 st) (-888) (lon0 st) (lat0 st) st).

Fixpoint source_loop (inputs : list (list SHPObject)) (st : state)
  : outcome state :=
  match inputs with
  | [] => Ok st
  | shapes :: inputs' =>
      do st <- source_step shapes st ;
      source_loop inputs' st
  end.

(** Lines 153-459: pass 1 on the input files, in the order of the command
    line. *)
Definition pass1 (inputs : list (list SHPObject)) : outcome state :=
  do st <- source_loop inputs initial ;
  fclose st.

End Ingester.

(** ** OutputAssembler and the loop over the cells (pass 2 of [main]) *)

Module Output.

Import Encoder.

(** The output file: its bytes and the position of the stream. *)
Record file : Type := File {
  data : bytes;
  cursor : Z
}.

(** [fopen (outname, "wb")] *)
Definition fopen_wb : file := File [] 0.

(** [fwrite (buf, size, 1, ofp)]: the bytes replace those at the position,
    or extend the file (after a gap of zeros when the position is beyond
    the end). *)
Definition fwrite (buf : bytes) (ofp : file) : file :=
  let c := Z.to_nat (cursor ofp) in
  File (take c (data ofp) ++ replicate (c - length (data ofp)) 0
        ++ buf ++ drop (c + length buf) (data ofp))
       (cursor ofp + Z.of_nat (length buf)).

Definition fseek_set (offset : Z) (ofp : file) : file :=
  File (data ofp) offset.

Definition fseek_end (ofp : file) : file :=
  File (data ofp) (Z.of_nat (length (data ofp))).

Definition ftell (ofp : file) : Z := cursor ofp.

(** [FILE_VERSION] of version.h, as character codes. *)
Definition FILE_VERSION : bytes :=
  [80; 70; 77; 32; 83; 111; 102; 116; 119; 97; 114; 101; 32; 45; 32; 67;
   111; 109; 112; 114; 101; 115; 115; 101; 100; 32; 67; 111; 97; 115; 116;
   108; 105; 110; 101; 32; 102; 105; 108; 101; 32; 86; 49; 46; 48; 32; 45;
   32; 48; 55; 47; 49; 48; 47; 48; 54].

(** [memset (version, 0, 128); sprintf (version, "%s\n", FILE_VERSION)] *)
Definition version : bytes :=
  take 128 (FILE_VERSION ++ [10] ++ replicate 128 0).

(** [offset = (i * 360 + j) * (3 * sizeof (int32_t)) + 128] *)
Definition header_offset (i j : Z) : Z := (i * 360 + j) * (3 * 4) + 128.

(** The three [bit_pack]s into [head_buf]; every bit of the twelve bytes is
    written, so what [head_buf] held before does not matter. *)
Definition pack_head (address num_segments num_vertices : Z) : bytes :=
  let head_buf := replicate 12 0 in
  let k := 8 * 4 in
  let pos := 0 in
  let head_buf := bit_pack head_buf pos k address in
  let pos := pos + k in
  let head_buf := bit_pack head_buf pos k num_segments in
  let pos := pos + k in
  bit_pack head_buf pos k num_vertices.

(** [fseek (ofp, offset, SEEK_SET)], the three [bit_pack]s and the [fwrite]
    of [head_buf]. *)
Definition write_head (i j address num_segments num_vertices : Z)
    (ofp : file) : file :=
  fwrite (pack_head address num_segments num_vertices)
    (fseek_set (header_offset i j) ofp).

(** The cells in the order of [for (i ...) for (j ...)] with [rows] values
    of [i] and [cols] values of [j]. *)
Definition cells_of (rows cols : Z) : list (Z * Z) :=
  i ← seqZ 0 rows; (fun j => (i, j)) <$> seqZ 0 cols.

Definition grid : list (Z * Z) := cells_of 180 360.

(** Lines 496-515: "Initialize the header area". *)
Definition init_header_on (cells : list (Z * Z)) (ofp : file) : file :=
  foldl (fun ofp ij => write_head ij.1 ij.2 0 0 0 ofp) ofp cells.

(** A run of pass 2 either goes on, or prints the error of a segment and
    calls [exit (-1)], leaving the output file as it is then. *)
Inductive result (A : Type) : Type :=
| Done (a : A)
| Exit (code : Z) (e : range_error) (ofp : file).

Arguments Done {A} a.
Arguments Exit {A} code e ofp.

(** Lines 535-662: the segments of one staging file, in the order they were
    written; [records] are the segments, each standing for its count and
    its vertices.  The records are whole, as pass 1 writes them, and the
    arrays [segx] and [segy] of a record are taken to be allocated: the
    exits of lines 547-557 and 567-577 are left out. *)
Fixpoint encode_records (i j : Z) (records : list segment) (ofp : file)
    (num_segments num_vertices : Z) : result (file * Z * Z) :=
  match records with
  | [] => Done (ofp, num_segments, num_vertices)
  | seg :: records' =>
      let segCount := Z.of_nat (length seg) in
      if segCount =? 0
      then encode_records i j records' ofp num_segments num_vertices
      else
        let num_vertices := num_vertices + segCount in
        let num_segments := num_segments + 1 in
        match encode_segment i j seg with
        | inl e => Exit (-1) e ofp
        | inr buffer =>
            encode_records i j records' (fwrite buffer ofp)
              num_segments num_vertices
        end
  end.

(** Lines 525-682: one cell.  The staging file of cell [(i, j)] is
    [cell_j_i]. *)
Definition encode_cell (files : gmap (Z * Z) (list segment)) (i j : Z)
    (ofp : file) : result file :=
  match files !! (j, i) with
  | None => Done ofp
  | Some records =>
      let offset := header_offset i j in
      let address := ftell ofp in
      match encode_records i j records ofp 0 0 with
      | Exit code e ofp => Exit code e ofp
      | Done (ofp, num_segments, num_vertices) =>
          let ofp := fseek_set offset ofp in
          let ofp :=
            fwrite (pack_head address num_segments num_vertices) ofp in
          Done (fseek_end ofp)
      end
  end.

Fixpoint encode_cells (files : gmap (Z * Z) (list segment))
    (cells : list (Z * Z)) (ofp : file) : result file :=
  match cells with
  | [] => Done ofp
  | ij :: cells' =>
      match encode_cell files ij.1 ij.2 ofp with
      | Exit code e ofp => Exit code e ofp
      | Done ofp => encode_cells files cells' ofp
      end
  end.

(** Lines 478-515: the output file before the first cell. *)
Definition open_output_on (cells : list (Z * Z)) : file :=
  init_header_on cells (fwrite version fopen_wb).

(** Lines 465-701: pass 2 over the cells [cells], on the staging files
    left by pass 1. *)
Definition pass2_on (cells : list (Z * Z))
    (files : gmap (Z * Z) (list segment)) : result file :=
  encode_cells files cells (open_output_on cells).

Definition pass2 (files : gmap (Z * Z) (list segment)) : result file :=
  pass2_on grid files.

End Output.

(** ** The whole run *)

Module Program.

Import Encoder Ingester Output.

(** How a run of [main] ends: with the output file complete, with
    [exit (-1)] after the usage message or after the error of a segment in
    pass 2 (the output file as it is then), or with the null pointer passed
    to [fwrite] or [fclose] in pass 1. *)
Inductive ending : Type :=
| Completed (ofp : file)
| Usage (code : Z)
| RangeExit (code : Z) (e : range_error) (ofp : file)
| NullStreamUse.

(** [main], on the shapes of the input files named on the command line. *)
Definition main (inputs : list (list SHPObject)) : ending :=
  match inputs with
  | [] => Usage (-1)
  | _ =>
      match pass1 inputs with
      | NullStream => NullStreamUse
      | Ok st =>
          match pass2 (files st) with
          | Done ofp => Completed ofp
          | Exit code e ofp => RangeExit code e ofp
          end
      end
  end.

End Program.

(** ** Predicates used in the statements *)

Module Spec.

Import Encoder.

(** The declared ranges of an IntegerVertex: degrees times 100000, with
    longitude below 360 and latitude below 180. *)
Definition vertex_in_range (v : vertex) : Prop :=
  (0 <= v.1 <= 35999999) /\ (0 <= v.2 <= 17999999).

(** Differences between consecutive values, on the integers. *)
Fixpoint deltas (prev : Z) (rest : list Z) : list Z :=
  match rest with
  | [] => []
  | v :: rest' => (v - prev) :: deltas v rest'
  end.

(** Every offset packed by [pack_offsets] is the exact biased difference
    and fits its field. *)
Fixpoint offsets_fit (lon_offset_bits lat_offset_bits bias_x bias_y : Z)
    (prev : vertex) (rest : segment) : Prop :=
  match rest with
  | [] => True
  | v :: rest' =>
      add32 (sub32 v.1 prev.1) bias_x = v.1 - prev.1 + bias_x
      /\ 0 <= v.1 - prev.1 + bias_x < 2 ^ lon_offset_bits
      /\ add32 (sub32 v.2 prev.2) bias_y = v.2 - prev.2 + bias_y
      /\ 0 <= v.2 - prev.2 + bias_y < 2 ^ lat_offset_bits
      /\ offsets_fit lon_offset_bits lat_offset_bits bias_x bias_y v rest'
  end.

(** What [pack_segment] needs of the fields for the block to be read back:
    the three widths fit their 5-bit headers, every value fits its field,
    and the buffer holds all the bits. *)
Record fields_fit (f : fields) (seg : segment) : Prop := {
  ff_count : f_count f = Z.of_nat (length seg);
  ff_count_bits : 0 <= f_count_bits f < 32;
  ff_lon_bits : 0 <= f_lon_offset_bits f < 32;
  ff_lat_bits : 0 <= f_lat_offset_bits f < 32;
  ff_count_fits : f_count f < 2 ^ f_count_bits f;
  ff_bias_x : 0 <= f_bias_x f + max_bias < 2 ^ 18;
  ff_bias_y : 0 <= f_bias_y f + max_bias < 2 ^ 18;
  ff_size :
    total_bits (f_count_bits f) (f_lon_offset_bits f)
      (f_lat_offset_bits f) (f_count f) <= 8 * f_size f
}.

(** The block of a segment with the fields [f], packed in a buffer of
    [f_size f] bytes of zero. *)
Definition packed (f : fields) (seg : segment) : bytes :=
  pack_segment f seg (replicate (Z.to_nat (f_size f)) 0).

(** [k] is the integer nearest to [log2 n], that is
    [k - 1/2 <= log2 n <= k + 1/2], stated on the integers by squaring:
    [4 ^ k <= 2 n^2 < 4 ^ (k + 1)]. *)
Definition nearest_log2 (n k : Z) : Prop :=
  0 <= k /\ 2 ^ (2 * k) <= 2 * n * n < 2 ^ (2 * k + 2).

(** The ceiling of [log2 n], the rounding which the widths do not use. *)
Definition ceil_log2 (n : Z) : Z := Z.log2_up n.

Definition is_min (m : Z) (l : list Z) : Prop :=
  m ∈ l /\ Forall (fun d => m <= d) l.

Definition is_max (m : Z) (l : list Z) : Prop :=
  m ∈ l /\ Forall (fun d => d <= m) l.

(** A range of 0 is stored as 1. *)
Definition floor1 (r : Z) : Z := if r =? 0 then 1 else r.

(** A segment of three vertices and its block, used to exercise the
    theorems. *)
Definition seg3 : segment := [(100, 200); (105, 190); (103, 195)].
Definition block3 : bytes :=
  [25; 10; 224; 0; 24; 0; 36; 0; 0; 100; 0; 0; 100; 56; 1; 224; 0].

End Spec.

(** ** Invariants of the staging files and of the index table *)

Module Invariants.

Import Encoder Ingester Output.

(** The input range of a vertex: degrees of longitude and latitude. *)
Definition valid_vertex (xy : Q * Q) : Prop :=
  (-180 <= xy.1 <= 180)%Q /\ (-90 <= xy.2 <= 90)%Q.

Definition valid_shape (shape : SHPObject) : Prop :=
  Forall valid_vertex (padf shape).

Definition valid_inputs (inputs : list (list SHPObject)) : Prop :=
  Forall (Forall valid_shape) inputs.

(** The range of the vertices which pass 1 stores for inputs within the
    input range. *)
Definition stored_range (v : vertex) : Prop :=
  (0 <= v.1 <= 36000000) /\ (0 <= v.2 <= 18000000).

(** Staging files whose vertices are within that range and whose records
    have fewer than [2 ^ 25] vertices: for these the size of every block is
    computed without wrap-around. *)
Definition staged_within (files : gmap (Z * Z) (list segment)) : Prop :=
  forall c records seg,
    files !! c = Some records -> seg ∈ records ->
    Forall stored_range seg /\ Z.of_nat (length seg) < 2 ^ 25.

(** A staging file which holds a segment of at least one vertex. *)
Definition has_segment (records : list segment) : Prop :=
  exists seg, seg ∈ records /\ seg <> [].

(** Between two vertices: the vertices counted by [segCount] are in the
    arrays, the open file exists, and a staging file without a segment is
    the open one, with a segment waiting to be written to it. *)
Record staging (st : state) : Prop := {
  st_count : 0 <= segCount st <= Z.of_nat (length (segxy st));
  st_open : forall c, fp st = Some c -> is_Some (files st !! c);
  st_files :
    forall c records,
      files st !! c = Some records ->
      has_segment records \/ (fp st = Some c /\ 1 <= segCount st);
  st_first : latdeg0 st = -999 -> files st = ∅ /\ fp st = None;
  st_lat : latdeg0 st = -999 \/ latdeg0 st = -888 \/ 0 <= latdeg0 st
}.

(** Between two input files: every staging file holds a segment. *)
Record flushed (st : state) : Prop := {
  fl_count : 0 <= Z.of_nat (length (segxy st));
  fl_open : forall c, fp st = Some c -> is_Some (files st !! c);
  fl_files :
    forall c records, files st !! c = Some records -> has_segment records;
  fl_first : latdeg0 st = -999 -> files st = ∅ /\ fp st = None;
  fl_lat : latdeg0 st = -999 \/ latdeg0 st = -888 \/ 0 <= latdeg0 st
}.

(** The three 32-bit fields of the index entry of cell [(i, j)]. *)
Definition read_entry (d : bytes) (i j : Z) : Z * Z * Z :=
  let head_buf := take 12 (drop (Z.to_nat (header_offset i j)) d) in
  (bit_unpack head_buf 0 32, bit_unpack head_buf 32 32,
   bit_unpack head_buf 64 32).

(** An entry without segments is zero. *)
Definition entry_ok (e : Z * Z * Z) : Prop :=
  e.1.2 = 0 -> e.1.1 = 0 /\ e.2 = 0.

(** The end of the index table. *)
Definition header_end : Z := 128 + 180 * 360 * 12.

Definition in_grid (i j : Z) : Prop := 0 <= i < 180 /\ 0 <= j < 360.

(** The index table is whole and every entry without segments is zero. *)
Definition table_ok (d : bytes) : Prop :=
  header_end <= Z.of_nat (length d)
  /\ forall i j, in_grid i j -> entry_ok (read_entry d i j).

(** The entry of a cell without staging file is zero. *)
Definition absent_zero (files : gmap (Z * Z) (list segment)) (d : bytes)
  : Prop :=
  forall i j, in_grid i j -> files !! (j, i) = None ->
              read_entry d i j = (0, 0, 0).

(** The file while the header area is initialised: the version, then
    zeros, up to the end of the index table at most. *)
Definition zero_table (d : bytes) : Prop :=
  128 <= Z.of_nat (length d) <= header_end
  /\ forall (k : nat) b, 128 <= Z.of_nat k -> d !! k = Some b -> b = 0.

End Invariants.

(** ** Inputs used to exercise the theorems on pass 1 *)

Module Samples.

Import Ingester.

(** A shape of one part and two vertices, the first in cell (lon 10,
    lat 10) and the second in cell (lon 11, lat 10). *)
Definition two_points : SHPObject :=
  SHP [0] [((-1695 # 10)%Q, (-795 # 10)%Q); ((-1685 # 10)%Q, (-795 # 10)%Q)].

(** The state of pass 1 after the first vertex of [two_points]. *)
Definition after_first_vertex : state :=
  State 2 (Some (10, 10)) {[(10, 10) := []]} 1 [(1050000, 1050000)]
    10 10 (21 # 2)%Q (21 # 2)%Q.

(** A vertex at the north pole. *)
Definition north_pole : Q * Q := (0%Q, 90%Q).

End Samples.

(** ** What pass 2 puts in the output file *)

Module Contents.

Import Encoder Output.

(** The blocks of the records of a staging file, in the order of the
    file: one block for every record which has vertices and which the
    encoder packs. *)
Definition cell_blocks (i j : Z) (records : list segment) : list bytes :=
  omap (fun seg => match encode_segment i j seg with
                   | inr block => Some block
                   | inl _ => None
                   end)
       (filter (fun seg => seg <> []) records).

(** The bytes which the cell of latitude index [ij.1] and longitude index
    [ij.2] adds to the output file. *)
Definition cell_bytes (files : gmap (Z * Z) (list segment)) (ij : Z * Z)
  : bytes :=
  match files !! (ij.2, ij.1) with
  | Some records => concat (cell_blocks ij.1 ij.2 records)
  | None => []
  end.

(** The output file as a run of pass 2 leaves it, whether the run ends or
    exits. *)
Definition left_file (r : result file) : file :=
  match r with
  | Done ofp => ofp
  | Exit _ _ ofp => ofp
  end.

End Contents.

(** ** The vertices which pass 1 stores *)

Module Geometry.

Import Encoder Ingester.

(** The integer vertex which pass 1 puts in [segx], [segy] for the input
    vertex [xy] (lines 244-260 and 408-409). *)
Definition staged (xy : Q * Q) : vertex :=
  (scaled (normalize xy).1, scaled (normalize xy).2).

End Geometry.

(** ** Where the vertices of the input are kept during pass 1 *)

Module Keeping.

Import Encoder Ingester Invariants Geometry.

(** The stored vertex [v] is in a segment of the staging file of the cell
    [c]. *)
Definition in_file (files : gmap cell (list segment)) (c : cell)
    (v : vertex) : Prop :=
  exists records seg, files !! c = Some records /\ seg ∈ records /\ v ∈ seg.

(** The stored vertex [v] is among the vertices counted by [segCount], and
    the open file is the one of the cell [c]. *)
Definition pending (st : state) (c : cell) (v : vertex) : Prop :=
  fp st = Some c /\ v ∈ take (Z.to_nat (segCount st)) (segxy st).

(** The input vertex [xy] is not lost: it is in the file of its cell or
    waits to be written to it, unless no file is open. *)
Definition kept (st : state) (xy : Q * Q) : Prop :=
  fp st = None
  \/ in_file (files st) (cell_of (normalize xy)) (staged xy)
  \/ pending st (cell_of (normalize xy)) (staged xy).

(** Between two vertices, for the vertices [seen] so far. *)
Record keeping (st : state) (seen : list (Q * Q)) : Prop := {
  kp_staging : staging st;
  kp_open :
    0 <= latdeg0 st ->
    forall c, fp st = Some c -> c = (londeg0 st, latdeg0 st);
  kp_first : latdeg0 st = -999 -> seen = [];
  kp_seen : Forall (kept st) seen
}.

(** Between two input files, for the vertices [seen] so far. *)
Record filed (st : state) (seen : list (Q * Q)) : Prop := {
  fd_flushed : flushed st;
  fd_lat : latdeg0 st = -999 \/ latdeg0 st = -888;
  fd_first : latdeg0 st = -999 -> seen = [];
  fd_seen :
    Forall (fun xy => in_file (files st) (cell_of (normalize xy)) (staged xy))
      seen
}.

(** The vertices of the shapes of at least two vertices, which are those
    pass 1 reads. *)
Definition vertices_read (shapes : list SHPObject) : list (Q * Q) :=
  filter (fun shape => 2 <= nVertices shape) shapes ≫= padf.

(** The staging files [m'] hold the records of the staging files [m], in
    order, and what was written after them. *)
Definition grows (m m' : gmap cell (list segment)) : Prop :=
  forall c records,
    m !! c = Some records -> exists more, m' !! c = Some (records ++ more).

End Keeping.

(** ** The names of the files *)

Module Names.

Import String Ascii DecimalString.

Local Open Scope string_scope.

(** The decimal digits of a number which is not negative. *)
Definition digits (n : N) : string := NilEmpty.string_of_uint (N.to_uint n).

Fixpoint zeros (k : nat) : string :=
  match k with
  | O => ""
  | S k' => String "0" (zeros k')
  end.

(** Zeros in front of [s], up to the width. *)
Definition pad (width : nat) (s : string) : string :=
  zeros (width - String.length s) ++ s.

(** [%03d]: at least three characters, with the sign first and zeros after
    it. *)
Definition fmt_03d (z : Z) : string :=
  if (z <? 0)%Z then String "-" (pad 2 (digits (Z.to_N (- z))))
  else pad 3 (digits (Z.to_N z)).

(** [sprintf (fname, "cell_%03d_%03d", londeg, latdeg)] *)
Definition cell_name (londeg latdeg : Z) : string :=
  "cell_" ++ fmt_03d londeg ++ "_" ++ fmt_03d latdeg.

(** Lines 470-471: the name of the output file, from the last argument of
    the command line.  [outname] holds 512 characters; the result is
    [None] where the source reads before the start of [outname] (an
    argument of fewer than four characters) or writes beyond its end. *)
Definition outname (arg : string) : option string :=
  let n := String.length arg in
  if (n <? 4)%nat then None
  else if (512 <=? n)%nat then None
  else if String.eqb (substring (n - 4) 4 arg) ".ccl" then Some arg
  else if (512 <=? n + 4)%nat then None
  else Some (arg ++ ".ccl").

(** The number which a string of digits stands for. *)
Definition number (s : string) : option N :=
  match NilEmpty.uint_of_string s with
  | Some d => Some (N.of_uint d)
  | None => None
  end.

(** No character of the string is an underscore. *)
Fixpoint plain (s : string) : Prop :=
  match s with
  | "" => True
  | String a s' => a <> "_"%char /\ plain s'
  end.

End Names.

(** ** Reader of the cells of the output file *)

Module Reader.

Import Encoder Decoder Output Invariants.

(** Modelled from the spec: the length in bytes of the block at the start
    of [buffer], from its three widths and its count, as section 4.3 gives
    it. *)
Definition block_size (buffer : bytes) : Z :=
  let count_bits := bit_unpack buffer 0 5 in
  let lon_offset_bits := bit_unpack buffer 5 5 in
  let lat_offset_bits := bit_unpack buffer 10 5 in
  let count := bit_unpack buffer 15 count_bits in
  total_bits count_bits lon_offset_bits lat_offset_bits count / 8 + 1.

(** Modelled from the spec: [n] blocks, one after the other. *)
Fixpoint decode_blocks (n : nat) (buffer : bytes) : list segment :=
  match n with
  | O => []
  | S m =>
      decode_segment buffer
        :: decode_blocks m (drop (Z.to_nat (block_size buffer)) buffer)
  end.

(** Modelled from the spec: the segments of the cell of latitude index [i]
    and longitude index [j], found through its index entry. *)
Definition read_cell (d : bytes) (i j : Z) : list segment :=
  decode_blocks (Z.to_nat (read_entry d i j).1.2)
    (drop (Z.to_nat (read_entry d i j).1.1) d).

End Reader.

(** ** Lemmas on machine integers *)

Lemma wrap32_id z : int32 z -> wrap32 z = z.
Proof.
  unfold int32, wrap32. intros H.
  rewrite Z.mod_small; lia.
Qed.

Lemma wrap32_int32 z : int32 (wrap32 z).
Proof.
  unfold int32, wrap32.
  pose proof (Z.mod_pos_bound (z + 2 ^ 31) (2 ^ 32) ltac:(lia)). lia.
Qed.

(** ** Lemmas on doubles *)

Section DoubleLemmas.

Import Double.

Local Open Scope Q_scope.

Lemma pow2_pos (e : Z) : 0 < 2 ^ e.
Proof. by apply Qpower_0_lt. Qed.

Lemma pow2_add (a b : Z) : 2 ^ (a + b) == 2 ^ a * 2 ^ b.
Proof. by apply Qpower_plus. Qed.

Lemma pow2_inject (e : Z) : (0 <= e)%Z -> 2 ^ e == inject_Z (2 ^ e).
Proof. intros He. by rewrite Zpower_Qpower. Qed.

Lemma pow2_le (a b : Z) : (a <= b)%Z -> 2 ^ a <= 2 ^ b.
Proof. intros H. apply Qpower_le_compat_l; [done | discriminate]. Qed.

Lemma ulp_pos (q : Q) : 0 < ulp q.
Proof. apply pow2_pos. Qed.

Lemma rne_le (t : Q) (M : Z) : t <= inject_Z M -> (rne t <= M)%Z.
Proof.
  intros Ht. unfold rne.
  pose proof (Qfloor_le t) as Hlo.
  assert (Hk : (Qfloor t <= M)%Z).
  { rewrite <- (Qfloor_Z M). by apply Qfloor_resp_le. }
  assert (Hup : ~ t - inject_Z (Qfloor t) < 1 # 2 -> (Qfloor t + 1 <= M)%Z).
  { intros Hn.
    destruct (Z.eq_dec (Qfloor t) M) as [Heq|]; [|lia].
    exfalso. apply Hn. rewrite Heq. Lqa.lra. }
  destruct (t - inject_Z (Qfloor t) ?= 1 # 2) eqn:Hc.
  - apply Qeq_alt in Hc.
    destruct (Z.even (Qfloor t)); [done|]. apply Hup. Lqa.lra.
  - done.
  - apply Qgt_alt in Hc. apply Hup. Lqa.lra.
Qed.

Lemma rne_ge (t : Q) (M : Z) : inject_Z M <= t -> (M <= rne t)%Z.
Proof.
  intros Ht. unfold rne.
  assert (Hk : (M <= Qfloor t)%Z).
  { rewrite <- (Qfloor_Z M). by apply Qfloor_resp_le. }
  destruct (t - inject_Z (Qfloor t) ?= 1 # 2);
    [destruct (Z.even (Qfloor t))|..]; lia.
Qed.

Lemma round_eq (q : Q) : round q == inject_Z (rne (q / ulp q)) * ulp q.
Proof. unfold round. apply Qred_correct. Qed.

(** Rounding does not cross a multiple of the unit in the last place. *)
Lemma round_le_unit (q : Q) (F : Z) :
  q <= inject_Z F * ulp q -> round q <= inject_Z F * ulp q.
Proof.
  intros H. rewrite round_eq.
  apply Qmult_le_compat_r; [|apply Qlt_le_weak, ulp_pos].
  rewrite <- Zle_Qle. apply rne_le.
  apply Qle_shift_div_r; [apply ulp_pos | exact H].
Qed.

Lemma round_ge_unit (q : Q) (F : Z) :
  inject_Z F * ulp q <= q -> inject_Z F * ulp q <= round q.
Proof.
  intros H. rewrite round_eq.
  apply Qmult_le_compat_r; [|apply Qlt_le_weak, ulp_pos].
  rewrite <- Zle_Qle. apply rne_ge.
  apply Qle_shift_div_l; [apply ulp_pos | exact H].
Qed.


(** A power of two against a fraction, on the integers. *)
Lemma pow2_le_frac (e n : Z) (d : positive) :
  (if (0 <=? e)%Z then (Zpos d * 2 ^ e <=? n)%Z
   else (Zpos d <=? n * 2 ^ (- e))%Z) = true ->
  2 ^ e <= n # d.
Proof.
  destruct (Z.leb_spec 0 e) as [He|He]; intros H.
  - apply Z.leb_le in H. rewrite pow2_inject by done.
    unfold Qle. cbn [Qnum Qden inject_Z]. lia.
  - apply Z.leb_le in H.
    replace e with (- - e)%Z by lia.
    rewrite Qpower_opp, pow2_inject by lia.
    assert (Hp : (0 < 2 ^ (- e))%Z) by (apply Z.pow_pos_nonneg; lia).
    apply Qle_shift_inv_r.
    + change 0 with (inject_Z 0). by rewrite <- Zlt_Qlt.
    + unfold Qle. cbn [Qnum Qden inject_Z Qmult]. lia.
Qed.

(** [2 ^ ilog2 q] is at most [|q|]. *)
Lemma ilog2_lower (q : Q) : ~ q == 0 -> 2 ^ ilog2 q <= Qabs q.
Proof.
  intros Hq. destruct q as [n d]. unfold ilog2. cbn [Qnum Qden Qabs].
  assert (Hn : (1 <= Z.abs n)%Z).
  { assert (n <> 0%Z); [|lia]. intros ->. by apply Hq. }
  set (N := Z.abs n) in *. set (D := Zpos d).
  destruct (if (0 <=? Z.log2 N - Z.log2 D)%Z
            then (D * 2 ^ (Z.log2 N - Z.log2 D) <=? N)%Z
            else (D <=? N * 2 ^ (- (Z.log2 N - Z.log2 D)))%Z) eqn:Ht.
  - by apply pow2_le_frac.
  - apply pow2_le_frac. fold D.
    destruct (Z.log2_spec N ltac:(lia)) as [Ha _].
    destruct (Z.log2_spec D ltac:(done)) as [_ Hb].
    pose proof (Z.log2_nonneg N) as Ha0.
    pose proof (Z.log2_nonneg D) as Hb0.
    set (a := Z.log2 N) in *. set (b := Z.log2 D) in *.
    destruct (Z.leb_spec 0 (a - b - 1)) as [He|He].
    + apply Z.leb_le.
      assert (H2 : (2 ^ a = 2 ^ (b + 1) * 2 ^ (a - b - 1))%Z).
      { rewrite <- Z.pow_add_r by lia. f_equal. lia. }
      assert (Hp : (0 < 2 ^ (a - b - 1))%Z) by (apply Z.pow_pos_nonneg; lia).
      nia.
    + apply Z.leb_le.
      assert (H2 : (2 ^ (b + 1) = 2 ^ a * 2 ^ (- (a - b - 1)))%Z).
      { rewrite <- Z.pow_add_r by lia. f_equal. lia. }
      assert (Hp : (0 < 2 ^ (- (a - b - 1)))%Z)
        by (apply Z.pow_pos_nonneg; lia).
      nia.
Qed.

Lemma ulp_exponent (q : Q) :
  exists E : Z, ulp q = 2 ^ E /\ (-1074 <= E)%Z
                /\ ((-1074 < E)%Z -> E = (ilog2 q - 52)%Z).
Proof.
  exists (Z.max (ilog2 q) (-1022) - 52)%Z. split; [done|]. lia.
Qed.

(** Rounding to nearest does not cross a double. *)
Lemma round_le (q f : Q) : format f -> q <= f -> round q <= f.
Proof.
  intros (m & E & Hf & Hm & HE) Hqf.
  destruct (ulp_exponent q) as (Eq & Hu & HEq & Hnorm).
  destruct (Z.le_gt_cases Eq E) as [Hle|Hgt].
  - (* [f] is a multiple of the unit in the last place of [q] *)
    assert (Hmul : f == inject_Z (m * 2 ^ (E - Eq)) * ulp q).
    { rewrite Hf, Hu, inject_Z_mult, <- pow2_inject by lia.
      rewrite <- Qmult_assoc, <- pow2_add.
      by replace (E - Eq + Eq)%Z with E by lia. }
    rewrite Hmul. apply round_le_unit. by rewrite <- Hmul.
  - (* [|f|] is at most [2 ^ ilog2 q] *)
    specialize (Hnorm ltac:(lia)).
    assert (Hpow : 2 ^ ilog2 q == inject_Z (2 ^ 52) * ulp q).
    { rewrite Hu, <- pow2_inject, <- pow2_add by lia.
      by replace (52 + Eq)%Z with (ilog2 q) by lia. }
    assert (Hopp : - 2 ^ ilog2 q == inject_Z (- 2 ^ 52) * ulp q).
    { rewrite inject_Z_opp, Hpow. ring. }
    assert (Hbound : - 2 ^ ilog2 q <= f <= 2 ^ ilog2 q).
    { assert (Hstep : inject_Z (2 ^ 53) * 2 ^ E <= 2 ^ ilog2 q).
      { rewrite <- pow2_inject, <- pow2_add by lia. apply pow2_le. lia. }
      assert (Hm1 : inject_Z m <= inject_Z (2 ^ 53))
        by (rewrite <- Zle_Qle; lia).
      assert (Hm2 : - inject_Z (2 ^ 53) <= inject_Z m)
        by (rewrite <- inject_Z_opp, <- Zle_Qle; lia).
      pose proof (pow2_pos E) as HpE.
      apply (Qmult_le_compat_r _ _ (2 ^ E)) in Hm1, Hm2;
        [|by apply Qlt_le_weak ..].
      rewrite Hf. split; Lqa.lra. }
    destruct (Qlt_le_dec 0 q) as [Hpos|Hneg].
    + assert (~ q == 0) by Lqa.lra.
      pose proof (ilog2_lower q ltac:(done)) as Hlow.
      rewrite Qabs_pos in Hlow by Lqa.lra.
      assert (Hr : round q <= inject_Z (2 ^ 52) * ulp q).
      { apply round_le_unit. Lqa.lra. }
      Lqa.lra.
    + destruct (Qlt_le_dec f 0) as [Hfneg|Hfpos].
      * assert (~ q == 0) by Lqa.lra.
        pose proof (ilog2_lower q ltac:(done)) as Hlow.
        rewrite Qabs_neg in Hlow by Lqa.lra.
        assert (Hr : round q <= inject_Z (- 2 ^ 52) * ulp q).
        { apply round_le_unit. Lqa.lra. }
        Lqa.lra.
      * assert (Hr : round q <= inject_Z 0 * ulp q).
        { apply round_le_unit. change (inject_Z 0) with 0. Lqa.lra. }
        change (inject_Z 0) with 0 in Hr. Lqa.lra.
Qed.

Lemma round_ge (q f : Q) : format f -> f <= q -> f <= round q.
Proof.
  intros (m & E & Hf & Hm & HE) Hqf.
  destruct (ulp_exponent q) as (Eq & Hu & HEq & Hnorm).
  destruct (Z.le_gt_cases Eq E) as [Hle|Hgt].
  - assert (Hmul : f == inject_Z (m * 2 ^ (E - Eq)) * ulp q).
    { rewrite Hf, Hu, inject_Z_mult, <- pow2_inject by lia.
      rewrite <- Qmult_assoc, <- pow2_add.
      by replace (E - Eq + Eq)%Z with E by lia. }
    rewrite Hmul. apply round_ge_unit. by rewrite <- Hmul.
  - specialize (Hnorm ltac:(lia)).
    assert (Hpow : 2 ^ ilog2 q == inject_Z (2 ^ 52) * ulp q).
    { rewrite Hu, <- pow2_inject, <- pow2_add by lia.
      by replace (52 + Eq)%Z with (ilog2 q) by lia. }
    assert (Hopp : - 2 ^ ilog2 q == inject_Z (- 2 ^ 52) * ulp q).
    { rewrite inject_Z_opp, Hpow. ring. }
    assert (Hbound : - 2 ^ ilog2 q <= f <= 2 ^ ilog2 q).
    { assert (Hstep : inject_Z (2 ^ 53) * 2 ^ E <= 2 ^ ilog2 q).
      { rewrite <- pow2_inject, <- pow2_add by lia. apply pow2_le. lia. }
      assert (Hm1 : inject_Z m <= inject_Z (2 ^ 53))
        by (rewrite <- Zle_Qle; lia).
      assert (Hm2 : - inject_Z (2 ^ 53) <= inject_Z m)
        by (rewrite <- inject_Z_opp, <- Zle_Qle; lia).
      pose proof (pow2_pos E) as HpE.
      apply (Qmult_le_compat_r _ _ (2 ^ E)) in Hm1, Hm2;
        [|by apply Qlt_le_weak ..].
      rewrite Hf. split; Lqa.lra. }
    destruct (Qlt_le_dec q 0) as [Hneg|Hpos].
    + assert (~ q == 0) by Lqa.lra.
      pose proof (ilog2_lower q ltac:(done)) as Hlow.
      rewrite Qabs_neg in Hlow by Lqa.lra.
      assert (Hr : inject_Z (- 2 ^ 52) * ulp q <= round q).
      { apply round_ge_unit. Lqa.lra. }
      Lqa.lra.
    + destruct (Qlt_le_dec 0 f) as [Hfpos|Hfneg].
      * assert (~ q == 0) by Lqa.lra.
        pose proof (ilog2_lower q ltac:(done)) as Hlow.
        rewrite Qabs_pos in Hlow by Lqa.lra.
        assert (Hr : inject_Z (2 ^ 52) * ulp q <= round q).
        { apply round_ge_unit. Lqa.lra. }
        Lqa.lra.
      * assert (Hr : inject_Z 0 * ulp q <= round q).
        { apply round_ge_unit. change (inject_Z 0) with 0. Lqa.lra. }
        change (inject_Z 0) with 0 in Hr. Lqa.lra.
Qed.

(** A double is not changed by rounding. *)
Lemma round_format (q f : Q) : format f -> q == f -> round q == f.
Proof.
  intros Hf Hq. apply Qle_antisym.
  - apply round_le; [done | Lqa.lra].
  - apply round_ge; [done | Lqa.lra].
Qed.

End DoubleLemmas.

Section DoubleSpec.

Import Double.

Local Open Scope Q_scope.

Lemma frac_lt_pow2 (e n : Z) (d : positive) :
  (if (0 <=? e)%Z then (n <? Zpos d * 2 ^ e)%Z
   else (n * 2 ^ (- e) <? Zpos d)%Z) = true ->
  n # d < 2 ^ e.
Proof.
  destruct (Z.leb_spec 0 e) as [He|He]; intros H.
  - apply Z.ltb_lt in H. rewrite pow2_inject by done.
    unfold Qlt. cbn [Qnum Qden inject_Z]. lia.
  - apply Z.ltb_lt in H.
    replace e with (- - e)%Z by lia.
    rewrite Qpower_opp, pow2_inject by lia.
    assert (Hp : (0 < 2 ^ (- e))%Z) by (apply Z.pow_pos_nonneg; lia).
    apply Qlt_shift_inv_l.
    + change 0 with (inject_Z 0). by rewrite <- Zlt_Qlt.
    + unfold Qlt. cbn [Qnum Qden inject_Z Qmult]. lia.
Qed.

(** [|q|] is below [2 ^ (ilog2 q + 1)]: with [ilog2_lower], [ilog2 q] is
    the exponent of the binade of [q]. *)
Lemma ilog2_upper (q : Q) : ~ q == 0 -> Qabs q < 2 ^ (ilog2 q + 1).
Proof.
  intros Hq. destruct q as [n d]. unfold ilog2. cbn [Qnum Qden Qabs].
  assert (Hn : (1 <= Z.abs n)%Z).
  { assert (n <> 0%Z); [|lia]. intros ->. by apply Hq. }
  set (N := Z.abs n) in *. set (D := Zpos d).
  destruct (Z.log2_spec N ltac:(lia)) as [_ Ha].
  destruct (Z.log2_spec D ltac:(done)) as [Hb _].
  pose proof (Z.log2_nonneg N) as Ha0.
  pose proof (Z.log2_nonneg D) as Hb0.
  replace (Z.succ (Z.log2 N)) with (Z.log2 N + 1)%Z in Ha by lia.
  set (a := Z.log2 N) in *. set (b := Z.log2 D) in *.
  destruct (if (0 <=? a - b)%Z
            then (D * 2 ^ (a - b) <=? N)%Z
            else (D <=? N * 2 ^ (- (a - b)))%Z) eqn:Ht.
  - apply frac_lt_pow2. fold D.
    destruct (Z.leb_spec 0 (a - b + 1)) as [He|He].
    + apply Z.ltb_lt.
      assert (H2 : (2 ^ (a + 1) = 2 ^ b * 2 ^ (a - b + 1))%Z).
      { rewrite <- Z.pow_add_r by lia. f_equal. lia. }
      assert (Hp : (0 < 2 ^ (a - b + 1))%Z) by (apply Z.pow_pos_nonneg; lia).
      nia.
    + apply Z.ltb_lt.
      assert (H2 : (2 ^ b = 2 ^ (a + 1) * 2 ^ (- (a - b + 1)))%Z).
      { rewrite <- Z.pow_add_r by lia. f_equal. lia. }
      assert (Hp : (0 < 2 ^ (- (a - b + 1)))%Z)
        by (apply Z.pow_pos_nonneg; lia).
      nia.
  - replace (a - b - 1 + 1)%Z with (a - b)%Z by lia.
    apply frac_lt_pow2. fold D.
    destruct (Z.leb_spec 0 (a - b)).
    + apply Z.leb_gt in Ht. by apply Z.ltb_lt.
    + apply Z.leb_gt in Ht. by apply Z.ltb_lt.
Qed.

Lemma rne_near (t : Q) : Qabs (inject_Z (rne t) - t) <= 1 # 2.
Proof.
  unfold rne.
  pose proof (Qfloor_le t) as Hlo. pose proof (Qlt_floor t) as Hhi.
  rewrite inject_Z_plus in Hhi. change (inject_Z 1) with 1 in Hhi.
  apply Qabs_Qle_condition.
  destruct (t - inject_Z (Qfloor t) ?= 1 # 2) eqn:Hc.
  - apply Qeq_alt in Hc.
    destruct (Z.even (Qfloor t)).
    + split; Lqa.lra.
    + rewrite inject_Z_plus. change (inject_Z 1) with 1. split; Lqa.lra.
  - apply Qlt_alt in Hc. split; Lqa.lra.
  - apply Qgt_alt in Hc. rewrite inject_Z_plus.
    change (inject_Z 1) with 1. split; Lqa.lra.
Qed.

(** The double which [round] gives is within half a unit in the last place
    of [q]: no multiple of the unit is nearer. *)
Lemma round_near (q : Q) : Qabs (round q - q) <= ulp q / 2.
Proof.
  pose proof (ulp_pos q) as Hu. pose proof (rne_near (q / ulp q)) as Hn.
  assert (Heq : round q - q
                == (inject_Z (rne (q / ulp q)) - q / ulp q) * ulp q).
  { rewrite round_eq. field. Lqa.lra. }
  rewrite Heq, Qabs_Qmult, (Qabs_pos (ulp q)) by Lqa.lra.
  apply Qle_trans with ((1 # 2) * ulp q).
  - apply Qmult_le_compat_r; [exact Hn | Lqa.lra].
  - apply Qle_lteq. right. field.
Qed.

(** What [round] gives is a double. *)
Lemma round_is_double (q : Q) : format (round q).
Proof.
  destruct (ulp_exponent q) as (E & Hu & HE & _).
  exists (rne (q / ulp q)), E. split; [by rewrite round_eq, Hu|].
  split; [|done].
  pose proof (ulp_pos q) as Hpos.
  assert (Hb : - inject_Z (2 ^ 53) * ulp q <= q <= inject_Z (2 ^ 53) * ulp q).
  { destruct (Qeq_dec q 0) as [H0|Hne].
    - assert (0 <= inject_Z (2 ^ 53) * ulp q)
        by (apply Qmult_le_0_compat; [discriminate | Lqa.lra]).
      split; Lqa.lra.
    - pose proof (ilog2_upper q Hne) as Hup.
      assert (Hle : 2 ^ (ilog2 q + 1) <= inject_Z (2 ^ 53) * ulp q).
      { unfold ulp. rewrite <- pow2_inject, <- pow2_add by lia.
        apply pow2_le. lia. }
      assert (Habs : Qabs q <= inject_Z (2 ^ 53) * ulp q) by Lqa.lra.
      apply Qabs_Qle_condition in Habs. split; Lqa.lra. }
  assert (Ht : - inject_Z (2 ^ 53) <= q / ulp q <= inject_Z (2 ^ 53)).
  { split.
    - apply Qle_shift_div_l; [done | apply Hb].
    - apply Qle_shift_div_r; [done | apply Hb]. }
  pose proof (rne_le (q / ulp q) (2 ^ 53) (proj2 Ht)).
  rewrite <- inject_Z_opp in Ht.
  pose proof (rne_ge (q / ulp q) (- 2 ^ 53) (proj1 Ht)).
  lia.
Qed.

End DoubleSpec.

Section DoubleFormat.

Import Double.

Local Open Scope Q_scope.

Lemma format_Z (n : Z) : (Z.abs n <= 2 ^ 53)%Z -> format (inject_Z n).
Proof.
  intros Hn. exists n, 0%Z. split; [|split; [done | lia]].
  change (2 ^ 0) with 1. ring.
Qed.

Lemma format_half (n : Z) :
  (Z.abs n <= 2 ^ 52 - 1)%Z -> format (inject_Z n + (1 # 2)).
Proof.
  intros Hn. exists (2 * n + 1)%Z, (-1)%Z. split; [|split; lia].
  rewrite inject_Z_plus, inject_Z_mult.
  change (2 ^ (-1)) with (1 # 2). change (inject_Z 2) with 2.
  change (inject_Z 1) with 1. field.
Qed.

Lemma round_Z (q : Q) (n : Z) :
  (Z.abs n <= 2 ^ 53)%Z -> q == inject_Z n -> round q == inject_Z n.
Proof. intros Hn. apply round_format. by apply format_Z. Qed.

Lemma round_le_Z (q : Q) (n : Z) :
  (Z.abs n <= 2 ^ 53)%Z -> q <= inject_Z n -> round q <= inject_Z n.
Proof. intros Hn. apply round_le. by apply format_Z. Qed.

Lemma round_ge_Z (q : Q) (n : Z) :
  (Z.abs n <= 2 ^ 53)%Z -> inject_Z n <= q -> inject_Z n <= round q.
Proof. intros Hn. apply round_ge. by apply format_Z. Qed.

Lemma truncate_nonneg (q : Q) : 0 <= q -> (0 <= truncate q)%Z.
Proof.
  intros H. unfold truncate.
  destruct (Qle_bool 0 q) eqn:Hb.
  - change 0%Z with (Qfloor 0). by apply Qfloor_resp_le.
  - apply Qle_bool_iff in H. congruence.
Qed.

Lemma truncate_bounds (q : Q) :
  0 <= q -> inject_Z (truncate q) <= q /\ q < inject_Z (truncate q + 1).
Proof.
  intros Hq. unfold truncate.
  destruct (Qle_bool 0 q) eqn:Hb.
  - split; [apply Qfloor_le | apply Qlt_floor].
  - apply Qle_bool_iff in Hq. congruence.
Qed.

Lemma truncate_range (q : Q) (n : Z) :
  0 <= q -> q < inject_Z n -> (0 <= truncate q < n)%Z.
Proof.
  intros H0 Hn. split; [by apply truncate_nonneg|].
  destruct (truncate_bounds q H0) as [Hlo _].
  rewrite Zlt_Qlt. by eapply Qle_lt_trans.
Qed.

(** The conversion of a double which is not negative and below [2 ^ 31]
    is its integer part. *)
Lemma to_int32_truncate (q : Q) :
  0 <= q -> q < inject_Z (2 ^ 31) -> to_int32 q = truncate q.
Proof.
  intros H0 Hn. unfold to_int32.
  pose proof (truncate_range q (2 ^ 31) H0 Hn) as [Hlo Hhi].
  destruct (Z.leb_spec (- 2 ^ 31) (truncate q)); [|lia].
  destruct (Z.ltb_spec (truncate q) (2 ^ 31)); [done | lia].
Qed.

Lemma to_int32_range (q : Q) (n : Z) :
  (n <= 2 ^ 31)%Z -> 0 <= q -> q < inject_Z n -> (0 <= to_int32 q < n)%Z.
Proof.
  intros Hn H0 Hq.
  rewrite to_int32_truncate; [by apply truncate_range | done |].
  eapply Qlt_le_trans; [exact Hq|]. by rewrite <- Zle_Qle.
Qed.

Lemma to_int32_bounds (q : Q) :
  0 <= q -> q < inject_Z (2 ^ 31) ->
  inject_Z (to_int32 q) <= q /\ q < inject_Z (to_int32 q + 1).
Proof.
  intros H0 Hn. rewrite to_int32_truncate by done. by apply truncate_bounds.
Qed.

(** [NINT] of a double between two integers lies between them. *)
Lemma NINT_between (a : Q) (A B : Z) :
  (0 <= A)%Z -> (B < 2 ^ 31 - 1)%Z ->
  inject_Z A <= a -> a <= inject_Z B -> (A <= NINT a <= B)%Z.
Proof.
  intros HA HB Hlo Hhi.
  assert (H0 : 0 <= a).
  { eapply Qle_trans; [|exact Hlo]. change 0 with (inject_Z 0).
    by rewrite <- Zle_Qle. }
  assert (HAB : (A <= B)%Z) by (rewrite Zle_Qle; by eapply Qle_trans).
  unfold NINT. destruct (Qle_bool 0 a) eqn:Hb;
    [|apply Qle_bool_iff in H0; congruence].
  unfold add.
  assert (Hr1 : inject_Z A + (1 # 2) <= round (a + (1 # 2))).
  { apply round_ge; [apply format_half; lia | Lqa.lra]. }
  assert (Hr2 : round (a + (1 # 2)) <= inject_Z B + (1 # 2)).
  { apply round_le; [apply format_half; lia | Lqa.lra]. }
  assert (HA0 : 0 <= inject_Z A)
    by (change 0 with (inject_Z 0); by rewrite <- Zle_Qle).
  assert (HB1 : inject_Z B + 1 <= inject_Z (2 ^ 31)).
  { assert (H : (B + 1 <= 2 ^ 31)%Z) by lia.
    rewrite Zle_Qle, inject_Z_plus in H. exact H. }
  destruct (to_int32_bounds (round (a + (1 # 2)))) as [H1 H2];
    [Lqa.lra | Lqa.lra|].
  set (n := to_int32 (round (a + (1 # 2)))) in *.
  rewrite inject_Z_plus in H2. change (inject_Z 1) with 1 in H2.
  split.
  - assert (inject_Z A < inject_Z (n + 1)).
    { rewrite inject_Z_plus. change (inject_Z 1) with 1. Lqa.lra. }
    rewrite <- Zlt_Qlt in *. lia.
  - assert (inject_Z n < inject_Z (B + 1)).
    { rewrite inject_Z_plus. change (inject_Z 1) with 1. Lqa.lra. }
    rewrite <- Zlt_Qlt in *. lia.
Qed.

End DoubleFormat.

(** ** Lemmas on the bit codec *)

Section BitLemmas.

Implicit Types (buf : bytes) (i j s : Z) (n : nat).

Lemma length_set_bit buf i b : length (set_bit buf i b) = length buf.
Proof.
  unfold set_bit. destruct (buf !! _); [apply length_insert | done].
Qed.

Lemma length_pack_bits n : forall buf s v,
    length (pack_bits buf s n v) = length buf.
Proof.
  induction n as [|n IH]; intros buf s v; simpl; [done|].
  rewrite IH. apply length_set_bit.
Qed.

Lemma length_bit_pack buf s w v : length (bit_pack buf s w v) = length buf.
Proof. apply length_pack_bits. Qed.

Lemma bit_index_range i : 0 <= 7 - i mod 8 <= 7.
Proof. pose proof (Z.mod_pos_bound i 8 ltac:(lia)). lia. Qed.

Lemma get_set_same buf i b :
  0 <= i < 8 * Z.of_nat (length buf) ->
  get_bit (set_bit buf i b) i = b.
Proof.
  intros Hi. unfold get_bit, set_bit.
  assert (Hlt : (Z.to_nat (i / 8) < length buf)%nat).
  { apply Nat2Z.inj_lt. rewrite Z2Nat.id by (apply Z.div_pos; lia).
    apply Z.div_lt_upper_bound; lia. }
  destruct (lookup_lt_is_Some_2 buf _ Hlt) as [byte Hb].
  rewrite Hb, list_lookup_insert_eq by done.
  pose proof (bit_index_range i).
  destruct b.
  - rewrite Z.setbit_eqb by lia. by rewrite Z.eqb_refl.
  - rewrite Z.clearbit_eqb by lia. rewrite Z.eqb_refl. apply andb_false_r.
Qed.

Lemma bit_index_inj i j :
  0 <= i -> 0 <= j ->
  Z.to_nat (i / 8) = Z.to_nat (j / 8) -> 7 - i mod 8 = 7 - j mod 8 -> i = j.
Proof.
  intros Hi Hj Hd Hm.
  apply Z2Nat.inj in Hd; [|apply Z.div_pos; lia|apply Z.div_pos; lia].
  rewrite (Z.div_mod i 8), (Z.div_mod j 8) by lia. lia.
Qed.

Lemma get_set_other buf i j b :
  0 <= i -> 0 <= j -> i <> j ->
  get_bit (set_bit buf i b) j = get_bit buf j.
Proof.
  intros Hi Hj Hne. unfold get_bit, set_bit.
  destruct (buf !! Z.to_nat (i / 8)) as [byte|] eqn:Hb; [|done].
  destruct (decide (Z.to_nat (i / 8) = Z.to_nat (j / 8))) as [He|He].
  - rewrite <- He, Hb.
    rewrite list_lookup_insert_eq by (by eapply lookup_lt_Some).
    assert (7 - i mod 8 <> 7 - j mod 8)
      by (intros Hm; apply Hne; by apply bit_index_inj).
    pose proof (bit_index_range i). pose proof (bit_index_range j).
    destruct b.
    + rewrite Z.setbit_neq by lia. done.
    + rewrite Z.clearbit_neq by lia. done.
  - by rewrite list_lookup_insert_ne.
Qed.

Lemma get_pack_bits n : forall buf s v j,
    0 <= s -> 0 <= j ->
    s + Z.of_nat n <= 8 * Z.of_nat (length buf) ->
    get_bit (pack_bits buf s n v) j =
      if decide (s <= j < s + Z.of_nat n)
      then Z.testbit v (s + Z.of_nat n - 1 - j)
      else get_bit buf j.
Proof.
  induction n as [|n IH]; intros buf s v j Hs Hj Hlen; simpl pack_bits.
  - case_decide; [lia|done].
  - rewrite IH by (rewrite ?length_set_bit; lia).
    repeat case_decide; try lia.
    + f_equal. lia.
    + assert (j = s) by lia. subst j.
      rewrite get_set_same by lia. f_equal. lia.
    + apply get_set_other; lia.
Qed.

Lemma unpack_bits_ext n : forall buf buf' s,
    (forall j, s <= j < s + Z.of_nat n -> get_bit buf j = get_bit buf' j) ->
    unpack_bits buf s n = unpack_bits buf' s n.
Proof.
  induction n as [|n IH]; intros buf buf' s H; simpl; [done|].
  rewrite (H s) by lia. f_equal. apply IH. intros j Hj. apply H. lia.
Qed.

Lemma unpack_bits_testbit n : forall buf s v,
    (forall j, s <= j < s + Z.of_nat n ->
               get_bit buf j = Z.testbit v (s + Z.of_nat n - 1 - j)) ->
    unpack_bits buf s n = v mod 2 ^ Z.of_nat n.
Proof.
  induction n as [|n IH]; intros buf s v H.
  - simpl. by rewrite Z.mod_1_r.
  - cbn [unpack_bits]. rewrite (IH _ _ v).
    2:{ intros j Hj. rewrite H by lia. f_equal. lia. }
    rewrite H by lia.
    replace (s + Z.of_nat (S n) - 1 - s) with (Z.of_nat n) by lia.
    rewrite Nat2Z.inj_succ, Z.pow_succ_r by lia.
    rewrite Z.testbit_spec' by lia.
    set (p := 2 ^ Z.of_nat n).
    assert (0 < p) by (apply Z.pow_pos_nonneg; lia).
    rewrite (Z.mul_comm 2 p), Z.rem_mul_r by lia.
    rewrite Z.b2z_bit0 || idtac.
    lia.
Qed.

End BitLemmas.


Section BitFields.

Implicit Types (buf : bytes) (s w v : Z).

Lemma get_pack_bits_other n : forall buf s v j,
    0 <= s -> 0 <= j -> ~ (s <= j < s + Z.of_nat n) ->
    get_bit (pack_bits buf s n v) j = get_bit buf j.
Proof.
  induction n as [|n IH]; intros buf s v j Hs Hj Hout; simpl; [done|].
  rewrite IH by lia. apply get_set_other; lia.
Qed.

Lemma bit_unpack_pack_same buf s w v :
  0 <= s -> 0 <= w -> s + w <= 8 * Z.of_nat (length buf) ->
  bit_unpack (bit_pack buf s w v) s w = v mod 2 ^ w.
Proof.
  intros Hs Hw Hlen. unfold bit_unpack, bit_pack.
  rewrite <- (Z2Nat.id w) at 3 by done.
  apply unpack_bits_testbit. intros j Hj.
  rewrite get_pack_bits by lia. by rewrite decide_True.
Qed.

Lemma bit_unpack_pack_other buf s w v s' w' :
  0 <= s -> 0 <= s' -> 0 <= w -> 0 <= w' ->
  s' + w' <= s \/ s + w <= s' ->
  bit_unpack (bit_pack buf s w v) s' w' = bit_unpack buf s' w'.
Proof.
  intros Hs Hs' Hw Hw' Hdisj. unfold bit_unpack, bit_pack.
  apply unpack_bits_ext. intros j Hj.
  apply get_pack_bits_other; lia.
Qed.

Lemma bit_unpack_bound buf s w : 0 <= bit_unpack buf s w.
Proof.
  unfold bit_unpack. generalize (Z.to_nat w) as n. intros n. revert s.
  induction n as [|n IH]; intros s; simpl; [lia|].
  specialize (IH (s + 1)).
  assert (0 <= 2 ^ Z.of_nat n) by (apply Z.pow_nonneg; lia).
  destruct (get_bit buf s); simpl; lia.
Qed.

Lemma length_zeros size :
  0 <= size -> Z.of_nat (length (replicate (Z.to_nat size) 0)) = size.
Proof. intros H. rewrite length_replicate. lia. Qed.

Lemma calloc_Some size :
  0 <= size -> calloc size = Some (replicate (Z.to_nat size) 0).
Proof. intros H. unfold calloc. by destruct (Z.ltb_spec size 0); [lia|]. Qed.

Lemma calloc_None size : size < 0 -> calloc size = None.
Proof. intros H. unfold calloc. by destruct (Z.ltb_spec size 0); [|lia]. Qed.

End BitFields.

(** ** Lemmas on the field widths *)

Section FieldBits.

Import Encoder.

Lemma round_log2_spec n :
  1 <= n ->
  2 ^ (2 * round_log2 n) <= 2 * n * n < 2 ^ (2 * round_log2 n + 2).
Proof.
  intros Hn. unfold round_log2.
  assert (Hpos : 0 < 2 * n * n) by nia.
  pose proof (Z.log2_spec _ Hpos) as [Hlo Hhi].
  pose proof (Z.log2_nonneg (2 * n * n)) as Hl.
  set (l := Z.log2 (2 * n * n)) in *.
  pose proof (Z.div_mod l 2 ltac:(lia)) as Hdm.
  pose proof (Z.mod_pos_bound l 2 ltac:(lia)) as Hm.
  split.
  - eapply Z.le_trans; [|exact Hlo]. apply Z.pow_le_mono_r; lia.
  - eapply Z.lt_le_trans; [exact Hhi|]. apply Z.pow_le_mono_r; lia.
Qed.

Lemma round_log2_nonneg n : 0 <= round_log2 n.
Proof.
  unfold round_log2. apply Z.div_pos; [apply Z.log2_nonneg | lia].
Qed.

Lemma round_log2_ge_log2 n : 1 <= n -> Z.log2 n <= round_log2 n.
Proof.
  intros Hn.
  destruct (Z.le_gt_cases (Z.log2 n) (round_log2 n)) as [|Hlt]; [done|].
  exfalso.
  pose proof (round_log2_spec n Hn) as [_ Hhi].
  pose proof (round_log2_nonneg n) as H0.
  pose proof (Z.log2_spec n ltac:(lia)) as [Hlo _].
  assert (Hp : 2 ^ (round_log2 n + 1) <= 2 ^ Z.log2 n)
    by (apply Z.pow_le_mono_r; lia).
  assert (Hsq : 2 ^ (2 * round_log2 n + 2)
                = 2 ^ (round_log2 n + 1) * 2 ^ (round_log2 n + 1)).
  { rewrite <- Z.pow_add_r by lia. f_equal. lia. }
  assert (0 < 2 ^ (round_log2 n + 1)) by (apply Z.pow_pos_nonneg; lia).
  nia.
Qed.

(** On a positive value the width is that of the logarithm; on the others
    it is the least [int32_t]. *)
Lemma field_bits_eq n : 1 <= n -> field_bits n = round_log2 n + 1.
Proof.
  intros Hn. unfold field_bits. by destruct (Z.leb_spec n 0); [lia|].
Qed.


Lemma field_bits_pos n : 1 <= n -> 1 <= field_bits n.
Proof.
  intros Hn. rewrite field_bits_eq by done.
  pose proof (round_log2_nonneg n). lia.
Qed.

(** The width [round (log2 n) + 1] is never less than the number of bits
    of [n]. *)
Lemma field_bits_fits n : 1 <= n -> n < 2 ^ field_bits n.
Proof.
  intros Hn. rewrite field_bits_eq by done.
  pose proof (round_log2_ge_log2 n Hn).
  pose proof (Z.log2_spec n ltac:(lia)) as [_ Hhi].
  eapply Z.lt_le_trans; [exact Hhi|].
  apply Z.pow_le_mono_r; lia.
Qed.

Lemma field_bits_upper n m :
  0 <= m -> 1 <= n < 2 ^ m -> field_bits n <= m + 1.
Proof.
  intros Hm [Hn Hlt]. rewrite field_bits_eq by done.
  pose proof (round_log2_spec n Hn) as [Hlo _].
  pose proof (round_log2_nonneg n) as H0.
  destruct (Z.le_gt_cases (round_log2 n) m) as [|Hgt]; [lia|].
  exfalso.
  assert (Hp : 2 ^ (m + 1) <= 2 ^ round_log2 n)
    by (apply Z.pow_le_mono_r; lia).
  assert (Hsq : 2 ^ (2 * round_log2 n)
                = 2 ^ round_log2 n * 2 ^ round_log2 n).
  { rewrite <- Z.pow_add_r by lia. f_equal. lia. }
  rewrite Z.pow_add_r, Z.pow_1_r in Hp by lia.
  assert (0 < 2 ^ m) by (apply Z.pow_pos_nonneg; lia).
  nia.
Qed.

End FieldBits.

(** ** Lemmas on the encoder loops *)

Section EncoderLoops.

Import Encoder Decoder Spec.

Lemma diff_scan_bounds B : forall rest prev a b,
    B < 2 ^ 30 ->
    Forall (fun v => 0 <= v <= B) (prev :: rest) ->
    - B <= a -> b <= B ->
    let r := diff_scan prev rest (a, b) in
    (- B <= r.1 <= a) /\ (b <= r.2 <= B)
    /\ Forall (fun d => r.1 <= d <= r.2) (deltas prev rest).
Proof.
  induction rest as [|v rest IH]; intros prev a b HB Hall Ha Hb; simpl.
  - repeat split; try lia. constructor.
  - inversion Hall as [|? ? Hprev Hrest]; subst.
    inversion Hrest as [|? ? Hv _]; subst.
    assert (Hsub : sub32 v prev = v - prev).
    { apply wrap32_id. unfold int32. lia. }
    rewrite Hsub. unfold MIN, MAX.
    specialize (IH v (Z.min (v - prev) a) (Z.max (v - prev) b)
                  HB Hrest ltac:(lia) ltac:(lia)).
    simpl in IH. destruct IH as (H1 & H2 & H3).
    repeat split; try lia.
    constructor; [lia | exact H3].
Qed.

Section Offsets.

Variables lon_offset_bits lat_offset_bits bias_x bias_y : Z.
Hypothesis Hlon : 0 <= lon_offset_bits.
Hypothesis Hlat : 0 <= lat_offset_bits.

Local Abbreviation pack :=
  (pack_offsets lon_offset_bits lat_offset_bits bias_x bias_y).
Local Abbreviation unpack :=
  (unpack_offsets lon_offset_bits lat_offset_bits bias_x bias_y).

Lemma length_pack_offsets : forall rest prev buffer pos,
    length (pack prev rest buffer pos).1 = length buffer.
Proof.
  induction rest as [|v rest IH]; intros prev buffer pos; simpl; [done|].
  rewrite IH. by rewrite !length_bit_pack.
Qed.

Lemma pos_pack_offsets : forall rest prev buffer pos,
    (pack prev rest buffer pos).2
    = pos + Z.of_nat (length rest) * (lon_offset_bits + lat_offset_bits).
Proof.
  induction rest as [|v rest IH]; intros prev buffer pos.
  - simpl. lia.
  - cbn [pack_offsets length]. rewrite IH. lia.
Qed.

Lemma pack_offsets_frame : forall rest prev buffer pos s w,
    0 <= s -> 0 <= w -> 0 <= pos -> s + w <= pos ->
    bit_unpack (pack prev rest buffer pos).1 s w = bit_unpack buffer s w.
Proof.
  induction rest as [|v rest IH]; intros prev buffer pos s w Hs Hw Hp Hsw;
    simpl; [done|].
  rewrite IH by lia.
  rewrite !bit_unpack_pack_other by lia. done.
Qed.

Lemma unpack_pack_offsets : forall rest prev buffer pos,
    0 <= pos ->
    pos + Z.of_nat (length rest) * (lon_offset_bits + lat_offset_bits)
      <= 8 * Z.of_nat (length buffer) ->
    offsets_fit lon_offset_bits lat_offset_bits bias_x bias_y prev rest ->
    unpack prev (length rest) (pack prev rest buffer pos).1 pos = rest.
Proof.
  induction rest as [|v rest IH]; intros prev buffer pos Hp Hlen Hfit;
    [done|].
  cbn [length offsets_fit] in *.
  destruct Hfit as (Hx & Hxr & Hy & Hyr & Hfit).
  cbn [pack_offsets unpack_offsets].
  rewrite Hx, Hy.
  set (b1 := bit_pack buffer pos lon_offset_bits (v.1 - prev.1 + bias_x)).
  set (b2 := bit_pack b1 (pos + lon_offset_bits) lat_offset_bits
               (v.2 - prev.2 + bias_y)).
  assert (Hl1 : length b1 = length buffer) by apply length_bit_pack.
  assert (Hl2 : length b2 = length buffer)
    by (subst b2; by rewrite length_bit_pack).
  rewrite !pack_offsets_frame by lia.
  assert (Hrx : bit_unpack b2 pos lon_offset_bits
                = v.1 - prev.1 + bias_x).
  { subst b2. rewrite bit_unpack_pack_other by lia.
    subst b1. rewrite bit_unpack_pack_same by lia.
    apply Z.mod_small. lia. }
  assert (Hry : bit_unpack b2 (pos + lon_offset_bits) lat_offset_bits
                = v.2 - prev.2 + bias_y).
  { subst b2. rewrite bit_unpack_pack_same by lia.
    apply Z.mod_small. lia. }
  rewrite Hrx, Hry.
  replace (prev.1 + (v.1 - prev.1 + bias_x - bias_x),
           prev.2 + (v.2 - prev.2 + bias_y - bias_y)) with v
    by (destruct v; simpl; f_equal; lia).
  f_equal. apply IH; [lia | lia | exact Hfit].
Qed.

Lemma pack_offsets_nth : forall rest prev buffer pos (k : nat) u v,
    0 <= pos ->
    pos + Z.of_nat (length rest) * (lon_offset_bits + lat_offset_bits)
      <= 8 * Z.of_nat (length buffer) ->
    offsets_fit lon_offset_bits lat_offset_bits bias_x bias_y prev rest ->
    (prev :: rest) !! k = Some u -> rest !! k = Some v ->
    bit_unpack (pack prev rest buffer pos).1
      (pos + Z.of_nat k * (lon_offset_bits + lat_offset_bits))
      lon_offset_bits = v.1 - u.1 + bias_x
    /\ bit_unpack (pack prev rest buffer pos).1
         (pos + Z.of_nat k * (lon_offset_bits + lat_offset_bits)
          + lon_offset_bits)
         lat_offset_bits = v.2 - u.2 + bias_y.
Proof.
  induction rest as [|w rest IH];
    intros prev buffer pos k u v Hp Hlen Hfit Hu Hv; [done|].
  cbn [length offsets_fit] in *.
  destruct Hfit as (Hx & Hxr & Hy & Hyr & Hfit).
  cbn [pack_offsets]. rewrite Hx, Hy.
  set (b1 := bit_pack buffer pos lon_offset_bits (w.1 - prev.1 + bias_x)).
  set (b2 := bit_pack b1 (pos + lon_offset_bits) lat_offset_bits
               (w.2 - prev.2 + bias_y)).
  assert (Hl1 : length b1 = length buffer) by apply length_bit_pack.
  assert (Hl2 : length b2 = length buffer)
    by (subst b2; by rewrite length_bit_pack).
  destruct k as [|k].
  - cbn in Hu, Hv. injection Hu as <-. injection Hv as <-.
    replace (pos + Z.of_nat 0 * (lon_offset_bits + lat_offset_bits))
      with pos by lia.
    rewrite !pack_offsets_frame by lia.
    split.
    + subst b2. rewrite bit_unpack_pack_other by lia.
      subst b1. rewrite bit_unpack_pack_same by lia.
      apply Z.mod_small. lia.
    + subst b2. rewrite bit_unpack_pack_same by lia.
      apply Z.mod_small. lia.
  - cbn in Hu, Hv.
    replace (pos + Z.of_nat (S k) * (lon_offset_bits + lat_offset_bits))
      with (pos + lon_offset_bits + lat_offset_bits
            + Z.of_nat k * (lon_offset_bits + lat_offset_bits)) by lia.
    apply IH; try done; lia.
Qed.

End Offsets.

End EncoderLoops.

(** ** The block of one segment *)

Section Block.

Import Encoder Decoder Spec.

Ltac read_field :=
  rewrite ?pack_offsets_frame by lia;
  rewrite ?bit_unpack_pack_other by lia;
  rewrite bit_unpack_pack_same
    by (rewrite ?length_bit_pack, ?length_zeros; lia);
  rewrite Z.mod_small by lia.

Lemma length_pack_segment f v0 rest :
  0 <= f_size f ->
  Z.of_nat (length (packed f (v0 :: rest))) = f_size f.
Proof.
  intros Hsize. unfold packed, pack_segment.
  rewrite length_pack_offsets, !length_bit_pack. by apply length_zeros.
Qed.

(** The eight header fields of a block, at their offsets. *)
Lemma pack_segment_header f v0 rest :
  fields_fit f (v0 :: rest) ->
  0 <= v0.1 < 2 ^ 26 -> 0 <= v0.2 < 2 ^ 25 ->
  let block := packed f (v0 :: rest) in
  let cb := f_count_bits f in
  bit_unpack block 0 5 = cb
  /\ bit_unpack block 5 5 = f_lon_offset_bits f
  /\ bit_unpack block 10 5 = f_lat_offset_bits f
  /\ bit_unpack block 15 cb = f_count f
  /\ bit_unpack block (15 + cb) 18 = f_bias_x f + max_bias
  /\ bit_unpack block (15 + cb + 18) 18 = f_bias_y f + max_bias
  /\ bit_unpack block (15 + cb + 18 + 18) 26 = v0.1
  /\ bit_unpack block (15 + cb + 18 + 18 + 26) 25 = v0.2.
Proof.
  intros [Hc Hcb Hlon Hlat Hcf Hbx Hby Hsz] Hx0 Hy0.
  cbn [length] in Hc. unfold total_bits in Hsz.
  assert (Hcount : 1 <= f_count f) by lia.
  assert (Hsize : 0 <= f_size f) by nia.
  intros block cb. subst block cb. unfold packed, pack_segment. cbn zeta.
  set (cb := f_count_bits f) in *.
  set (lo := f_lon_offset_bits f) in *. set (la := f_lat_offset_bits f) in *.
  replace (0 + 5) with 5 by lia. replace (5 + 5) with 10 by lia.
  replace (10 + 5) with 15 by lia.
  repeat split; read_field; done.
Qed.

(** The offsets of the vertices after the first, at their offsets. *)
Lemma pack_segment_offsets f v0 rest :
  fields_fit f (v0 :: rest) ->
  offsets_fit (f_lon_offset_bits f) (f_lat_offset_bits f)
    (f_bias_x f) (f_bias_y f) v0 rest ->
  let block := packed f (v0 :: rest) in
  let lo := f_lon_offset_bits f in
  let la := f_lat_offset_bits f in
  let base := 15 + f_count_bits f + 18 + 18 + 26 + 25 in
  forall (k : nat) (u v : vertex),
    (v0 :: rest) !! k = Some u -> rest !! k = Some v ->
    bit_unpack block (base + Z.of_nat k * (lo + la)) lo
      = v.1 - u.1 + f_bias_x f
    /\ bit_unpack block (base + Z.of_nat k * (lo + la) + lo) la
      = v.2 - u.2 + f_bias_y f.
Proof.
  intros [Hc Hcb Hlon Hlat Hcf Hbx Hby Hsz] Hfit.
  cbn [length] in Hc. unfold total_bits in Hsz.
  assert (Hsize : 0 <= f_size f) by nia.
  intros block lo la base k u v Hu Hv. subst block.
  unfold packed, pack_segment. cbn zeta.
  replace (0 + 5 + 5 + 5 + f_count_bits f + 18 + 18 + 26 + 25)
    with base by (subst base; lia).
  apply (pack_offsets_nth lo la (f_bias_x f) (f_bias_y f)
           ltac:(subst lo; lia) ltac:(subst la; lia)); try done.
  - subst base. lia.
  - rewrite !length_bit_pack, length_zeros by done.
    subst base lo la. nia.
Qed.

Lemma decode_pack_segment f v0 rest :
  fields_fit f (v0 :: rest) ->
  0 <= v0.1 < 2 ^ 26 -> 0 <= v0.2 < 2 ^ 25 ->
  offsets_fit (f_lon_offset_bits f) (f_lat_offset_bits f)
    (f_bias_x f) (f_bias_y f) v0 rest ->
  decode_segment (packed f (v0 :: rest)) = v0 :: rest.
Proof.
  intros Hff Hx0 Hy0 Hfit.
  pose proof (pack_segment_header f v0 rest Hff Hx0 Hy0) as Hh.
  cbv zeta in Hh.
  destruct Hh as (H1 & H2 & H3 & H4 & H5 & H6 & H7 & H8).
  destruct Hff as [Hc Hcb Hlon Hlat Hcf Hbx Hby Hsz].
  cbn [length] in Hc. unfold total_bits in Hsz.
  assert (Hsize : 0 <= f_size f) by nia.
  unfold decode_segment. cbv zeta.
  replace (0 + 5) with 5 by lia. replace (5 + 5) with 10 by lia.
  replace (10 + 5) with 15 by lia.
  rewrite H1, H2, H3, H4, H5, H6, H7, H8.
  replace (f_bias_x f + max_bias - max_bias) with (f_bias_x f) by lia.
  replace (f_bias_y f + max_bias - max_bias) with (f_bias_y f) by lia.
  replace (v0.1, v0.2) with v0 by (by destruct v0).
  f_equal.
  replace (Z.to_nat (f_count f) - 1)%nat with (length rest) by lia.
  unfold packed, pack_segment. cbv zeta.
  replace (0 + 5 + 5 + 5 + f_count_bits f + 18 + 18 + 26 + 25)
    with (15 + f_count_bits f + 18 + 18 + 26 + 25) by lia.
  apply unpack_pack_offsets; try lia; try exact Hfit.
  rewrite !length_bit_pack, length_zeros by done. nia.
Qed.

End Block.

(** ** The fields of a segment within the declared ranges *)

Section FieldsInRange.

Import Encoder Decoder Spec.

Lemma diff_range_bounds B v0 v1 rest :
  B < 2 ^ 30 ->
  Forall (fun v => 0 <= v <= B) (v0 :: v1 :: rest) ->
  let r := diff_range (v0 :: v1 :: rest) in
  (- B <= r.1) /\ (r.1 <= r.2) /\ (r.2 <= B)
  /\ Forall (fun d => r.1 <= d <= r.2) (deltas v0 (v1 :: rest)).
Proof.
  intros HB Hall. cbn [diff_range].
  pose proof (Forall_inv Hall) as H0. simpl in H0.
  assert (HB' : B < 2 ^ 30) by exact HB.
  assert (Ha : - B <= 99999999) by lia.
  assert (Hb : -99999999 <= B) by lia.
  pose proof (diff_scan_bounds B (v1 :: rest) v0 99999999 (-99999999)
                HB' Hall Ha Hb) as H.
  cbv zeta in *. destruct H as (H1 & H2 & H3).
  pose proof (Forall_inv H3) as Hd. cbv beta in Hd.
  split; [lia|]. split; [lia|]. split; [lia|]. exact H3.
Qed.

Lemma offsets_fit_intro lon_offset_bits lat_offset_bits mnx mxx mny mxy :
  - max_bias <= - mnx <= max_bias -> - max_bias <= - mny <= max_bias ->
  mxx - mnx < 2 ^ lon_offset_bits -> mxy - mny < 2 ^ lat_offset_bits ->
  forall rest prev,
    Forall vertex_in_range (prev :: rest) ->
    Forall (fun d => mnx <= d <= mxx) (deltas prev.1 rest.*1) ->
    Forall (fun d => mny <= d <= mxy) (deltas prev.2 rest.*2) ->
    offsets_fit lon_offset_bits lat_offset_bits (- mnx) (- mny) prev rest.
Proof.
  unfold max_bias. intros Hbx Hby Hrx Hry.
  induction rest as [|v rest IH]; intros prev Hall Hdx Hdy; [done|].
  cbn [offsets_fit]. cbn [fmap list_fmap deltas] in Hdx, Hdy.
  inversion Hall as [|? ? [Hp1 Hp2] Hrest]; subst.
  pose proof (Forall_inv Hrest) as [Hv1 Hv2].
  inversion Hdx as [|? ? Hd1 Hdx']; subst.
  inversion Hdy as [|? ? Hd2 Hdy']; subst.
  unfold add32, sub32.
  rewrite !(wrap32_id (_ - _)) by (unfold int32; lia).
  rewrite !wrap32_id by (unfold int32; lia).
  repeat split; try lia.
  by apply IH.
Qed.

Lemma Forall_fst_in_range (seg : segment) :
  Forall vertex_in_range seg -> Forall (fun v => 0 <= v <= 35999999) seg.*1.
Proof.
  intros H. apply Forall_fmap. eapply Forall_impl; [exact H|].
  intros v [Hx _]. exact Hx.
Qed.

Lemma Forall_snd_in_range (seg : segment) :
  Forall vertex_in_range seg -> Forall (fun v => 0 <= v <= 17999999) seg.*2.
Proof.
  intros H. apply Forall_fmap. eapply Forall_impl; [exact H|].
  intros v [_ Hy]. exact Hy.
Qed.

End FieldsInRange.

Section SegmentFields.

Import Encoder Decoder Spec.

Lemma floor1_range (r : Z) :
  0 <= r -> 1 <= (if r =? 0 then 1 else r) /\ r <= (if r =? 0 then 1 else r).
Proof. intros H. destruct (Z.eqb_spec r 0); lia. Qed.

Lemma bias_check_false (b : Z) :
  (b >? max_bias) || (b <? - max_bias) = false ->
  - max_bias <= b <= max_bias.
Proof.
  intros H. apply orb_false_elim in H as [H1 H2].
  rewrite Z.gtb_ltb in H1.
  apply Z.ltb_ge in H1. apply Z.ltb_ge in H2. lia.
Qed.

Lemma bias_check_true (b : Z) :
  (b >? max_bias) || (b <? - max_bias) = true ->
  b > max_bias \/ b < - max_bias.
Proof.
  intros H. apply orb_true_elim in H as [H|H].
  - left. rewrite Z.gtb_ltb in H. apply Z.ltb_lt in H. lia.
  - right. by apply Z.ltb_lt in H.
Qed.

(** The fields computed for a segment of at least two vertices within the
    declared ranges, spelled out without the 32-bit wrap-around. *)
Lemma segment_fields_inr i j v0 v1 rest f :
  let seg := v0 :: v1 :: rest in
  Forall vertex_in_range seg ->
  segment_fields i j seg = inr f ->
  let dx := diff_range seg.*1 in
  let dy := diff_range seg.*2 in
  let range_x := if dx.2 - dx.1 =? 0 then 1 else dx.2 - dx.1 in
  let range_y := if dy.2 - dy.1 =? 0 then 1 else dy.2 - dy.1 in
  let count := Z.of_nat (length seg) in
  (- max_bias <= - dx.1 <= max_bias) /\ (- max_bias <= - dy.1 <= max_bias)
  /\ (1 <= range_x <= 36131070) /\ (1 <= range_y <= 18131070)
  /\ f = Fields count (- dx.1) (- dy.1) range_x range_y
           (field_bits count) (field_bits range_x) (field_bits range_y)
           (Z.quot (wrap32 (total_bits (field_bits count)
                        (field_bits range_x) (field_bits range_y) count)) 8
            + 1).
Proof.
  intros seg Hall Hf dx dy range_x range_y count.
  pose proof (diff_range_bounds 35999999 v0.1 v1.1 rest.*1 ltac:(lia)
                (Forall_fst_in_range seg Hall)) as (Hx1 & Hx2 & Hx3 & _).
  pose proof (diff_range_bounds 17999999 v0.2 v1.2 rest.*2 ltac:(lia)
                (Forall_snd_in_range seg Hall)) as (Hy1 & Hy2 & Hy3 & _).
  change (diff_range (v0.1 :: v1.1 :: rest.*1)) with dx in *.
  change (diff_range (v0.2 :: v1.2 :: rest.*2)) with dy in *.
  unfold segment_fields in Hf.
  change (diff_range seg.*1) with dx in Hf.
  change (diff_range seg.*2) with dy in Hf.
  unfold neg32, sub32 in Hf.
  rewrite !(wrap32_id (- _)) in Hf by (unfold int32; lia).
  rewrite !(wrap32_id (_ - _)) in Hf by (unfold int32; lia).
  destruct ((- dx.1 >? max_bias) || (- dx.1 <? - max_bias)) eqn:Hbx;
    [discriminate|].
  destruct ((- dy.1 >? max_bias) || (- dy.1 <? - max_bias)) eqn:Hby;
    [discriminate|].
  apply bias_check_false in Hbx, Hby.
  pose proof (floor1_range (dx.2 - dx.1) ltac:(lia)) as [Hrx1 Hrx2].
  pose proof (floor1_range (dy.2 - dy.1) ltac:(lia)) as [Hry1 Hry2].
  fold range_x in Hrx1, Hrx2. fold range_y in Hry1, Hry2.
  assert (range_x <= 36131070).
  { subst range_x. unfold max_bias in *.
    destruct (Z.eqb_spec (dx.2 - dx.1) 0); lia. }
  assert (range_y <= 18131070).
  { subst range_y. unfold max_bias in *.
    destruct (Z.eqb_spec (dy.2 - dy.1) 0); lia. }
  repeat split; try lia.
  by injection Hf as <-.
Qed.

(** The three ways in which the encoder ends on a segment. *)
Lemma encode_segment_inl i j (seg : segment) e :
  segment_fields i j seg = inl e -> encode_segment i j seg = inl e.
Proof. intros H. unfold encode_segment. by rewrite H. Qed.

Lemma encode_segment_alloc i j (seg : segment) f :
  segment_fields i j seg = inr f -> f_size f < 0 ->
  encode_segment i j seg = inl AllocatingBuffer.
Proof.
  intros H Hs. unfold encode_segment. by rewrite H, calloc_None.
Qed.

Lemma encode_segment_packed i j (seg : segment) f :
  segment_fields i j seg = inr f -> 0 <= f_size f ->
  encode_segment i j seg = inr (packed f seg).
Proof.
  intros H Hs. unfold encode_segment. by rewrite H, calloc_Some.
Qed.

Lemma encode_segment_inr i j (seg : segment) block :
  encode_segment i j seg = inr block ->
  exists f,
    segment_fields i j seg = inr f /\ 0 <= f_size f /\ block = packed f seg.
Proof.
  unfold encode_segment. intros H.
  destruct (segment_fields i j seg) as [e|f]; [discriminate|].
  exists f. split; [done|].
  destruct (Z.lt_ge_cases (f_size f) 0) as [Hneg|Hpos].
  - rewrite calloc_None in H by done. discriminate.
  - rewrite calloc_Some in H by done. split; [done|].
    by injection H as <-.
Qed.

End SegmentFields.

(** ** Round trip of a block *)

Section RoundTrip.

Import Encoder Decoder Spec.

Lemma total_bits_bound cb lo la count :
  1 <= cb <= 32 -> 1 <= lo <= 30 -> 1 <= la <= 30 ->
  1 <= count < 2 ^ 25 ->
  0 <= total_bits cb lo la count < 2 ^ 31.
Proof.
  intros Hcb Hlo Hla Hc. unfold total_bits.
  assert (0 <= (count - 1) * (lo + la) <= 33554431 * 60) by nia.
  lia.
Qed.

Lemma size_holds_bits t : 0 <= t -> t <= 8 * (Z.quot t 8 + 1).
Proof.
  intros Ht. rewrite Z.quot_div_nonneg by lia.
  pose proof (Z.div_mod t 8 ltac:(lia)).
  pose proof (Z.mod_pos_bound t 8 ltac:(lia)). lia.
Qed.

Lemma segment_fields_fit i j v0 v1 rest f :
  Forall vertex_in_range (v0 :: v1 :: rest) ->
  Z.of_nat (length (v0 :: v1 :: rest)) < 2 ^ 25 ->
  segment_fields i j (v0 :: v1 :: rest) = inr f ->
  fields_fit f (v0 :: v1 :: rest)
  /\ offsets_fit (f_lon_offset_bits f) (f_lat_offset_bits f)
       (f_bias_x f) (f_bias_y f) v0 (v1 :: rest).
Proof.
  intros Hall Hlen Hf.
  pose proof (segment_fields_inr i j v0 v1 rest f Hall Hf)
    as (Hbx & Hby & Hrx & Hry & ->).
  cbv zeta in *. set (seg := v0 :: v1 :: rest) in *.
  set (dx := diff_range seg.*1) in *. set (dy := diff_range seg.*2) in *.
  set (range_x := if dx.2 - dx.1 =? 0 then 1 else dx.2 - dx.1) in *.
  set (range_y := if dy.2 - dy.1 =? 0 then 1 else dy.2 - dy.1) in *.
  set (count := Z.of_nat (length seg)) in *.
  assert (Hcount : 2 <= count) by (subst count seg; cbn [length]; lia).
  pose proof (field_bits_pos count ltac:(lia)) as Hcb1.
  pose proof (field_bits_pos range_x ltac:(lia)) as Hlo1.
  pose proof (field_bits_pos range_y ltac:(lia)) as Hla1.
  pose proof (field_bits_upper count 25 ltac:(lia) ltac:(lia)) as Hcb2.
  pose proof (field_bits_upper range_x 26 ltac:(lia) ltac:(lia)) as Hlo2.
  pose proof (field_bits_upper range_y 25 ltac:(lia) ltac:(lia)) as Hla2.
  pose proof (total_bits_bound (field_bits count) (field_bits range_x)
                (field_bits range_y) count ltac:(lia) ltac:(lia)
                ltac:(lia) ltac:(lia)) as Htb.
  split.
  - constructor; cbn [f_count f_bias_x f_bias_y f_count_bits
                        f_lon_offset_bits f_lat_offset_bits f_size];
      unfold max_bias in *; try lia.
    + apply field_bits_fits. lia.
    + rewrite wrap32_id by (unfold int32; lia).
      apply size_holds_bits. lia.
  - cbn [f_bias_x f_bias_y f_lon_offset_bits f_lat_offset_bits].
    pose proof (diff_range_bounds 35999999 v0.1 v1.1 rest.*1 ltac:(lia)
                  (Forall_fst_in_range seg Hall)) as (_ & _ & _ & Hdx).
    pose proof (diff_range_bounds 17999999 v0.2 v1.2 rest.*2 ltac:(lia)
                  (Forall_snd_in_range seg Hall)) as (_ & _ & _ & Hdy).
    pose proof (field_bits_fits range_x ltac:(lia)).
    pose proof (field_bits_fits range_y ltac:(lia)).
    apply (offsets_fit_intro _ _ dx.1 dx.2 dy.1 dy.2); try done.
    + subst range_x. destruct (Z.eqb_spec (dx.2 - dx.1) 0); lia.
    + subst range_y. destruct (Z.eqb_spec (dy.2 - dy.1) 0); lia.
Qed.

Lemma segment_fields_short i j (seg : segment) :
  (length seg < 2)%nat ->
  segment_fields i j seg = inl (LonBiasOutOfRange i j (-99999999)).
Proof.
  intros Hlen.
  destruct seg as [|v0 [|v1 rest]]; [done|done|].
  cbn [length] in Hlen. lia.
Qed.

(** C1.  Round trip: a segment of at least two vertices within the declared
    ranges which the encoder packs is read back exactly by decoding its
    block with the same field order and widths.  The count fits its
    [count_bits], the biased biases lie in [[0, 262142]], and every biased
    difference lies between 0 and the range of its axis. *)
Theorem round_trip i j (seg : segment) (block : bytes) :
  (2 <= length seg)%nat ->
  Z.of_nat (length seg) < 2 ^ 25 ->
  Forall vertex_in_range seg ->
  encode_segment i j seg = inr block ->
  decode_segment block = seg
  /\ exists f,
      segment_fields i j seg = inr f
      /\ f_count f < 2 ^ f_count_bits f
      /\ 0 <= f_bias_x f + max_bias <= 262142
      /\ 0 <= f_bias_y f + max_bias <= 262142
      /\ Forall (fun d => 0 <= d + f_bias_x f <= f_range_x f)
           (deltas (hd 0 seg.*1) (tl seg.*1))
      /\ Forall (fun d => 0 <= d + f_bias_y f <= f_range_y f)
           (deltas (hd 0 seg.*2) (tl seg.*2)).
Proof.
  intros Hlen2 Hlen Hall Henc.
  destruct seg as [|v0 [|v1 rest]]; cbn [length] in Hlen2; try lia.
  apply encode_segment_inr in Henc as (f & Hf & _ & ->).
  pose proof (segment_fields_fit i j v0 v1 rest f Hall Hlen Hf)
    as [Hfit Hoff].
  pose proof (Forall_inv Hall) as [Hx0 Hy0].
  split.
  - apply (decode_pack_segment f v0 (v1 :: rest) Hfit);
      [lia | lia | exact Hoff].
  - exists f. split; [done|].
    pose proof (segment_fields_inr i j v0 v1 rest f Hall Hf)
      as (Hbx & Hby & Hrx & Hry & Heq).
    cbv zeta in *.
    pose proof (diff_range_bounds 35999999 v0.1 v1.1 rest.*1 ltac:(lia)
                  (Forall_fst_in_range _ Hall)) as (_ & _ & _ & Hdx).
    pose proof (diff_range_bounds 17999999 v0.2 v1.2 rest.*2 ltac:(lia)
                  (Forall_snd_in_range _ Hall)) as (_ & _ & _ & Hdy).
    destruct Hfit as [_ _ _ _ Hcf _ _ _].
    split; [exact Hcf|].
    subst f. cbn [f_bias_x f_bias_y f_range_x f_range_y].
    unfold max_bias in *.
    split; [lia|]. split; [lia|].
    cbn [fmap list_fmap hd tl].
    split.
    + eapply Forall_impl; [exact Hdx|]. cbv beta. intros d Hd.
      match goal with
      | |- context [if ?a =? 0 then _ else _] =>
          destruct (Z.eqb_spec a 0); lia
      end.
    + eapply Forall_impl; [exact Hdy|]. cbv beta. intros d Hd.
      match goal with
      | |- context [if ?a =? 0 then _ else _] =>
          destruct (Z.eqb_spec a 0); lia
      end.
Qed.

End RoundTrip.

(** ** The widths as the source computes them *)

Section RealWidths.

Import Encoder RealModel.

Lemma ln_pow2 (m : Z) : 0 <= m -> ln (IZR (2 ^ m)) = (IZR m * ln 2)%R.
Proof.
  intros Hm. rewrite <- (Z2Nat.id m) by lia.
  rewrite <- pow_IZR, <- INR_IZR_INZ.
  induction (Z.to_nat m) as [|k IH].
  - simpl. rewrite ln_1. lra.
  - rewrite S_INR. simpl pow. rewrite ln_mult.
    + rewrite IH. lra.
    + lra.
    + apply pow_lt. lra.
Qed.

Lemma ln2_pos : (0 < ln 2)%R.
Proof. rewrite <- ln_1. apply ln_increasing; lra. Qed.

Lemma ln10_pos : (0 < ln 10)%R.
Proof. rewrite <- ln_1. apply ln_increasing; lra. Qed.

(** [round_log2 n] is within one half of the base-2 logarithm of [n]. *)
Lemma log2_real_bounds n :
  1 <= n ->
  (IZR (round_log2 n) - / 2 <= ln (IZR n) / ln 2
   < IZR (round_log2 n) + / 2)%R.
Proof.
  intros Hn. pose proof (round_log2_spec n Hn) as [Hlo Hhi].
  pose proof (round_log2_nonneg n) as Hk.
  set (k := round_log2 n) in *.
  pose proof ln2_pos as Hln2.
  assert (Hn0 : (0 < IZR n)%R) by (apply IZR_lt; lia).
  assert (Hprod : ln (IZR (2 * n * n)) = (ln 2 + 2 * ln (IZR n))%R).
  { rewrite !mult_IZR, !ln_mult by (try apply Rmult_lt_0_compat; lra). lra. }
  assert (H1 : (IZR (2 * k) * ln 2 <= ln 2 + 2 * ln (IZR n))%R).
  { rewrite <- ln_pow2, <- Hprod by lia.
    apply IZR_le in Hlo.
    destruct Hlo as [Hlt|Heq].
    - left. apply ln_increasing; [|exact Hlt].
      apply IZR_lt. apply Z.pow_pos_nonneg; lia.
    - right. rewrite Heq. reflexivity. }
  assert (H2 : (ln 2 + 2 * ln (IZR n) < IZR (2 * k + 2) * ln 2)%R).
  { rewrite <- ln_pow2, <- Hprod by lia.
    apply ln_increasing; [apply IZR_lt; nia | apply IZR_lt; exact Hhi]. }
  rewrite mult_IZR in H1. rewrite plus_IZR, mult_IZR in H2.
  split.
  - apply (Rmult_le_reg_r (ln 2)); [exact Hln2|].
    unfold Rdiv. rewrite Rmult_assoc, Rinv_l by lra. lra.
  - apply (Rmult_lt_reg_r (ln 2)); [exact Hln2|].
    unfold Rdiv. rewrite Rmult_assoc, Rinv_l by lra. lra.
Qed.

(** The width computed on the integers is the one of the source's
    expression on the real numbers. *)
Lemma field_bits_real n : 1 <= n -> field_bits_R n = field_bits n.
Proof.
  intros Hn. pose proof (log2_real_bounds n Hn) as [Hlo Hhi].
  pose proof (round_log2_nonneg n) as Hk. apply IZR_le in Hk.
  pose proof ln2_pos. pose proof ln10_pos.
  rewrite field_bits_eq by done. unfold field_bits_R, log10.
  replace (ln (IZR n) / ln 10 / (ln 2 / ln 10))%R with (ln (IZR n) / ln 2)%R
    by (field; lra).
  unfold NINT_R.
  destruct (Rlt_dec (ln (IZR n) / ln 2 + 1) 0) as [Hneg|_]; [lra|].
  symmetry. apply Int_part_spec. rewrite plus_IZR. lra.
Qed.

End RealWidths.

(** ** Bit widths *)

Section BitWidths.

Import Encoder Decoder Spec RealModel.

Lemma nearest_log2_field_bits n : 1 <= n -> nearest_log2 n (field_bits n - 1).
Proof.
  intros Hn. unfold nearest_log2. rewrite field_bits_eq by done.
  replace (round_log2 n + 1 - 1) with (round_log2 n) by lia.
  split; [apply round_log2_nonneg | by apply round_log2_spec].
Qed.

Lemma nearest_log2_unique n k k' :
  nearest_log2 n k -> nearest_log2 n k' -> k = k'.
Proof.
  intros [Hk [Hlo Hhi]] [Hk' [Hlo' Hhi']].
  destruct (Z.lt_trichotomy k k') as [Hlt|[->|Hlt]]; [exfalso|done|exfalso].
  - assert (2 ^ (2 * k + 2) <= 2 ^ (2 * k')) by (apply Z.pow_le_mono_r; lia).
    lia.
  - assert (2 ^ (2 * k' + 2) <= 2 ^ (2 * k)) by (apply Z.pow_le_mono_r; lia).
    lia.
Qed.

Lemma diff_scan_mem : forall rest prev a b,
    Forall (fun v => 0 <= v <= 35999999) (prev :: rest) ->
    let r := diff_scan prev rest (a, b) in
    (r.1 = a \/ r.1 ∈ deltas prev rest)
    /\ (r.2 = b \/ r.2 ∈ deltas prev rest).
Proof.
  induction rest as [|v rest IH]; intros prev a b Hall; cbn [diff_scan deltas].
  - cbv zeta. cbn [fst snd]. by split; left.
  - inversion Hall as [|? ? Hprev Hrest]; subst.
    pose proof (Forall_inv Hrest) as Hv. cbv beta in Hv.
    assert (Hsub : sub32 v prev = v - prev)
      by (apply wrap32_id; unfold int32; lia).
    rewrite Hsub. unfold MIN, MAX. cbn [fst snd].
    specialize (IH v (Z.min (v - prev) a) (Z.max (v - prev) b) Hrest).
    cbv zeta in IH. destruct IH as [H1 H2].
    split.
    + destruct H1 as [H1|H1]; [|right; apply elem_of_cons; by right].
      rewrite H1.
      destruct (Z.min_spec (v - prev) a) as [[_ ->]|[_ ->]];
        [right; apply elem_of_cons; by left | by left].
    + destruct H2 as [H2|H2]; [|right; apply elem_of_cons; by right].
      rewrite H2.
      destruct (Z.max_spec (v - prev) b) as [[_ ->]|[_ ->]];
        [by left | right; apply elem_of_cons; by left].
Qed.

Lemma diff_range_extrema v0 v1 rest :
  Forall (fun v => 0 <= v <= 35999999) (v0 :: v1 :: rest) ->
  let r := diff_range (v0 :: v1 :: rest) in
  is_min r.1 (deltas v0 (v1 :: rest)) /\ is_max r.2 (deltas v0 (v1 :: rest)).
Proof.
  intros Hall.
  pose proof (diff_range_bounds 35999999 v0 v1 rest ltac:(lia) Hall)
    as (H1 & H2 & H3 & H4).
  pose proof (diff_scan_mem (v1 :: rest) v0 99999999 (-99999999) Hall)
    as [Hm1 Hm2].
  cbv zeta in *. cbn [diff_range] in *.
  set (r := diff_scan v0 (v1 :: rest) (99999999, -99999999)) in *.
  pose proof (Forall_inv Hall) as Hv0.
  pose proof (Forall_inv (Forall_inv_tail Hall)) as Hv1.
  pose proof (Forall_inv H4) as Hd. cbv beta in Hv0, Hv1, Hd.
  split; split.
  - destruct Hm1 as [Hm1|Hm1]; [lia | exact Hm1].
  - eapply Forall_impl; [exact H4|]. cbv beta. lia.
  - destruct Hm2 as [Hm2|Hm2]; [lia | exact Hm2].
  - eapply Forall_impl; [exact H4|]. cbv beta. lia.
Qed.

(** C3.  Bit-width formula: for a segment within the declared ranges which
    the encoder accepts, the ranges are the largest minus the smallest
    difference of each axis, stored as 1 when 0, and each of the three
    widths is the integer nearest to the base-2 logarithm of its value,
    plus one; it is the value of the source's expression on the real
    numbers. *)
Theorem bit_width_formula i j (seg : segment) (f : fields) :
  Forall vertex_in_range seg ->
  segment_fields i j seg = inr f ->
  exists minDx maxDx minDy maxDy,
    is_min minDx (deltas (hd 0 seg.*1) (tl seg.*1))
    /\ is_max maxDx (deltas (hd 0 seg.*1) (tl seg.*1))
    /\ is_min minDy (deltas (hd 0 seg.*2) (tl seg.*2))
    /\ is_max maxDy (deltas (hd 0 seg.*2) (tl seg.*2))
    /\ f_range_x f = floor1 (maxDx - minDx)
    /\ f_range_y f = floor1 (maxDy - minDy)
    /\ f_count f = Z.of_nat (length seg)
    /\ nearest_log2 (f_count f) (f_count_bits f - 1)
    /\ nearest_log2 (f_range_x f) (f_lon_offset_bits f - 1)
    /\ nearest_log2 (f_range_y f) (f_lat_offset_bits f - 1)
    /\ f_count_bits f = field_bits_R (f_count f)
    /\ f_lon_offset_bits f = field_bits_R (f_range_x f)
    /\ f_lat_offset_bits f = field_bits_R (f_range_y f).
Proof.
  intros Hall Hf.
  destruct seg as [|v0 [|v1 rest]];
    [rewrite segment_fields_short in Hf by (simpl; lia); discriminate ..|].
  pose proof (segment_fields_inr i j v0 v1 rest f Hall Hf)
    as (Hbx & Hby & Hrx & Hry & ->).
  pose proof (diff_range_extrema v0.1 v1.1 rest.*1
                (Forall_fst_in_range _ Hall)) as [Hminx Hmaxx].
  pose proof (diff_range_extrema v0.2 v1.2 rest.*2) as Hy.
  destruct Hy as [Hminy Hmaxy].
  { eapply Forall_impl; [exact (Forall_snd_in_range _ Hall)|].
    cbv beta. lia. }
  cbv zeta in *.
  cbn [f_count f_range_x f_range_y f_count_bits f_lon_offset_bits
         f_lat_offset_bits].
  eexists _, _, _, _.
  split; [exact Hminx|]. split; [exact Hmaxx|].
  split; [exact Hminy|]. split; [exact Hmaxy|].
  split; [reflexivity|]. split; [reflexivity|]. split; [reflexivity|].
  split; [apply nearest_log2_field_bits; cbn [length]; lia|].
  split; [apply nearest_log2_field_bits; lia|].
  split; [apply nearest_log2_field_bits; lia|].
  rewrite !field_bits_real by (cbn [length]; lia). done.
Qed.

End BitWidths.

(** ** Layout of a block *)

Section Layout.

Import Encoder Decoder Spec.

(** C2.  Encoded block layout: the block of a segment holds, most
    significant bit first and in this order, count_bits (5),
    lon_offset_bits (5), lat_offset_bits (5), the count (count_bits), the
    biases plus 131071 (18 each), the first vertex (26 and 25), then for
    each later vertex its biased differences from the vertex before it
    (lon_offset_bits and lat_offset_bits); its length in bytes is the
    number of these bits divided by 8, plus one. *)
Theorem block_layout i j (seg : segment) (block : bytes) :
  Forall vertex_in_range seg ->
  Z.of_nat (length seg) < 2 ^ 25 ->
  encode_segment i j seg = inr block ->
  exists f v0,
    segment_fields i j seg = inr f /\ seg !! 0%nat = Some v0 /\
    let cb := f_count_bits f in
    let lo := f_lon_offset_bits f in
    let la := f_lat_offset_bits f in
    bit_unpack block 0 5 = cb
    /\ bit_unpack block 5 5 = lo
    /\ bit_unpack block 10 5 = la
    /\ bit_unpack block 15 cb = Z.of_nat (length seg)
    /\ bit_unpack block (15 + cb) 18 = f_bias_x f + 131071
    /\ bit_unpack block (15 + cb + 18) 18 = f_bias_y f + 131071
    /\ bit_unpack block (15 + cb + 18 + 18) 26 = v0.1
    /\ bit_unpack block (15 + cb + 18 + 18 + 26) 25 = v0.2
    /\ (forall (k : nat) (u v : vertex),
          seg !! k = Some u -> seg !! S k = Some v ->
          bit_unpack block
            (15 + cb + 18 + 18 + 26 + 25 + Z.of_nat k * (lo + la)) lo
            = v.1 - u.1 + f_bias_x f
          /\ bit_unpack block
               (15 + cb + 18 + 18 + 26 + 25 + Z.of_nat k * (lo + la) + lo)
               la
            = v.2 - u.2 + f_bias_y f)
    /\ Z.of_nat (length block)
       = total_bits cb lo la (Z.of_nat (length seg)) / 8 + 1.
Proof.
  intros Hall Hlen Henc.
  apply encode_segment_inr in Henc as (f & Hf & _ & ->).
  destruct seg as [|v0 [|v1 rest]];
    [rewrite segment_fields_short in Hf by (simpl; lia); discriminate ..|].
  pose proof (segment_fields_fit i j v0 v1 rest f Hall Hlen Hf)
    as [Hfit Hoff].
  pose proof (Forall_inv Hall) as [Hx0 Hy0].
  exists f, v0. split; [done|]. split; [done|].
  pose proof (pack_segment_header f v0 (v1 :: rest) Hfit
                ltac:(lia) ltac:(lia)) as Hh.
  pose proof (pack_segment_offsets f v0 (v1 :: rest) Hfit Hoff) as Ho.
  cbv zeta in *.
  destruct Hh as (H1 & H2 & H3 & H4 & H5 & H6 & H7 & H8).
  change 131071 with max_bias.
  pose proof Hfit as [Hc _ _ _ _ _ _ Hsz].
  split; [exact H1|]. split; [exact H2|]. split; [exact H3|].
  split; [by rewrite H4|]. split; [exact H5|]. split; [exact H6|].
  split; [exact H7|]. split; [exact H8|].
  split.
  - intros k u v Hu Hv. by apply Ho.
  - pose proof (segment_fields_inr i j v0 v1 rest f Hall Hf)
      as (_ & _ & Hrx & Hry & Heq).
    cbv zeta in Heq.
    assert (Hsize : f_size f
              = total_bits (f_count_bits f) (f_lon_offset_bits f)
                  (f_lat_offset_bits f) (f_count f) / 8 + 1).
    { rewrite Heq at 1. cbn [f_size].
      rewrite Heq. cbn [f_count f_count_bits f_lon_offset_bits
                          f_lat_offset_bits].
      set (count := Z.of_nat (length (v0 :: v1 :: rest))) in *.
      match goal with
      | |- wrap32 ?t `quot` 8 + 1 = _ =>
          assert (Ht : 0 <= t < 2 ^ 31)
      end.
      { apply total_bits_bound.
        - pose proof (field_bits_pos count
                        ltac:(subst count; cbn [length] in *; lia)).
          pose proof (field_bits_upper count 25 ltac:(lia)
                        ltac:(subst count; cbn [length] in *; lia)). lia.
        - match goal with
          | |- _ <= field_bits ?r <= _ =>
              pose proof (field_bits_pos r ltac:(lia));
              pose proof (field_bits_upper r 26 ltac:(lia) ltac:(lia)); lia
          end.
        - match goal with
          | |- _ <= field_bits ?r <= _ =>
              pose proof (field_bits_pos r ltac:(lia));
              pose proof (field_bits_upper r 25 ltac:(lia) ltac:(lia)); lia
          end.
        - subst count. cbn [length] in *. lia. }
      rewrite wrap32_id by (unfold int32; lia).
      by rewrite Z.quot_div_nonneg by lia. }
    rewrite length_pack_segment; [by rewrite Hsize, Hc|].
    rewrite Hsize.
    assert (0 <= total_bits (f_count_bits f) (f_lon_offset_bits f)
                   (f_lat_offset_bits f) (f_count f)).
    { unfold total_bits. destruct Hfit. cbn [length] in *. nia. }
    pose proof (Z.div_pos (total_bits (f_count_bits f) (f_lon_offset_bits f)
                   (f_lat_offset_bits f) (f_count f)) 8 ltac:(lia)
                  ltac:(lia)).
    lia.
Qed.

End Layout.

(** ** The three theorems on a segment of three vertices *)

Section Examples.

Import Encoder Decoder Spec.

Lemma seg3_in_range : Forall vertex_in_range seg3.
Proof. repeat constructor; simpl; lia. Qed.

Lemma round_trip_witness : decode_segment block3 = seg3.
Proof.
  refine (proj1 (round_trip 3 4 seg3 block3 _ _ seg3_in_range _)).
  - simpl. lia.
  - simpl. lia.
  - vm_compute. reflexivity.
Defined.

Lemma block_layout_witness :
  bit_unpack block3 0 5 = 3 /\ Z.of_nat (length block3) = 17.
Proof.
  destruct (block_layout 3 4 seg3 block3 seg3_in_range)
    as (f & v0 & Hf & Hv0 & H1 & _ & _ & _ & _ & _ & _ & _ & _ & Hlen).
  - simpl. lia.
  - vm_compute. reflexivity.
  - vm_compute in Hf. injection Hf as <-.
    split; [exact H1 | exact Hlen].
Defined.

Lemma bit_width_formula_witness :
  nearest_log2 3 2 /\ nearest_log2 7 3 /\ nearest_log2 15 4.
Proof.
  destruct (bit_width_formula 3 4 seg3
              (Fields 3 2 10 7 15 3 4 5 17) seg3_in_range)
    as (mnx & mxx & mny & mxy & _ & _ & _ & _ & _ & _ & _ & Hc & Hx & Hy
        & _).
  - vm_compute. reflexivity.
  - exact (conj Hc (conj Hx Hy)).
Defined.

End Examples.

(** ** Splitting at a cell boundary *)

Section Split.

Import Encoder Ingester.

Lemma bool_cell_differs (londeg1 latdeg1 londeg latdeg : Z) :
  (londeg1, latdeg1) <> (londeg, latdeg) ->
  negb (latdeg1 =? latdeg) || negb (londeg1 =? londeg) = true.
Proof.
  intros Hne.
  destruct (Z.eqb_spec latdeg1 latdeg) as [->|]; [|done].
  destruct (Z.eqb_spec londeg1 londeg) as [->|]; [|done].
  congruence.
Qed.

Lemma state_eq (a b : state) :
  total a = total b -> fp a = fp b -> files a = files b ->
  segCount a = segCount b -> segxy a = segxy b ->
  londeg0 a = londeg0 b -> latdeg0 a = latdeg0 b ->
  lon0 a = lon0 b -> lat0 a = lat0 b ->
  a = b.
Proof.
  destruct a, b. cbn [total fp files segCount segxy londeg0 latdeg0 lon0 lat0].
  by intros -> -> -> -> -> -> -> -> ->.
Qed.

(** What is done before the vertex is added, when the cell changes in the
    middle of a part. *)
Lemma split_step_changed_cell londeg1 latdeg1 (st : state) :
  latdeg0 st > -999 ->
  fp st = Some (londeg0 st, latdeg0 st) ->
  (londeg1, latdeg1) <> (londeg0 st, latdeg0 st) ->
  let old := (londeg0 st, latdeg0 st) in
  let previous := (scaled (lon0 st), scaled (lat0 st)) in
  split_step false londeg1 latdeg1 st
  = Ok (State (total st) (Some (londeg1, latdeg1))
          (<[(londeg1, latdeg1) :=
               default [] (files st !! (londeg1, latdeg1))]>
             (<[old := default [] (files st !! old)
                       ++ [take (Z.to_nat (segCount st)) (segxy st)
                           ++ [previous]]]> (files st)))
          1 [previous] (londeg0 st) (latdeg0 st) (lon0 st) (lat0 st)).
Proof.
  intros Hlat Hfp Hne old previous. subst old previous.
  destruct st as [tot h fl sc sx lod lad lo la].
  cbn [fp latdeg0 londeg0 lon0 lat0 files segCount segxy total] in *. subst h.
  unfold split_step. cbn [latdeg0 londeg0].
  assert (Hgt : (lad >? -999) = true) by (apply Z.gtb_lt; lia).
  rewrite Hgt, (bool_cell_differs _ _ _ _ Hne). cbn [andb].
  cbn -[scaled take Z.to_nat].
  f_equal. apply state_eq; cbn -[scaled take Z.to_nat]; try done.
  replace (sc + 1 - 1) with sc by lia.
  rewrite lookup_insert_ne by done. done.
Qed.


End Split.

Section TwoPoints.

Import Encoder Ingester.

(** A shape of one part and two vertices which fall in different cells
    leaves two segments, one in the file of each cell, and the first vertex
    is in both. *)
Lemma two_point_shape_split (p0 p1 : Q * Q) :
  let c0 := cell_of (normalize p0) in
  let c1 := cell_of (normalize p1) in
  let v0 := (scaled (normalize p0).1, scaled (normalize p0).2) in
  let v1 := (scaled (normalize p1).1, scaled (normalize p1).2) in
  c0.2 > -999 -> c1 <> c0 ->
  exists st,
    pass1 [[SHP [0] [p0; p1]]] = Ok st
    /\ files st = {[c0 := [[v0; v0]]; c1 := [[v0; v1]]]}.
Proof.
  intros c0 c1 v0 v1 Hlat Hne.
  unfold pass1, source_loop, source_step, shape_loop, shape_step.
  change (nVertices (SHP [0] [p0; p1])) with (Z.of_nat 2).
  change (2 <=? Z.of_nat 2) with true.
  cbn iota. cbn [vertex_loop padf].
  set (st1 := State 2 (Some c0) {[c0 := []]} 1 [v0] c0.1 c0.2
                (normalize p0).1 (normalize p0).2).
  assert (H0 : vertex_step (SHP [0] [p0; p1]) 0 1 p0
                 (set_total (add32 (total (set_segCount 0 initial))
                               (Z.of_nat 2)) (set_segCount 0 initial))
               = Ok (st1, 1)).
  { unfold vertex_step. change (start_of_segment _ 0 1) with (true, 1).
    subst st1. fold c0. destruct c0 as [londeg1 latdeg1] eqn:Hc0.
    cbn -[scaled normalize]. done. }
  rewrite H0. cbn [bind fst snd].
  set (st2 := State 2 (Some c1)
                (<[c1 := []]> (<[c0 := [[v0; v0]]]> {[c0 := []]}))
                2 [v0; v1] c1.1 c1.2 (normalize p1).1 (normalize p1).2).
  assert (H1 : vertex_step (SHP [0] [p0; p1]) (0 + 1) 1 p1 st1
               = Ok (st2, 1)).
  { unfold vertex_step. change (start_of_segment _ (0 + 1) 1) with (false, 1).
    fold c1. destruct c1 as [londeg1 latdeg1] eqn:Hc1.
    rewrite split_step_changed_cell;
      [|exact Hlat | subst st1; cbn [fp londeg0 latdeg0]; by destruct c0
       |subst st1; cbn [londeg0 latdeg0]; by destruct c0].
    subst st1 st2.
    cbn [bind files fp segCount segxy set_previous push set_segCount
           set_segxy total londeg0 latdeg0 lon0 lat0 fst snd].
    replace (c0.1, c0.2) with c0 by (by destruct c0).
    rewrite lookup_singleton_eq, lookup_singleton_ne by done.
    change (Z.to_nat 1) with 1%nat. cbn [take default app]. done. }
  rewrite H1. cbn [bind fst snd].
  subst st2. unfold fwrite_segment, fclose.
  cbn [fp files segCount segxy set_files set_previous bind].
  eexists. split; [reflexivity|].
  cbn [files]. change (Z.to_nat 2) with 2%nat. cbn [take].
  rewrite lookup_insert_eq, insert_insert_eq. cbn [default app].
  rewrite <- (insert_empty c0 []), insert_insert_eq.
  rewrite <- insert_empty. by apply insert_insert_ne.
Qed.

End TwoPoints.

Section SplitExample.

Import Encoder Ingester Samples.


(** The sample state is the one which the first vertex of [two_points]
    leaves. *)
Lemma after_first_vertex_reached :
  vertex_step two_points 0 1 ((-1695 # 10)%Q, (-795 # 10)%Q)
    (set_total 2 (set_segCount 0 initial))
  = Ok (after_first_vertex, 1).
Proof. vm_compute. reflexivity. Qed.


End SplitExample.

(** ** The staging file handle *)

Section NullStream.

Import Encoder Ingester.

Lemma shape_step_short shape (st : state) :
  nVertices shape < 2 ->
  shape_step shape st
  = Ok (set_total (add32 (total st) (nVertices shape)) st).
Proof.
  intros Hn. unfold shape_step.
  destruct (Z.leb_spec 2 (nVertices shape)); [lia | done].
Qed.

Lemma shape_loop_short shapes : forall st : state,
    Forall (fun shape => nVertices shape < 2) shapes ->
    exists st', shape_loop shapes st = Ok st' /\ fp st' = fp st.
Proof.
  induction shapes as [|shape shapes IH]; intros st Hall.
  - by exists st.
  - inversion Hall as [|? ? Hshort Hrest]; subst.
    cbn [shape_loop]. rewrite shape_step_short by done. cbn [bind].
    destruct (IH (set_total (add32 (total st) (nVertices shape)) st) Hrest)
      as (st' & Hloop & Hfp).
    exists st'. split; [exact Hloop | by rewrite Hfp].
Qed.

(** C10.  The staging file is opened by the first vertex of a shape of at
    least two vertices only: a shape of fewer vertices leaves the handle as
    it is, so when the first input file has no shape of at least two
    vertices, the flush at the end of that file passes the null pointer to
    [fwrite], and the run does not go on. *)
Theorem flush_through_null_handle (shapes : list SHPObject)
    (inputs : list (list SHPObject)) :
  Forall (fun shape => nVertices shape < 2) shapes ->
  fp initial = None
  /\ (exists st, shape_loop shapes (set_segCount 0 initial) = Ok st
                 /\ fp st = None)
  /\ source_step shapes initial = NullStream
  /\ pass1 (shapes :: inputs) = NullStream.
Proof.
  intros Hall.
  destruct (shape_loop_short shapes (set_segCount 0 initial) Hall)
    as (st & Hloop & Hfp).
  cbn [fp set_segCount initial] in Hfp.
  assert (Hsrc : source_step shapes initial = NullStream).
  { unfold source_step. rewrite Hloop. cbn [bind].
    unfold fwrite_segment. by rewrite Hfp. }
  split; [done|]. split; [by exists st|]. split; [exact Hsrc|].
  unfold pass1. cbn [source_loop]. by rewrite Hsrc.
Qed.

Lemma flush_through_null_handle_witness :
  pass1 [[SHP [] [(0%Q, 0%Q)]]] = NullStream.
Proof.
  apply (flush_through_null_handle [SHP [] [(0%Q, 0%Q)]] []).
  repeat constructor.
Defined.

End NullStream.

(** ** The stored vertices of inputs within the input range *)

Section StoredVertices.

Import Double Encoder Ingester Invariants Geometry.

Local Open Scope Q_scope.

(** The stored value of a double whose hundred-thousandfold lies between
    two integers lies between them. *)
Lemma scaled_between (q : Q) (A B : Z) :
  (0 <= A)%Z -> (B < 2 ^ 31 - 1)%Z ->
  inject_Z A <= q * 100000 -> q * 100000 <= inject_Z B ->
  (A <= scaled q <= B)%Z.
Proof.
  intros HA HB Hlo Hhi. unfold scaled, mul.
  assert (HAB : (A <= B)%Z) by (rewrite Zle_Qle; by eapply Qle_trans).
  apply NINT_between; try done.
  - apply round_ge_Z; [lia | done].
  - apply round_le_Z; [lia | done].
Qed.

(** A coordinate between 0 and 360 is stored within the closed degree of
    its index. *)
Lemma scaled_in_cell (q : Q) :
  0 <= q -> q <= 360 ->
  (to_int32 q * 100000 <= scaled q <= (to_int32 q + 1) * 100000)%Z.
Proof.
  intros Hq Hq'.
  assert (Hlt : q < inject_Z 361) by (change (inject_Z 361) with 361; Lqa.lra).
  pose proof (to_int32_range q 361 ltac:(lia) Hq Hlt) as Hc.
  destruct (to_int32_bounds q Hq) as [Hlo Hhi].
  { eapply Qlt_le_trans; [exact Hlt|]. by rewrite <- Zle_Qle. }
  rewrite inject_Z_plus in Hhi. change (inject_Z 1) with 1 in Hhi.
  apply scaled_between; try lia.
  - rewrite inject_Z_mult. change (inject_Z 100000) with 100000. Lqa.lra.
  - rewrite inject_Z_mult, inject_Z_plus.
    change (inject_Z 100000) with 100000. change (inject_Z 1) with 1.
    Lqa.lra.
Qed.

Lemma normalize_range xy :
  valid_vertex xy ->
  (0 <= (normalize xy).1 < 360) /\ (0 <= (normalize xy).2 <= 180).
Proof.
  intros [[Hx1 Hx2] [Hy1 Hy2]]. unfold normalize, add. cbn [fst snd].
  split.
  - destruct (Qeq_bool (round (xy.1 + 180)) 360) eqn:He;
      [split; [discriminate | reflexivity]|].
    assert (Hne : ~ round (xy.1 + 180) == 360).
    { intros Heq. apply Qeq_bool_iff in Heq. congruence. }
    pose proof (round_ge_Z (xy.1 + 180) 0 ltac:(lia)) as H1.
    pose proof (round_le_Z (xy.1 + 180) 360 ltac:(lia)) as H2.
    change (inject_Z 0) with 0 in H1. change (inject_Z 360) with 360 in H2.
    specialize (H1 ltac:(Lqa.lra)). specialize (H2 ltac:(Lqa.lra)).
    split; [done|]. apply Qle_lteq in H2 as [Hlt|Heq]; [done | contradiction].
  - pose proof (round_ge_Z (xy.2 + 90) 0 ltac:(lia)) as H1.
    pose proof (round_le_Z (xy.2 + 90) 180 ltac:(lia)) as H2.
    change (inject_Z 0) with 0 in H1. change (inject_Z 180) with 180 in H2.
    split; [apply H1 | apply H2]; Lqa.lra.
Qed.

Lemma staged_range xy :
  valid_vertex xy ->
  (0 <= (staged xy).1 <= 36000000)%Z /\ (0 <= (staged xy).2 <= 18000000)%Z.
Proof.
  intros Hv. destruct (normalize_range xy Hv) as [[Hx1 Hx2] [Hy1 Hy2]].
  unfold staged. cbn [fst snd].
  split; apply scaled_between; try lia.
  - change (inject_Z 0) with 0. Lqa.lra.
  - change (inject_Z 36000000) with 36000000. Lqa.lra.
  - change (inject_Z 0) with 0. Lqa.lra.
  - change (inject_Z 18000000) with 18000000. Lqa.lra.
Qed.

Lemma staged_in_cell_bounds xy :
  valid_vertex xy ->
  ((cell_of (normalize xy)).1 * 100000 <= (staged xy).1
   <= ((cell_of (normalize xy)).1 + 1) * 100000)%Z
  /\ ((cell_of (normalize xy)).2 * 100000 <= (staged xy).2
      <= ((cell_of (normalize xy)).2 + 1) * 100000)%Z.
Proof.
  intros Hv. destruct (normalize_range xy Hv) as [[Hx1 Hx2] [Hy1 Hy2]].
  unfold staged, cell_of. cbn [fst snd].
  split; apply scaled_in_cell; Lqa.lra.
Qed.

Lemma valid_cell_range xy :
  valid_vertex xy ->
  (0 <= (cell_of (normalize xy)).1 <= 359)%Z
  /\ (0 <= (cell_of (normalize xy)).2 <= 180)%Z.
Proof.
  intros Hv. destruct (normalize_range xy Hv) as [[Hx1 Hx2] [Hy1 Hy2]].
  unfold cell_of. cbn [fst snd].
  pose proof (to_int32_range (normalize xy).1 360 ltac:(lia) Hx1 Hx2).
  pose proof (to_int32_range (normalize xy).2 181 ltac:(lia) Hy1
                ltac:(change (inject_Z 181) with 181; Lqa.lra)).
  lia.
Qed.

End StoredVertices.

(** ** The cell of a vertex *)

Section Cells.

Import Encoder Ingester Samples.

Local Open Scope Q_scope.

(** Longitudes from -180 to 180 and latitudes from -90 to the second
    largest double below 90 fall in the cells of the index table. *)
Lemma cell_in_table (x y : Q) :
  -180 <= x <= 180 -> -90 <= y <= 90 - 2 ^ (-45) ->
  let c := cell_of (normalize (x, y)) in
  (0 <= c.1 <= 359)%Z /\ (0 <= c.2 <= 179)%Z.
Proof.
  intros Hx [Hy1 Hy2].
  assert (Hv : Invariants.valid_vertex (x, y)).
  { split; [exact Hx|]. cbn [snd]. split; [done|].
    eapply Qle_trans; [exact Hy2 | discriminate]. }
  destruct (normalize_range (x, y) Hv) as [[Hx1 Hx2] [Hl1 _]].
  unfold cell_of. cbn [fst snd].
  pose proof (to_int32_range (normalize (x, y)).1 360 ltac:(lia) Hx1 Hx2).
  assert (Hl2 : (normalize (x, y)).2 < inject_Z 180).
  { unfold normalize, Double.add. cbn [fst snd].
    apply Qle_lt_trans with (180 - 2 ^ (-45)); [|reflexivity].
    apply round_le.
    - exists (180 * 2 ^ 45 - 1)%Z, (-45)%Z.
      split; [reflexivity | split; [vm_compute; discriminate | lia]].
    - change (2 ^ (-45)) with (1 # 35184372088832) in *. Lqa.lra. }
  pose proof (to_int32_range (normalize (x, y)).2 180 ltac:(lia) Hl1 Hl2).
  lia.
Qed.

(** C9.  A vertex at latitude 90 is within the stated input range, and its
    latitude index is 180, which is no row of the index table. *)
Theorem north_pole_cell :
  -180 <= north_pole.1 <= 180 /\ -90 <= north_pole.2 <= 90
  /\ cell_of (normalize north_pole) = (180, 180)%Z
  /\ scaled (normalize north_pole).2 = 18000000%Z.
Proof.
  vm_compute. repeat split; discriminate.
Qed.

End Cells.

(** ** Range errors of pass 2 *)

Section RangeErrors.

Import Encoder Output Spec.

Lemma bias_check_spec (b : Z) :
  (b >? max_bias) || (b <? - max_bias) = true
  <-> (b > max_bias \/ b < - max_bias).
Proof.
  split.
  - apply bias_check_true.
  - intros H. destruct ((b >? max_bias) || (b <? - max_bias)) eqn:Hb; [done|].
    apply bias_check_false in Hb. lia.
Qed.

(** C5.  A segment of one vertex has no differences: the extrema keep
    their initial values 99999999 and -99999999, the longitude bias is
    -99999999, and the run ends with the longitude bias error before
    anything of the segment is written.  The source has no rule of its own
    for such a segment. *)
Theorem one_vertex_segment_exits i j (v : vertex) (records : list segment)
    (ofp : file) (num_segments num_vertices : Z) :
  diff_range [v].*1 = (99999999, -99999999)
  /\ diff_range [v].*2 = (99999999, -99999999)
  /\ segment_fields i j [v] = inl (LonBiasOutOfRange i j (-99999999))
  /\ encode_records i j ([v] :: records) ofp num_segments num_vertices
     = Exit (-1) (LonBiasOutOfRange i j (-99999999)) ofp.
Proof. done. Qed.

(** On the segment of the single vertex (100, 200) no fields are computed,
    and the staging file which holds it ends the run. *)
Lemma one_vertex_segment_no_fields :
  ~ (exists f, segment_fields 3 4 [(100, 200)] = inr f
               /\ f_range_x f = 1 /\ f_range_y f = 1
               /\ f_bias_x f = 0 /\ f_bias_y f = 0)
  /\ encode_records 3 4 [[(100, 200)]] (File [] 0) 0 0
     = Exit (-1) (LonBiasOutOfRange 3 4 (-99999999)) (File [] 0).
Proof.
  split; [|done].
  intros (f & Hf & _). discriminate Hf.
Qed.

(** C6, as the code has it.  For a segment which is not empty, a bias
    beyond 131071 in absolute value ends the run with the cell, the bias and
    exit code -1, and nothing of that segment is written; with both biases
    within the range there is no such exit for the segment: its fields are
    computed, the encoder gives neither bias error for it, and the only
    error left is that of a size below 0, for which no buffer is allocated
    and the run ends with "Allocating buffer". *)
Theorem bias_range_error i j (seg : segment) (records : list segment)
    (ofp : file) (num_segments num_vertices : Z) :
  seg <> [] ->
  let bias_x := neg32 (diff_range seg.*1).1 in
  let bias_y := neg32 (diff_range seg.*2).1 in
  let beyond b := b > max_bias \/ b < - max_bias in
  (beyond bias_x ->
   encode_records i j (seg :: records) ofp num_segments num_vertices
   = Exit (-1) (LonBiasOutOfRange i j bias_x) ofp)
  /\ (~ beyond bias_x -> beyond bias_y ->
      encode_records i j (seg :: records) ofp num_segments num_vertices
      = Exit (-1) (LatBiasOutOfRange i j bias_y) ofp)
  /\ (~ beyond bias_x -> ~ beyond bias_y ->
      exists f,
        segment_fields i j seg = inr f
        /\ (forall i' j' b,
               encode_segment i j seg <> inl (LonBiasOutOfRange i' j' b)
               /\ encode_segment i j seg <> inl (LatBiasOutOfRange i' j' b))
        /\ (f_size f < 0 ->
            encode_records i j (seg :: records) ofp num_segments num_vertices
            = Exit (-1) AllocatingBuffer ofp)).
Proof.
  intros Hne bias_x bias_y beyond.
  assert (Hcount : (Z.of_nat (length seg) =? 0) = false).
  { apply Z.eqb_neq. destruct seg; [done | cbn [length]; lia]. }
  cbn [encode_records]. rewrite Hcount.
  subst beyond. cbv beta.
  destruct ((bias_x >? max_bias) || (bias_x <? - max_bias)) eqn:Hbx.
  - assert (Hf : segment_fields i j seg
                 = inl (LonBiasOutOfRange i j bias_x)).
    { unfold segment_fields. fold bias_x. by rewrite Hbx. }
    rewrite (encode_segment_inl _ _ _ _ Hf).
    apply bias_check_spec in Hbx.
    split; [done|]. split; intros Hn; contradiction.
  - assert (Hnx : ~ (bias_x > max_bias \/ bias_x < - max_bias)).
    { intros Hb. apply bias_check_spec in Hb. congruence. }
    destruct ((bias_y >? max_bias) || (bias_y <? - max_bias)) eqn:Hby.
    + assert (Hf : segment_fields i j seg
                   = inl (LatBiasOutOfRange i j bias_y)).
      { unfold segment_fields. fold bias_x bias_y. by rewrite Hbx, Hby. }
      rewrite (encode_segment_inl _ _ _ _ Hf).
      apply bias_check_spec in Hby.
      split; [intros Hb; contradiction|]. split; [done|].
      intros _ Hn. contradiction.
    + assert (Hny : ~ (bias_y > max_bias \/ bias_y < - max_bias)).
      { intros Hb. apply bias_check_spec in Hb. congruence. }
      split; [intros Hb; contradiction|].
      split; [intros _ Hb; contradiction|].
      intros _ _.
      assert (Hf : exists f, segment_fields i j seg = inr f).
      { unfold segment_fields. fold bias_x bias_y. rewrite Hbx, Hby.
        by eexists. }
      destruct Hf as [f Hf]. exists f. split; [exact Hf|].
      split.
      * intros i' j' b. unfold encode_segment. rewrite Hf.
        destruct (calloc (f_size f)); split; discriminate.
      * intros Hs. by rewrite (encode_segment_alloc _ _ _ _ Hf Hs).
Qed.

Lemma bias_range_error_witness :
  encode_records 3 4 [[(0, 0); (200000, 0)]] (File [] 0) 0 0
  = Exit (-1) (LonBiasOutOfRange 3 4 (-200000)) (File [] 0).
Proof.
  refine (proj1 (bias_range_error 3 4 [(0, 0); (200000, 0)] []
                   (File [] 0) 0 0 _) _).
  - discriminate.
  - vm_compute. right. reflexivity.
Defined.

(** C6, as stated, fails when the segment with the bias out of range is
    not the first of its cell: the block of the segment before it is in the
    output file when the run ends. *)
Lemma bias_range_error_counterexample :
  exists ofp,
    encode_cell {[(4, 3) := [seg3; [(0, 0); (200000, 0)]]]} 3 4 (File [] 0)
    = Exit (-1) (LonBiasOutOfRange 3 4 (-200000)) ofp
    /\ data ofp = block3 /\ data ofp <> [].
Proof.
  eexists. split; [vm_compute; reflexivity|]. split; [reflexivity|done].
Qed.

Lemma diff_scan_zeros n : forall a b,
    diff_scan 0 (replicate n 0) (a, b)
    = match n with
      | O => (a, b)
      | S _ => (Z.min 0 a, Z.max 0 b)
      end.
Proof.
  induction n as [|n IH]; intros a b; [done|].
  cbn [replicate diff_scan fst snd]. change (sub32 0 0) with 0.
  unfold MIN, MAX. rewrite IH. destruct n; [done|]. f_equal; lia.
Qed.

(** The fields of a segment of [n] vertices at the origin. *)
Lemma segment_fields_zeros i j (n : nat) :
  (2 <= n)%nat ->
  segment_fields i j (replicate n (0, 0))
  = inr (Fields (Z.of_nat n) 0 0 1 1 (field_bits (Z.of_nat n)) 1 1
           (Z.quot (wrap32 (total_bits (field_bits (Z.of_nat n)) 1 1
                              (Z.of_nat n))) 8 + 1)).
Proof.
  intros Hn. destruct n as [|[|n]]; [lia..|].
  unfold segment_fields. rewrite !fmap_replicate, length_replicate.
  cbn [fst snd]. cbn [replicate diff_range].
  change (0 :: replicate n 0) with (replicate (S n) 0).
  rewrite diff_scan_zeros.
  cbn [fst snd].
  change (Z.min 0 99999999) with 0. change (Z.max 0 (-99999999)) with 0.
  change (neg32 0) with 0. change (sub32 0 0) with 0.
  change ((0 >? max_bias) || (0 <? - max_bias)) with false.
  cbn iota. reflexivity.
Qed.

(** A segment of [2 ^ 30 + 1] vertices at the origin, which is within the
    declared ranges and whose count a 32-bit integer holds: the number of
    its bits, [2 ^ 31 + 135], wraps around to a size below 0, no buffer is
    allocated, and the run ends with "Allocating buffer". *)
Lemma allocating_buffer_exit i j (records : list segment) (ofp : file)
    (num_segments num_vertices : Z) :
  let seg : segment := replicate (Z.to_nat (2 ^ 30 + 1)) (0, 0) in
  Forall vertex_in_range seg
  /\ Z.of_nat (length seg) = 2 ^ 30 + 1
  /\ (exists f, segment_fields i j seg = inr f /\ f_size f = -268435438)
  /\ encode_records i j (seg :: records) ofp num_segments num_vertices
     = Exit (-1) AllocatingBuffer ofp.
Proof.
  intros seg.
  assert (Hlen : Z.of_nat (length seg) = 2 ^ 30 + 1).
  { subst seg. rewrite length_replicate. apply Z2Nat.id. lia. }
  assert (Hn : (2 <= Z.to_nat (2 ^ 30 + 1))%nat).
  { apply Nat2Z.inj_le. rewrite Z2Nat.id by lia. lia. }
  pose proof (segment_fields_zeros i j _ Hn) as Hf. fold seg in Hf.
  rewrite Z2Nat.id in Hf by lia.
  assert (Hall : Forall vertex_in_range seg).
  { apply Forall_replicate. vm_compute. repeat split; discriminate. }
  clearbody seg.
  split; [exact Hall|]. split; [exact Hlen|]. split.
  - eexists. split; [exact Hf|]. vm_compute. reflexivity.
  - cbn [encode_records]. rewrite Hlen.
    change (2 ^ 30 + 1 =? 0) with false. cbv iota.
    rewrite (encode_segment_alloc _ _ _ _ Hf); [done|].
    vm_compute. reflexivity.
Qed.

(** A range error in a cell ends the loop over the cells. *)
Lemma range_exit_ends_cells files cells1 i j cells2 (ofp ofp1 ofp2 : file)
    code e :
  encode_cells files cells1 ofp = Done ofp1 ->
  encode_cell files i j ofp1 = Exit code e ofp2 ->
  encode_cells files (cells1 ++ (i, j) :: cells2) ofp = Exit code e ofp2.
Proof.
  revert ofp. induction cells1 as [|[i1 j1] cells1 IH]; intros ofp Hdone Hexit.
  - injection Hdone as ->. cbn [app encode_cells fst snd]. by rewrite Hexit.
  - cbn [app encode_cells fst snd] in *.
    destruct (encode_cell files i1 j1 ofp) as [ofp'|]; [|discriminate].
    by apply IH.
Qed.

(** The widths round to the nearest integer, not up: 5 gets 3 bits, where
    the ceiling of its logarithm plus one is 4. *)
Lemma width_not_ceiling : field_bits 5 = 3 /\ ceil_log2 5 + 1 = 4.
Proof. done. Qed.

End RangeErrors.

(** ** The staging files after pass 1 *)

Section Staging.

Import Encoder Ingester Invariants.

Lemma has_segment_app_l (records : list segment) seg :
  has_segment records -> has_segment (records ++ [seg]).
Proof.
  intros (s & Hin & Hne). exists s. split; [|done].
  apply elem_of_app. by left.
Qed.

Lemma has_segment_app_r (records : list segment) seg :
  seg <> [] -> has_segment (records ++ [seg]).
Proof.
  intros Hne. exists seg. split; [|done].
  apply elem_of_app. right. by apply list_elem_of_singleton.
Qed.

Lemma take_nonempty (sc : Z) (vs : segment) :
  1 <= sc <= Z.of_nat (length vs) -> take (Z.to_nat sc) vs <> [].
Proof.
  intros H Hnil.
  assert (Hl : length (take (Z.to_nat sc) vs) = 0%nat) by (by rewrite Hnil).
  rewrite length_take in Hl. lia.
Qed.

Lemma valid_vertex_lat xy :
  valid_vertex xy -> 0 <= (cell_of (normalize xy)).2.
Proof.
  intros Hv. pose proof (valid_cell_range xy Hv). lia.
Qed.

Lemma fwrite_segment_Ok vs (st st' : state) :
  fwrite_segment vs st = Ok st' ->
  exists c,
    fp st = Some c
    /\ st' = set_files
               (<[c := default [] (files st !! c) ++ [vs]]> (files st)) st.
Proof.
  unfold fwrite_segment. destruct (fp st) as [c|]; [|discriminate].
  intros [= <-]. by exists c.
Qed.

(** After a segment is written, every staging file holds a segment. *)
Lemma fwrite_segment_files (P : Prop) vs (st st' : state) :
  (forall c, fp st = Some c -> is_Some (files st !! c)) ->
  (forall c records,
      files st !! c = Some records ->
      has_segment records \/ (fp st = Some c /\ P)) ->
  (P -> vs <> []) ->
  fwrite_segment vs st = Ok st' ->
  forall c records, files st' !! c = Some records -> has_segment records.
Proof.
  intros Hopen Hfiles Hvs Hw c records Hl.
  apply fwrite_segment_Ok in Hw as (c0 & Hfp & ->).
  cbn [files set_files] in Hl.
  destruct (decide (c0 = c)) as [->|Hne].
  - rewrite lookup_insert_eq in Hl. injection Hl as <-.
    destruct (Hopen c Hfp) as [r0 Hr0]. rewrite Hr0. cbn [default].
    destruct (Hfiles c r0 Hr0) as [Hs|[_ HP]].
    + by apply has_segment_app_l.
    + apply has_segment_app_r. by apply Hvs.
  - rewrite lookup_insert_ne in Hl by done.
    destruct (Hfiles c records Hl) as [Hs|[Hc _]]; [done|congruence].
Qed.

Lemma fopen_ab_files c1 (st : state) :
  (forall c records, files st !! c = Some records -> has_segment records) ->
  forall c records,
    files (fopen_ab c1 st) !! c = Some records ->
    has_segment records \/ fp (fopen_ab c1 st) = Some c.
Proof.
  intros Hfiles c records Hl. cbn [fopen_ab files fp set_fp set_files] in *.
  destruct (decide (c1 = c)) as [->|Hne]; [by right|].
  rewrite lookup_insert_ne in Hl by done. left. eauto.
Qed.

Lemma fopen_ab_open c1 (st : state) :
  forall c, fp (fopen_ab c1 st) = Some c ->
            is_Some (files (fopen_ab c1 st) !! c).
Proof.
  intros c. cbn [fopen_ab files fp set_fp set_files].
  intros [= <-]. rewrite lookup_insert_eq. eauto.
Qed.

(** What [split_step] leaves for the vertex which is added after it. *)
Lemma split_step_pending start londeg1 latdeg1 (st st' : state) :
  staging st ->
  split_step start londeg1 latdeg1 st = Ok st' ->
  (0 <= segCount st' <= Z.of_nat (length (segxy st')))
  /\ (forall c, fp st' = Some c -> is_Some (files st' !! c))
  /\ (forall c records,
         files st' !! c = Some records ->
         has_segment records \/ fp st' = Some c).
Proof.
  intros [Hcount Hopen Hfiles Hfirst Hlat] Hstep.
  unfold split_step in Hstep.
  destruct ((latdeg0 st >? -999)
            && (negb (latdeg1 =? latdeg0 st)
                || negb (londeg1 =? londeg0 st))) eqn:Hchanged.
  - destruct start.
    + (* close the segment, open the file of the new cell *)
      destruct (fwrite_segment (take (Z.to_nat (segCount st)) (segxy st)) st)
        as [st1|] eqn:Hw; [|discriminate].
      cbn [bind] in Hstep.
      pose proof (fwrite_segment_files (1 <= segCount st)
                    (take (Z.to_nat (segCount st)) (segxy st)) st st1
                    Hopen Hfiles
                    ltac:(intros HP; apply take_nonempty; lia) Hw) as Hall.
      apply fwrite_segment_Ok in Hw as (c0 & Hfp & Hst1).
      assert (Hfp1 : fp st1 = Some c0) by (by subst st1).
      unfold fclose in Hstep. rewrite Hfp1 in Hstep. cbn [bind] in Hstep.
      injection Hstep as <-.
      cbn [segCount segxy set_segCount fp files].
      split; [|split].
      * change (segCount (fopen_ab (londeg1, latdeg1) st1))
          with (segCount st1). lia.
      * apply fopen_ab_open.
      * by apply fopen_ab_files.
    + (* add the last point, close the segment, open the new file *)
      set (st0 := set_segCount (segCount st + 1) st) in *.
      destruct (fwrite_segment
                  (take (Z.to_nat (segCount st0 - 1)) (segxy st0)
                   ++ [(scaled (lon0 st0), scaled (lat0 st0))]) st0)
        as [st1|] eqn:Hw; [|discriminate].
      cbn [bind] in Hstep.
      pose proof (fwrite_segment_files True
                    (take (Z.to_nat (segCount st0 - 1)) (segxy st0)
                     ++ [(scaled (lon0 st0), scaled (lat0 st0))]) st0 st1
                    Hopen
                    ltac:(intros c r Hr; destruct (Hfiles c r Hr) as [|[? _]];
                          [by left | by right])
                    ltac:(intros _; by destruct (take _ _)) Hw) as Hall.
      apply fwrite_segment_Ok in Hw as (c0 & Hfp & Hst1).
      assert (Hfp1 : fp st1 = Some c0) by (by subst st1).
      unfold fclose in Hstep. rewrite Hfp1 in Hstep. cbn [bind] in Hstep.
      injection Hstep as <-.
      cbn [push segCount segxy set_segCount set_segxy fp files].
      change (Z.to_nat 0) with 0%nat. rewrite take_0. cbn [app length].
      split; [lia|]. split.
      * apply fopen_ab_open.
      * by apply fopen_ab_files.
  - destruct start.
    + destruct (Z.eqb_spec (latdeg0 st) (-999)) as [Heq|Hneq].
      * (* the first vertex of the run *)
        injection Hstep as <-.
        destruct (Hfirst Heq) as [Hempty Hnone].
        split; [|split].
        -- change (segCount (fopen_ab (londeg1, latdeg1) st))
             with (segCount st).
           change (segxy (fopen_ab (londeg1, latdeg1) st)) with (segxy st).
           lia.
        -- apply fopen_ab_open.
        -- apply fopen_ab_files. intros c r Hr.
           rewrite Hempty, lookup_empty in Hr. discriminate.
      * (* close the segment, stay in the file *)
        destruct (fwrite_segment (take (Z.to_nat (segCount st)) (segxy st))
                    st) as [st1|] eqn:Hw; [|discriminate].
        cbn [bind] in Hstep. injection Hstep as <-.
        pose proof (fwrite_segment_files (1 <= segCount st)
                      (take (Z.to_nat (segCount st)) (segxy st)) st st1
                      Hopen Hfiles
                      ltac:(intros HP; apply take_nonempty; lia) Hw)
          as Hall.
        apply fwrite_segment_Ok in Hw as (c0 & Hfp & Hst1).
        cbn [segCount segxy set_segCount fp files].
        split; [subst st1; cbn [segxy set_files]; lia|]. split.
        -- subst st1. cbn [fp files set_files]. intros c Hc.
           destruct (decide (c0 = c)) as [->|Hne].
           ++ rewrite lookup_insert_eq. eauto.
           ++ rewrite lookup_insert_ne by done. by apply Hopen.
        -- intros c r Hr. left. by apply (Hall c).
    + injection Hstep as <-.
      split; [done|]. split; [done|].
      intros c r Hr. destruct (Hfiles c r Hr) as [|[? _]]; [by left|by right].
Qed.

End Staging.

Section StagingLoops.

Import Encoder Ingester Invariants.

Lemma vertex_step_staging shape j numParts xy (st : state) r :
  staging st -> valid_vertex xy ->
  vertex_step shape j numParts xy st = Ok r ->
  staging r.1.
Proof.
  intros Hst Hxy Hstep. unfold vertex_step in Hstep.
  destruct (start_of_segment shape j numParts) as [start np].
  pose proof (valid_vertex_lat xy Hxy) as Hlat.
  destruct (cell_of (normalize xy)) as [londeg1 latdeg1].
  cbn [snd] in Hlat.
  destruct (split_step start londeg1 latdeg1 st) as [st1|] eqn:Hsplit;
    [|discriminate].
  cbn [bind] in Hstep. injection Hstep as <-. cbn [fst].
  destruct (split_step_pending _ _ _ _ _ Hst Hsplit)
    as (Hcount & Hopen & Hfiles).
  constructor;
    cbn [set_previous push set_segCount set_segxy segCount segxy fp files
           latdeg0].
  - rewrite length_app, length_take. cbn [length]. lia.
  - exact Hopen.
  - intros c records Hl. destruct (Hfiles c records Hl) as [|Hfp];
      [by left | right; split; [done | lia]].
  - lia.
  - lia.
Qed.

Lemma vertex_loop_staging shape vs : forall j numParts (st st' : state),
    staging st -> Forall valid_vertex vs ->
    vertex_loop shape j numParts vs st = Ok st' ->
    staging st'.
Proof.
  induction vs as [|xy vs IH]; intros j numParts st st' Hst Hall Hloop.
  - by injection Hloop as <-.
  - inversion Hall as [|? ? Hxy Hrest]; subst.
    cbn [vertex_loop] in Hloop.
    destruct (vertex_step shape j numParts xy st) as [r|] eqn:Hstep;
      [|discriminate].
    cbn [bind] in Hloop.
    eapply IH; [|exact Hrest|exact Hloop].
    by eapply vertex_step_staging.
Qed.

Lemma set_total_staging n (st : state) : staging st -> staging (set_total n st).
Proof. intros [? ? ? ? ?]. by constructor. Qed.

Lemma shape_step_staging shape (st st' : state) :
  staging st -> valid_shape shape ->
  shape_step shape st = Ok st' -> staging st'.
Proof.
  intros Hst Hshape Hstep. unfold shape_step in Hstep.
  destruct (2 <=? nVertices shape).
  - eapply vertex_loop_staging; [|exact Hshape|exact Hstep].
    by apply set_total_staging.
  - injection Hstep as <-. by apply set_total_staging.
Qed.

Lemma shape_loop_staging shapes : forall st st' : state,
    staging st -> Forall valid_shape shapes ->
    shape_loop shapes st = Ok st' -> staging st'.
Proof.
  induction shapes as [|shape shapes IH]; intros st st' Hst Hall Hloop.
  - by injection Hloop as <-.
  - inversion Hall as [|? ? Hshape Hrest]; subst.
    cbn [shape_loop] in Hloop.
    destruct (shape_step shape st) as [st1|] eqn:Hstep; [|discriminate].
    cbn [bind] in Hloop.
    eapply IH; [|exact Hrest|exact Hloop].
    by eapply shape_step_staging.
Qed.

Lemma source_step_flushed shapes (st st' : state) :
  flushed st -> Forall valid_shape shapes ->
  source_step shapes st = Ok st' -> flushed st'.
Proof.
  intros [Hcount Hopen Hfiles Hfirst Hlat] Hall Hsrc.
  unfold source_step in Hsrc.
  destruct (shape_loop shapes (set_segCount 0 st)) as [st1|] eqn:Hloop;
    [|discriminate].
  cbn [bind] in Hsrc.
  assert (Hst0 : staging (set_segCount 0 st)).
  { constructor; cbn [set_segCount segCount segxy fp files latdeg0];
      [lia | done | | done | done].
    intros c records Hl. left. eauto. }
  pose proof (shape_loop_staging shapes _ _ Hst0 Hall Hloop)
    as [Hcount1 Hopen1 Hfiles1 Hfirst1 Hlat1].
  destruct (fwrite_segment (take (Z.to_nat (segCount st1)) (segxy st1)) st1)
    as [st2|] eqn:Hw; [|discriminate].
  cbn [bind] in Hsrc. injection Hsrc as <-.
  pose proof (fwrite_segment_files (1 <= segCount st1)
                (take (Z.to_nat (segCount st1)) (segxy st1)) st1 st2
                Hopen1 Hfiles1
                ltac:(intros HP; apply take_nonempty; lia) Hw) as Hall2.
  apply fwrite_segment_Ok in Hw as (c0 & Hfp & Hst2).
  constructor; cbn [set_previous segxy fp files latdeg0].
  - lia.
  - subst st2. cbn [fp files set_files]. intros c Hc.
    destruct (decide (c0 = c)) as [->|Hne].
    + rewrite lookup_insert_eq. eauto.
    + rewrite lookup_insert_ne by done. by apply Hopen1.
  - exact Hall2.
  - intros H. lia.
  - lia.
Qed.

Lemma source_loop_flushed inputs : forall st st' : state,
    flushed st -> valid_inputs inputs ->
    source_loop inputs st = Ok st' -> flushed st'.
Proof.
  induction inputs as [|shapes inputs IH]; intros st st' Hst Hall Hloop.
  - by injection Hloop as <-.
  - inversion Hall as [|? ? Hshapes Hrest]; subst.
    cbn [source_loop] in Hloop.
    destruct (source_step shapes st) as [st1|] eqn:Hsrc; [|discriminate].
    cbn [bind] in Hloop.
    eapply IH; [|exact Hrest|exact Hloop].
    by eapply source_step_flushed.
Qed.

Lemma initial_flushed : flushed initial.
Proof.
  constructor; cbn [initial segxy fp files latdeg0 length].
  - lia.
  - discriminate.
  - intros c records Hl. rewrite lookup_empty in Hl. discriminate.
  - done.
  - by left.
Qed.

(** After pass 1 on inputs within the input range, every staging file
    holds a segment of at least one vertex. *)
Lemma pass1_files inputs (st : state) :
  valid_inputs inputs -> pass1 inputs = Ok st ->
  forall c records, files st !! c = Some records -> has_segment records.
Proof.
  intros Hall Hpass. unfold pass1 in Hpass.
  destruct (source_loop inputs initial) as [st1|] eqn:Hloop; [|discriminate].
  cbn [bind] in Hpass. unfold fclose in Hpass.
  destruct (fp st1); [|discriminate]. injection Hpass as <-.
  by destruct (source_loop_flushed inputs _ _ initial_flushed Hall Hloop).
Qed.

End StagingLoops.

(** ** The output file *)

Section OutputFile.

Import Encoder Output Invariants.

Lemma length_fwrite buf (ofp : file) :
  0 <= cursor ofp ->
  Z.of_nat (length (data (fwrite buf ofp)))
  = Z.max (Z.of_nat (length (data ofp)))
      (cursor ofp + Z.of_nat (length buf)).
Proof.
  intros Hc. unfold fwrite. cbn [data].
  rewrite !length_app, length_take, length_replicate, length_drop. lia.
Qed.

(** The byte at index [k] after a write. *)
Lemma lookup_fwrite buf (ofp : file) (k : nat) :
  0 <= cursor ofp ->
  data (fwrite buf ofp) !! k =
    if decide (Z.of_nat k < cursor ofp)
    then (if decide (k < length (data ofp))%nat
          then data ofp !! k else Some 0)
    else if decide (Z.of_nat k < cursor ofp + Z.of_nat (length buf))
         then buf !! (k - Z.to_nat (cursor ofp))%nat
         else data ofp !! k.
Proof.
  intros Hc. unfold fwrite. cbn [data].
  set (c := Z.to_nat (cursor ofp)). set (d := data ofp).
  destruct (decide (Z.of_nat k < cursor ofp)) as [Hk|Hk].
  - destruct (decide (k < length d)%nat) as [Hd|Hd].
    + rewrite lookup_app_l by (rewrite length_take; lia).
      apply lookup_take_lt. lia.
    + rewrite lookup_app_r by (rewrite length_take; lia).
      rewrite length_take.
      rewrite lookup_app_l by (rewrite length_replicate; lia).
      apply lookup_replicate_2. lia.
  - rewrite lookup_app_r by (rewrite length_take; lia).
    rewrite length_take.
    rewrite lookup_app_r by (rewrite length_replicate; lia).
    rewrite length_replicate.
    destruct (decide (Z.of_nat k < cursor ofp + Z.of_nat (length buf)))
      as [Hb|Hb].
    + rewrite lookup_app_l by lia. f_equal. lia.
    + rewrite lookup_app_r by lia. rewrite lookup_drop.
      destruct (decide (k < length d)%nat).
      * f_equal. lia.
      * rewrite !lookup_ge_None_2 by lia. done.
Qed.

Lemma cursor_fwrite buf (ofp : file) :
  cursor (fwrite buf ofp) = cursor ofp + Z.of_nat (length buf).
Proof. done. Qed.

(** A write at the end of the file appends. *)
Lemma fwrite_append buf (ofp : file) :
  cursor ofp = Z.of_nat (length (data ofp)) ->
  data (fwrite buf ofp) = data ofp ++ buf.
Proof.
  intros Hc. unfold fwrite. cbn [data]. rewrite Hc, Nat2Z.id.
  rewrite take_ge by lia.
  replace (length (data ofp) - length (data ofp))%nat with 0%nat by lia.
  rewrite drop_ge by lia. cbn [replicate app]. by rewrite app_nil_r.
Qed.

(** The entry of a cell depends on its twelve bytes only. *)
Lemma read_entry_ext (d d' : bytes) i j :
  0 <= header_offset i j ->
  (forall k : nat,
      header_offset i j <= Z.of_nat k < header_offset i j + 12 ->
      d !! k = d' !! k) ->
  read_entry d i j = read_entry d' i j.
Proof.
  intros Hoff H. unfold read_entry.
  replace (take 12 (drop (Z.to_nat (header_offset i j)) d'))
    with (take 12 (drop (Z.to_nat (header_offset i j)) d)); [done|].
  apply list_eq. intros n.
  destruct (decide (n < 12)%nat) as [Hn|Hn].
  - rewrite !lookup_take_lt, !lookup_drop by done. apply H. lia.
  - by rewrite !lookup_take_ge by lia.
Qed.

Lemma header_offset_grid i j :
  in_grid i j ->
  128 <= header_offset i j /\ header_offset i j + 12 <= header_end.
Proof. unfold in_grid, header_offset, header_end. lia. Qed.

Lemma header_offset_disjoint i j i' j' :
  in_grid i j -> in_grid i' j' -> (i, j) <> (i', j') ->
  header_offset i j + 12 <= header_offset i' j'
  \/ header_offset i' j' + 12 <= header_offset i j.
Proof.
  unfold in_grid, header_offset. intros Hg Hg' Hne.
  assert (i <> i' \/ j <> j').
  { destruct (decide (i = i')) as [->|]; [|by left].
    right. intros ->. by apply Hne. }
  lia.
Qed.

Lemma length_pack_head a ns nv : length (pack_head a ns nv) = 12%nat.
Proof. unfold pack_head. by rewrite !length_bit_pack. Qed.

Lemma read_pack_head a ns nv :
  bit_unpack (pack_head a ns nv) 0 32 = a mod 2 ^ 32
  /\ bit_unpack (pack_head a ns nv) 32 32 = ns mod 2 ^ 32
  /\ bit_unpack (pack_head a ns nv) 64 32 = nv mod 2 ^ 32.
Proof.
  unfold pack_head. cbv zeta.
  change (8 * 4) with 32. change (0 + 32) with 32. change (32 + 32) with 64.
  repeat split.
  - rewrite !bit_unpack_pack_other by lia.
    apply bit_unpack_pack_same; cbn [length replicate]; lia.
  - rewrite bit_unpack_pack_other by lia.
    apply bit_unpack_pack_same;
      rewrite ?length_bit_pack; cbn [length replicate]; lia.
  - apply bit_unpack_pack_same;
      rewrite ?length_bit_pack; cbn [length replicate]; lia.
Qed.

Lemma length_write_head i j a ns nv (ofp : file) :
  in_grid i j -> header_end <= Z.of_nat (length (data ofp)) ->
  length (data (write_head i j a ns nv ofp)) = length (data ofp).
Proof.
  intros Hg Hlen. pose proof (header_offset_grid i j Hg) as [H1 H2].
  apply Nat2Z.inj. unfold write_head.
  rewrite length_fwrite by (cbn [cursor fseek_set]; lia).
  cbn [cursor data fseek_set]. rewrite length_pack_head. lia.
Qed.

Lemma lookup_write_head i j a ns nv (ofp : file) (k : nat) :
  in_grid i j -> header_offset i j + 12 <= Z.of_nat (length (data ofp)) ->
  data (write_head i j a ns nv ofp) !! k =
    if decide (header_offset i j <= Z.of_nat k < header_offset i j + 12)
    then pack_head a ns nv !! (k - Z.to_nat (header_offset i j))%nat
    else data ofp !! k.
Proof.
  intros Hg Hlen. pose proof (header_offset_grid i j Hg) as [H1 H2].
  unfold write_head.
  rewrite lookup_fwrite by (cbn [cursor fseek_set]; lia).
  cbn [cursor data fseek_set]. rewrite length_pack_head.
  repeat case_decide; try lia; done.
Qed.

Lemma read_entry_write_head_same i j a ns nv (ofp : file) :
  in_grid i j -> header_offset i j + 12 <= Z.of_nat (length (data ofp)) ->
  read_entry (data (write_head i j a ns nv ofp)) i j
  = (a mod 2 ^ 32, ns mod 2 ^ 32, nv mod 2 ^ 32).
Proof.
  intros Hg Hlen. pose proof (header_offset_grid i j Hg) as [H1 H2].
  unfold read_entry.
  replace (take 12 (drop (Z.to_nat (header_offset i j))
                      (data (write_head i j a ns nv ofp))))
    with (pack_head a ns nv).
  - destruct (read_pack_head a ns nv) as (-> & -> & ->). done.
  - apply list_eq. intros n.
    destruct (decide (n < 12)%nat) as [Hn|Hn].
    + rewrite lookup_take_lt, lookup_drop by done.
      rewrite lookup_write_head by done.
      rewrite decide_True by lia. f_equal. lia.
    + rewrite lookup_take_ge by lia.
      apply lookup_ge_None_2. rewrite length_pack_head. lia.
Qed.

Lemma read_entry_write_head_other i j a ns nv (ofp : file) i' j' :
  in_grid i j -> in_grid i' j' -> (i, j) <> (i', j') ->
  header_offset i j + 12 <= Z.of_nat (length (data ofp)) ->
  read_entry (data (write_head i j a ns nv ofp)) i' j'
  = read_entry (data ofp) i' j'.
Proof.
  intros Hg Hg' Hne Hlen.
  pose proof (header_offset_grid i' j' Hg') as [H1 H2].
  pose proof (header_offset_disjoint i j i' j' Hg Hg' Hne).
  apply read_entry_ext; [lia|]. intros k Hk.
  rewrite lookup_write_head by done.
  rewrite decide_False by lia. done.
Qed.

(** A block appended to the file leaves the index table as it is. *)
Lemma table_ok_app (d suffix : bytes) : table_ok d -> table_ok (d ++ suffix).
Proof.
  intros [Hlen Hentries]. split.
  - rewrite length_app. lia.
  - intros i j Hg. pose proof (header_offset_grid i j Hg) as [H1 H2].
    rewrite <- (read_entry_ext d (d ++ suffix)); [by apply Hentries|lia|].
    intros k Hk. rewrite lookup_app_l by lia. done.
Qed.

(** The entry of a cell with segments may be written over the table. *)
Lemma table_ok_write_head i j a ns nv (ofp : file) :
  in_grid i j -> 1 <= ns < 2 ^ 32 ->
  table_ok (data ofp) ->
  table_ok (data (write_head i j a ns nv ofp)).
Proof.
  intros Hg Hns [Hlen Hentries].
  pose proof (header_offset_grid i j Hg) as [H1 H2].
  split.
  - rewrite length_write_head by done. done.
  - intros i' j' Hg'.
    destruct (decide ((i, j) = (i', j'))) as [[= <- <-]|Hne].
    + rewrite read_entry_write_head_same by (done || lia).
      unfold entry_ok. cbn [fst snd].
      rewrite Z.mod_small by lia. lia.
    + rewrite read_entry_write_head_other by (done || lia).
      by apply Hentries.
Qed.

Lemma absent_zero_app files (d suffix : bytes) :
  header_end <= Z.of_nat (length d) ->
  absent_zero files d -> absent_zero files (d ++ suffix).
Proof.
  intros Hlen Hzero i j Hg Hnone.
  pose proof (header_offset_grid i j Hg) as [H1 H2].
  rewrite <- (read_entry_ext d (d ++ suffix)); [by apply Hzero|lia|].
  intros k Hk. rewrite lookup_app_l by lia. done.
Qed.

Lemma absent_zero_write_head files i j a ns nv (ofp : file) :
  in_grid i j -> is_Some (files !! (j, i)) ->
  header_end <= Z.of_nat (length (data ofp)) ->
  absent_zero files (data ofp) ->
  absent_zero files (data (write_head i j a ns nv ofp)).
Proof.
  intros Hg [records Hsome] Hlen Hzero i' j' Hg' Hnone.
  pose proof (header_offset_grid i j Hg) as [H1 H2].
  rewrite read_entry_write_head_other; [by apply Hzero|done|done| |lia].
  intros [= <- <-]. congruence.
Qed.

End OutputFile.

(** ** The index table through pass 2 *)

Section IndexTable.

Import Encoder Ingester Output Invariants.

Lemma elem_of_cells_of rows cols i j :
  (i, j) ∈ cells_of rows cols <-> (0 <= i < rows /\ 0 <= j < cols).
Proof.
  unfold cells_of. rewrite list_elem_of_bind. split.
  - intros (i' & Hj & Hi). apply elem_of_seqZ in Hi.
    apply list_elem_of_fmap in Hj as (j' & [= -> ->] & Hj).
    apply elem_of_seqZ in Hj. lia.
  - intros [Hi Hj]. exists i. split.
    + apply list_elem_of_fmap. exists j. split; [done|].
      apply elem_of_seqZ. lia.
    + apply elem_of_seqZ. lia.
Qed.

Lemma elem_of_grid i j : (i, j) ∈ grid <-> in_grid i j.
Proof. apply elem_of_cells_of. Qed.

(** The segments of a cell are appended; the count of segments is the
    number of staged segments which are not empty. *)
Lemma encode_records_spec i j records : forall (ofp : file) ns nv,
    cursor ofp = Z.of_nat (length (data ofp)) ->
    match encode_records i j records ofp ns nv with
    | Done (ofp', ns', nv') =>
        (exists suffix, data ofp' = data ofp ++ suffix)
        /\ cursor ofp' = Z.of_nat (length (data ofp'))
        /\ ns <= ns' <= ns + Z.of_nat (length records)
        /\ (has_segment records -> ns + 1 <= ns')
    | Exit code e ofp' =>
        code = -1 /\ exists suffix, data ofp' = data ofp ++ suffix
    end.
Proof.
  induction records as [|seg records IH]; intros ofp ns nv Hc.
  - cbn [encode_records length]. split; [by exists []; rewrite app_nil_r|].
    split; [done|]. split; [lia|].
    intros (s & Hin & _). by apply elem_of_nil in Hin.
  - cbn [encode_records].
    destruct (Z.eqb_spec (Z.of_nat (length seg)) 0) as [Hz|Hz].
    + specialize (IH ofp ns nv Hc).
      destruct (encode_records i j records ofp ns nv) as [[[ofp' ns'] nv']|];
        [|done].
      destruct IH as (Hsuf & Hcur & Hns & Hhas).
      split; [done|]. split; [done|]. split; [cbn [length]; lia|].
      intros (s & Hin & Hne). apply Hhas. exists s. split; [|done].
      apply elem_of_cons in Hin as [->|Hin]; [|done].
      destruct seg; [done | cbn [length] in Hz; lia].
    + destruct (encode_segment i j seg) as [e|buffer].
      * split; [done|]. exists []. by rewrite app_nil_r.
      * assert (Hc' : cursor (fwrite buffer ofp)
                      = Z.of_nat (length (data (fwrite buffer ofp)))).
        { rewrite cursor_fwrite, fwrite_append, length_app by done. lia. }
        specialize (IH (fwrite buffer ofp) (ns + 1)
                      (nv + Z.of_nat (length seg)) Hc').
        rewrite fwrite_append in IH by done.
        destruct (encode_records i j records (fwrite buffer ofp) (ns + 1)
                    (nv + Z.of_nat (length seg))) as [[[ofp' ns'] nv']|].
        -- destruct IH as ((suffix & Hsuf) & Hcur & Hns & Hhas).
           split; [exists (buffer ++ suffix); by rewrite Hsuf, app_assoc|].
           split; [done|]. split; [cbn [length]; lia|]. lia.
        -- destruct IH as (Hcode & suffix & Hsuf).
           split; [done|].
           exists (buffer ++ suffix). by rewrite Hsuf, app_assoc.
Qed.

Section CellLoop.

Variable files : gmap (Z * Z) (list segment).
Hypothesis Hstaged :
  forall c records, files !! c = Some records -> has_segment records.
Hypothesis Hsmall :
  forall c records,
    files !! c = Some records -> Z.of_nat (length records) < 2 ^ 32.

Lemma encode_cell_table i j (ofp : file) :
  in_grid i j ->
  table_ok (data ofp) -> absent_zero files (data ofp) ->
  cursor ofp = Z.of_nat (length (data ofp)) ->
  match encode_cell files i j ofp with
  | Done ofp' =>
      table_ok (data ofp') /\ absent_zero files (data ofp')
      /\ cursor ofp' = Z.of_nat (length (data ofp'))
  | Exit code e ofp' =>
      code = -1 /\ table_ok (data ofp') /\ absent_zero files (data ofp')
  end.
Proof.
  intros Hg Htable Hzero Hc. unfold encode_cell.
  destruct (files !! (j, i)) as [records|] eqn:Hl; [|done].
  pose proof (encode_records_spec i j records ofp 0 0 Hc) as Hspec.
  pose proof Htable as [Hlen _].
  destruct (encode_records i j records ofp 0 0) as [[[ofp' ns'] nv']|].
  - destruct Hspec as ((suffix & Hsuf) & Hcur & Hns & Hhas).
    specialize (Hhas (Hstaged _ _ Hl)).
    pose proof (Hsmall _ _ Hl).
    cbn [data cursor fseek_end].
    assert (Htable' : table_ok (data ofp'))
      by (rewrite Hsuf; by apply table_ok_app).
    split; [|split; [|done]].
    + by apply (table_ok_write_head i j (ftell ofp) ns' nv' ofp' Hg
                  ltac:(lia)).
    + apply (absent_zero_write_head files i j (ftell ofp) ns' nv' ofp' Hg);
        [by rewrite Hl | apply Htable' |].
      rewrite Hsuf. by apply absent_zero_app.
  - destruct Hspec as (Hcode & suffix & Hsuf).
    split; [done|]. rewrite Hsuf.
    split; [by apply table_ok_app | by apply absent_zero_app].
Qed.

Lemma encode_cells_table cells : forall ofp : file,
    Forall (fun ij => in_grid ij.1 ij.2) cells ->
    table_ok (data ofp) -> absent_zero files (data ofp) ->
    cursor ofp = Z.of_nat (length (data ofp)) ->
    match encode_cells files cells ofp with
    | Done ofp' => table_ok (data ofp') /\ absent_zero files (data ofp')
    | Exit code e ofp' =>
        code = -1 /\ table_ok (data ofp') /\ absent_zero files (data ofp')
    end.
Proof.
  induction cells as [|[i j] cells IH]; intros ofp Hall Htable Hzero Hc;
    [done|].
  inversion Hall as [|? ? Hg Hrest]; subst. cbn [fst snd] in Hg.
  cbn [encode_cells fst snd].
  pose proof (encode_cell_table i j ofp Hg Htable Hzero Hc) as Hcell.
  destruct (encode_cell files i j ofp) as [ofp'|code e ofp']; [|done].
  destruct Hcell as (Htable' & Hzero' & Hc'). by apply IH.
Qed.

End CellLoop.

End IndexTable.

(** ** The header area *)

Section HeaderArea.

Import Encoder Ingester Output Invariants.

Lemma pack_head_zero : pack_head 0 0 0 = replicate 12 0.
Proof. vm_compute. reflexivity. Qed.

Lemma write_head_zero i j (ofp : file) :
  in_grid i j -> zero_table (data ofp) ->
  zero_table (data (write_head i j 0 0 0 ofp))
  /\ header_offset i j + 12
     <= Z.of_nat (length (data (write_head i j 0 0 0 ofp)))
  /\ (length (data ofp) <= length (data (write_head i j 0 0 0 ofp)))%nat.
Proof.
  intros Hg [Hlen Hzero]. pose proof (header_offset_grid i j Hg) as [H1 H2].
  assert (Hl : Z.of_nat (length (data (write_head i j 0 0 0 ofp)))
               = Z.max (Z.of_nat (length (data ofp)))
                   (header_offset i j + 12)).
  { unfold write_head.
    rewrite length_fwrite by (cbn [cursor fseek_set]; lia).
    cbn [cursor data fseek_set]. rewrite length_pack_head. lia. }
  split; [split|]; [lia | | lia].
  intros k b Hk. unfold write_head.
  rewrite lookup_fwrite by (cbn [cursor fseek_set]; lia).
  cbn [cursor data fseek_set]. rewrite pack_head_zero.
  repeat case_decide.
  - by apply Hzero.
  - by intros [= <-].
  - intros Hb. by apply lookup_replicate_1 in Hb as [-> _].
  - by apply Hzero.
Qed.

Lemma init_header_zero cells : forall ofp : file,
    Forall (fun ij => in_grid ij.1 ij.2) cells ->
    zero_table (data ofp) ->
    zero_table (data (init_header_on cells ofp))
    /\ (length (data ofp) <= length (data (init_header_on cells ofp)))%nat
    /\ Forall (fun ij => header_offset ij.1 ij.2 + 12
                         <= Z.of_nat (length
                                        (data (init_header_on cells ofp))))
         cells.
Proof.
  induction cells as [|[i j] cells IH]; intros ofp Hall Hz.
  - cbn [init_header_on foldl]. repeat split; [apply Hz..|lia|constructor].
  - inversion Hall as [|? ? Hg Hrest]; subst. cbn [fst snd] in Hg.
    destruct (write_head_zero i j ofp Hg Hz) as (Hz1 & Hoff & Hmono).
    destruct (IH (write_head i j 0 0 0 ofp) Hrest Hz1)
      as (Hz2 & Hmono2 & Hoffs).
    change (init_header_on ((i, j) :: cells) ofp)
      with (init_header_on cells (write_head i j 0 0 0 ofp)).
    split; [done|]. split; [lia|].
    constructor; [cbn [fst snd]; lia | done].
Qed.

Lemma grid_last : exists cells, grid = cells ++ [(179, 359)].
Proof. apply last_Some. vm_compute. reflexivity. Qed.

Lemma grid_in_grid : Forall (fun ij => in_grid ij.1 ij.2) grid.
Proof.
  apply Forall_forall. intros [i j] Hin. by apply elem_of_grid.
Qed.

Lemma read_entry_zero (d : bytes) i j :
  in_grid i j -> zero_table d ->
  header_offset i j + 12 <= Z.of_nat (length d) ->
  read_entry d i j = (0, 0, 0).
Proof.
  intros Hg [Hlen Hzero] Hoff.
  pose proof (header_offset_grid i j Hg) as [H1 H2].
  unfold read_entry.
  replace (take 12 (drop (Z.to_nat (header_offset i j)) d))
    with (replicate 12 0); [by vm_compute|].
  apply list_eq. intros n.
  destruct (decide (n < 12)%nat) as [Hn|Hn].
  - rewrite lookup_take_lt, lookup_drop by done.
    rewrite lookup_replicate_2 by done.
    destruct (lookup_lt_is_Some_2 d (Z.to_nat (header_offset i j) + n)
                ltac:(lia)) as [b Hb].
    rewrite Hb. f_equal. symmetry.
    apply (Hzero (Z.to_nat (header_offset i j) + n)%nat b); [lia | done].
  - rewrite lookup_take_ge by lia.
    apply lookup_ge_None_2. rewrite length_replicate. lia.
Qed.

Lemma init_header_version cells : forall ofp : file,
    Forall (fun ij => in_grid ij.1 ij.2) cells ->
    (128 <= length (data ofp))%nat ->
    take 128 (data (init_header_on cells ofp)) = take 128 (data ofp)
    /\ (128 <= length (data (init_header_on cells ofp)))%nat.
Proof.
  induction cells as [|[i j] cells IH]; intros ofp Hall Hlen; [done|].
  inversion Hall as [|? ? Hg Hrest]; subst. cbn [fst snd] in Hg.
  pose proof (header_offset_grid i j Hg) as [H1 H2].
  change (init_header_on ((i, j) :: cells) ofp)
    with (init_header_on cells (write_head i j 0 0 0 ofp)).
  assert (Hl : (128 <= length (data (write_head i j 0 0 0 ofp)))%nat).
  { apply Nat2Z.inj_le. unfold write_head.
    rewrite length_fwrite by (cbn [cursor fseek_set]; lia).
    cbn [data fseek_set]. lia. }
  destruct (IH _ Hrest Hl) as [-> Hl2]. split; [|done].
  apply list_eq. intros n.
  destruct (decide (n < 128)%nat) as [Hn|Hn].
  - rewrite !lookup_take_lt by done. unfold write_head.
    rewrite lookup_fwrite by (cbn [cursor fseek_set]; lia).
    cbn [cursor data fseek_set].
    rewrite decide_True by lia. by rewrite decide_True by lia.
  - by rewrite !lookup_take_ge by lia.
Qed.

(** The output file before the first cell, for cells which are those of
    the index table and end with the last of them: the version, the index
    table with every entry zero, and the position at the end. *)
Lemma open_output_on_table (cells : list (Z * Z)) :
  (forall i j, (i, j) ∈ cells <-> in_grid i j) ->
  (exists cells', cells = cells' ++ [(179, 359)]) ->
  table_ok (data (open_output_on cells))
  /\ cursor (open_output_on cells)
     = Z.of_nat (length (data (open_output_on cells)))
  /\ Z.of_nat (length (data (open_output_on cells))) = header_end
  /\ take 128 (data (open_output_on cells)) = version.
Proof.
  intros Hcells [cells' Hlastcell].
  assert (Hall : Forall (fun ij => in_grid ij.1 ij.2) cells).
  { apply Forall_forall. intros [i j] Hin. by apply Hcells. }
  assert (Hz0 : zero_table (data (fwrite version fopen_wb))).
  { split; [by vm_compute|]. intros k b Hk Hb.
    apply lookup_lt_Some in Hb. change (length _) with 128%nat in Hb. lia. }
  unfold open_output_on.
  destruct (init_header_zero cells (fwrite version fopen_wb) Hall Hz0)
    as (Hz & Hmono & Hoffs).
  assert (Hlast : (179, 359) ∈ cells) by (apply Hcells; by vm_compute).
  pose proof (proj1 (Forall_forall _ _) Hoffs _ Hlast) as Hend.
  cbn [fst snd] in Hend.
  change (header_offset 179 359 + 12) with header_end in Hend.
  pose proof Hz as [[_ Hle] _].
  split; [|split; [|split; [lia|]]].
  - split; [done|]. intros i j Hg.
    rewrite read_entry_zero; [by intros _| done | done |].
    pose proof (header_offset_grid i j Hg). lia.
  - assert (Hcur : cursor (init_header_on cells (fwrite version fopen_wb))
                   = header_end).
    { rewrite Hlastcell. unfold init_header_on. rewrite foldl_app.
      cbn [foldl fst snd]. unfold write_head. rewrite cursor_fwrite.
      cbn [cursor fseek_set]. by rewrite length_pack_head. }
    lia.
  - destruct (init_header_version cells (fwrite version fopen_wb) Hall
                ltac:(by vm_compute)) as [-> _].
    by vm_compute.
Qed.

Lemma open_output_table :
  table_ok (data (open_output_on grid))
  /\ cursor (open_output_on grid)
     = Z.of_nat (length (data (open_output_on grid)))
  /\ Z.of_nat (length (data (open_output_on grid))) = header_end
  /\ take 128 (data (open_output_on grid)) = version.
Proof.
  apply open_output_on_table; [apply elem_of_grid | apply grid_last].
Qed.

End HeaderArea.

(** ** Header density *)

Section HeaderDensity.

Import Encoder Ingester Output Invariants.

Lemma open_output_absent_zero files :
  absent_zero files (data (open_output_on grid)).
Proof.
  intros i j Hg _.
  assert (Hall : Forall (fun ij => in_grid ij.1 ij.2) grid)
    by apply grid_in_grid.
  assert (Hz0 : zero_table (data (fwrite version fopen_wb))).
  { split; [by vm_compute|]. intros k b Hk Hb.
    apply lookup_lt_Some in Hb. change (length _) with 128%nat in Hb. lia. }
  destruct (init_header_zero grid (fwrite version fopen_wb) Hall Hz0)
    as (Hz & _ & _).
  destruct open_output_table as (_ & _ & Hlen & _).
  apply read_entry_zero; [done | exact Hz |].
  pose proof (header_offset_grid i j Hg). lia.
Qed.

Lemma grid_length : Z.of_nat (length grid) = 64800.
Proof. vm_compute. reflexivity. Qed.

(** C8.  Header density: after pass 1 on inputs within the input range,
    whatever pass 2 leaves in the output file, whether it ends or exits,
    holds the index table of 64800 entries of twelve bytes from byte 128,
    the entry of the cell of latitude index [i] and longitude index [j] at
    [128 + 12 (360 i + j)]; every entry without segments is zero, and so is
    the entry of every cell without staging file. *)
Theorem header_density (inputs : list (list SHPObject)) (st : state)
    (ofp : file) :
  valid_inputs inputs ->
  pass1 inputs = Ok st ->
  (forall c records,
      files st !! c = Some records -> Z.of_nat (length records) < 2 ^ 32) ->
  (pass2 (files st) = Done ofp
   \/ exists code e, pass2 (files st) = Exit code e ofp) ->
  Z.of_nat (length grid) = 64800
  /\ (forall i j, (i, j) ∈ grid <-> (0 <= i < 180 /\ 0 <= j < 360))
  /\ 128 + 64800 * 12 <= Z.of_nat (length (data ofp))
  /\ forall i j,
      0 <= i < 180 -> 0 <= j < 360 ->
      header_offset i j = 128 + 12 * (i * 360 + j)
      /\ header_offset i j + 12 <= 128 + 64800 * 12
      /\ (let '(address, segmentCount, vertexCount) :=
            read_entry (data ofp) i j in
          segmentCount = 0 -> address = 0 /\ vertexCount = 0)
      /\ (files st !! (j, i) = None -> read_entry (data ofp) i j = (0, 0, 0)).
Proof.
  intros Hvalid Hpass Hsmall Hrun.
  pose proof (pass1_files inputs st Hvalid Hpass) as Hstaged.
  destruct open_output_table as (Htable0 & Hcur0 & _ & _).
  pose proof (encode_cells_table (files st) Hstaged Hsmall grid
                (open_output_on grid) grid_in_grid Htable0
                (open_output_absent_zero (files st)) Hcur0) as Hcells.
  unfold pass2, pass2_on in Hrun.
  assert (Hfinal : table_ok (data ofp) /\ absent_zero (files st) (data ofp)).
  { destruct Hrun as [Hrun|(code & e & Hrun)]; rewrite Hrun in Hcells;
      cbv beta iota in Hcells.
    - exact Hcells.
    - destruct Hcells as (_ & Ha & Hb). exact (conj Ha Hb). }
  clear Hcells Hrun Htable0 Hcur0.
  destruct Hfinal as [[Hlen Hentries] Hzero].
  split; [exact grid_length|]. split; [apply elem_of_grid|].
  split; [exact Hlen|].
  intros i j Hi Hj.
  assert (Hg : in_grid i j) by (split; assumption).
  pose proof (header_offset_grid i j Hg) as [_ Hoff].
  split; [unfold header_offset; lia|]. split; [exact Hoff|].
  split; [|exact (Hzero i j Hg)].
  specialize (Hentries i j Hg). unfold entry_ok in Hentries.
  destruct (read_entry (data ofp) i j) as [[address segmentCount] vertexCount].
  exact Hentries.
Qed.

End HeaderDensity.

Section HeaderDensityExample.

Import Encoder Ingester Output Invariants Samples.

Lemma two_points_valid : valid_inputs [[two_points]].
Proof.
  repeat constructor; unfold Qle; simpl; lia.
Qed.

Lemma header_density_witness :
  exists st ofp,
    pass1 [[two_points]] = Ok st
    /\ (pass2 (files st) = Done ofp
        \/ exists code e, pass2 (files st) = Exit code e ofp)
    /\ 128 + 64800 * 12 <= Z.of_nat (length (data ofp))
    /\ read_entry (data ofp) 0 0 = (0, 0, 0).
Proof.
  destruct (two_point_shape_split
              ((-1695 # 10)%Q, (-795 # 10)%Q) ((-1685 # 10)%Q, (-795 # 10)%Q))
    as (st & Hpass & Hfiles).
  - vm_compute. reflexivity.
  - vm_compute. congruence.
  - assert (Hsmall : forall c records,
               files st !! c = Some records ->
               Z.of_nat (length records) < 2 ^ 32).
    { intros c records Hl. rewrite Hfiles in Hl.
      apply lookup_insert_Some in Hl as [[_ <-]|[_ Hl]]; [simpl; lia|].
      apply lookup_singleton_Some in Hl as [_ <-]. simpl. lia. }
    assert (Hnone : files st !! (0, 0) = None).
    { rewrite Hfiles. vm_compute. reflexivity. }
    exists st.
    destruct (pass2 (files st)) as [ofp|code e ofp] eqn:Hrun.
    + exists ofp.
      destruct (header_density [[two_points]] st ofp two_points_valid
                  Hpass Hsmall (or_introl Hrun))
        as (_ & _ & Hlen & Hentries).
      destruct (Hentries 0 0 ltac:(lia) ltac:(lia)) as (_ & _ & _ & Hzero).
      split; [exact Hpass|]. split; [by left|].
      split; [exact Hlen | exact (Hzero Hnone)].
    + exists ofp.
      destruct (header_density [[two_points]] st ofp two_points_valid
                  Hpass Hsmall
                  (or_intror (ex_intro _ code (ex_intro _ e Hrun))))
        as (_ & _ & Hlen & Hentries).
      destruct (Hentries 0 0 ltac:(lia) ltac:(lia)) as (_ & _ & _ & Hzero).
      split; [exact Hpass|]. split; [right; by exists code, e|].
      split; [exact Hlen | exact (Hzero Hnone)].
Defined.

End HeaderDensityExample.

(** ** The widths of 32-bit values *)

Section WidthBound.

Import Encoder Spec.






End WidthBound.

(** ** The blocks of the cells in the output file *)

Section CellRecords.

Import Encoder Output Invariants Contents.

Lemma cell_blocks_cons_empty i j records :
  cell_blocks i j ([] :: records) = cell_blocks i j records.
Proof.
  unfold cell_blocks. rewrite filter_cons_False; [done|].
  intros H. by apply H.
Qed.

Lemma cell_blocks_cons i j seg records block :
  seg <> [] -> encode_segment i j seg = inr block ->
  cell_blocks i j (seg :: records) = block :: cell_blocks i j records.
Proof.
  intros Hne He. unfold cell_blocks. rewrite filter_cons_True by done.
  cbn [omap list_omap]. by rewrite He.
Qed.

(** What the loop over the records of a staging file leaves when it ends:
    the blocks of the records which are not empty, appended in order, and
    the counts of these records and of their vertices. *)
Lemma encode_records_blocks i j records :
  forall (ofp ofp' : file) ns nv ns' nv',
    cursor ofp = Z.of_nat (length (data ofp)) ->
    encode_records i j records ofp ns nv = Done (ofp', ns', nv') ->
    data ofp' = data ofp ++ concat (cell_blocks i j records)
    /\ cursor ofp' = Z.of_nat (length (data ofp'))
    /\ ns' = ns + Z.of_nat (length (filter (fun seg => seg <> []) records))
    /\ nv' = nv + Z.of_nat (length (concat records))
    /\ length (cell_blocks i j records)
       = length (filter (fun seg => seg <> []) records).
Proof.
  induction records as [|seg records IH];
    intros ofp ofp' ns nv ns' nv' Hc Hrun.
  - injection Hrun as <- <- <-. cbn. rewrite app_nil_r. repeat split; lia.
  - cbn [encode_records] in Hrun. destruct seg as [|v seg].
    + change (Z.of_nat (length (@nil vertex)) =? 0) with true in Hrun.
      cbn iota in Hrun.
      rewrite cell_blocks_cons_empty, filter_cons_False
        by (intros H; by apply H).
      by apply IH.
    + assert (Hz : (Z.of_nat (length (v :: seg)) =? 0) = false)
        by (apply Z.eqb_neq; cbn [length]; lia).
      rewrite Hz in Hrun.
      destruct (encode_segment i j (v :: seg)) as [e|block] eqn:He;
        [discriminate|].
      apply IH in Hrun as (Hd & Hcur & Hns & Hnv & Hlen).
      * rewrite (cell_blocks_cons i j (v :: seg) records block) by done.
        rewrite filter_cons_True by done.
        rewrite fwrite_append in Hd by done.
        split; [by rewrite Hd; cbn [concat]; rewrite app_assoc|].
        split; [done|].
        change (concat ((v :: seg) :: records))
          with ((v :: seg) ++ concat records).
        rewrite length_app. cbn [length] in *. lia.
      * rewrite cursor_fwrite, fwrite_append, length_app by done. lia.
Qed.

(** The loop over the records ends, rather than exits, exactly when every
    record which is not empty is packed. *)
Lemma encode_records_done i j records :
  forall (ofp : file) ns nv,
    (exists r, encode_records i j records ofp ns nv = Done r)
    <-> (forall seg, seg ∈ records -> seg <> [] ->
                     exists block, encode_segment i j seg = inr block).
Proof.
  induction records as [|seg records IH]; intros ofp ns nv.
  - split; [|by eexists]. intros _ seg Hin. by apply elem_of_nil in Hin.
  - cbn [encode_records]. destruct seg as [|v seg].
    + change (Z.of_nat (length (@nil vertex)) =? 0) with true. cbn iota.
      rewrite IH. split.
      * intros H seg Hin Hne.
        apply elem_of_cons in Hin as [->|Hin]; [done | by apply H].
      * intros H seg Hin. apply H. by apply elem_of_cons; right.
    + assert (Hz : (Z.of_nat (length (v :: seg)) =? 0) = false)
        by (apply Z.eqb_neq; cbn [length]; lia).
      rewrite Hz.
      destruct (encode_segment i j (v :: seg)) as [e|block] eqn:He.
      * split; [by intros [r Hr]|]. intros H.
        destruct (H (v :: seg)) as [b Hb];
          [by apply elem_of_cons; left | done | congruence].
      * rewrite IH. split.
        -- intros H s Hin Hne.
           apply elem_of_cons in Hin as [->|Hin]; [by exists block|].
           by apply H.
        -- intros H s Hin. apply H. by apply elem_of_cons; right.
Qed.

End CellRecords.

Section CellLayout.

Import Encoder Output Invariants Contents.

(** An index entry is written inside the index table. *)
Lemma lookup_write_head_outside i j a ns nv (ofp : file) (k : nat) :
  in_grid i j -> header_end <= Z.of_nat (length (data ofp)) ->
  Z.of_nat k < 128 \/ header_end <= Z.of_nat k ->
  data (write_head i j a ns nv ofp) !! k = data ofp !! k.
Proof.
  intros Hg Hlen Hk. pose proof (header_offset_grid i j Hg) as [H1 H2].
  rewrite lookup_write_head by (done || lia).
  rewrite decide_False by lia. done.
Qed.

Lemma drop_write_head i j a ns nv (ofp : file) :
  in_grid i j -> header_end <= Z.of_nat (length (data ofp)) ->
  drop (Z.to_nat header_end) (data (write_head i j a ns nv ofp))
  = drop (Z.to_nat header_end) (data ofp).
Proof.
  intros Hg Hlen. apply list_eq. intros k. rewrite !lookup_drop.
  apply lookup_write_head_outside; [done | done | lia].
Qed.

Lemma take_write_head i j a ns nv (ofp : file) :
  in_grid i j -> header_end <= Z.of_nat (length (data ofp)) ->
  take 128 (data (write_head i j a ns nv ofp)) = take 128 (data ofp).
Proof.
  intros Hg Hlen. apply list_eq. intros k.
  destruct (decide (k < 128)%nat) as [Hk|Hk].
  - rewrite !lookup_take_lt by done.
    apply lookup_write_head_outside; [done | done | lia].
  - by rewrite !lookup_take_ge by lia.
Qed.

Lemma read_entry_app (d suffix : bytes) i j :
  in_grid i j -> header_end <= Z.of_nat (length d) ->
  read_entry (d ++ suffix) i j = read_entry d i j.
Proof.
  intros Hg Hlen. pose proof (header_offset_grid i j Hg) as [H1 H2].
  symmetry. apply read_entry_ext; [lia|].
  intros k Hk. rewrite lookup_app_l by lia. done.
Qed.

Lemma header_end_128 : 128 <= header_end.
Proof. unfold header_end. lia. Qed.

(** One cell which ends: the blocks of its records are appended, its index
    entry is written, and nothing else of the file changes. *)
Lemma encode_cell_layout files i j (ofp ofp' : file) :
  in_grid i j ->
  header_end <= Z.of_nat (length (data ofp)) ->
  cursor ofp = Z.of_nat (length (data ofp)) ->
  encode_cell files i j ofp = Done ofp' ->
  cursor ofp' = Z.of_nat (length (data ofp'))
  /\ length (data ofp')
     = (length (data ofp) + length (cell_bytes files (i, j)))%nat
  /\ drop (Z.to_nat header_end) (data ofp')
     = drop (Z.to_nat header_end) (data ofp) ++ cell_bytes files (i, j)
  /\ take 128 (data ofp') = take 128 (data ofp)
  /\ (forall i' j', in_grid i' j' -> (i', j') <> (i, j) ->
                    read_entry (data ofp') i' j' = read_entry (data ofp) i' j')
  /\ (forall records,
         files !! (j, i) = Some records ->
         read_entry (data ofp') i j
         = (Z.of_nat (length (data ofp)) mod 2 ^ 32,
            Z.of_nat (length (filter (fun seg => seg <> []) records))
              mod 2 ^ 32,
            Z.of_nat (length (concat records)) mod 2 ^ 32)).
Proof.
  intros Hg Hlen Hc Hrun. unfold encode_cell in Hrun.
  unfold cell_bytes. cbn [fst snd].
  destruct (files !! (j, i)) as [records|] eqn:Hl.
  - destruct (encode_records i j records ofp 0 0) as [[[ofp1 ns] nv]|]
      eqn:Hrec; [|discriminate].
    injection Hrun as <-.
    apply encode_records_blocks in Hrec as (Hd & Hcur & Hns & Hnv & _);
      [|done].
    change (fwrite (pack_head (ftell ofp) ns nv)
              (fseek_set (header_offset i j) ofp1))
      with (write_head i j (ftell ofp) ns nv ofp1).
    cbn [data cursor fseek_end].
    assert (Hlen1 : header_end <= Z.of_nat (length (data ofp1)))
      by (rewrite Hd, length_app; lia).
    pose proof (header_offset_grid i j Hg) as [H1 H2].
    split; [done|].
    split; [by rewrite length_write_head, Hd, length_app by done|].
    split.
    { rewrite drop_write_head, Hd by done.
      rewrite drop_app_le by lia. done. }
    split.
    { rewrite take_write_head, Hd by done.
      pose proof header_end_128. by rewrite take_app_le by lia. }
    split.
    { intros i' j' Hg' Hne.
      rewrite read_entry_write_head_other by (done || lia).
      rewrite Hd. by apply read_entry_app. }
    intros r [= <-].
    rewrite read_entry_write_head_same by (done || lia).
    unfold ftell. rewrite Hc, Hns, Hnv. done.
  - injection Hrun as <-. rewrite !app_nil_r.
    split; [done|]. split; [cbn [length]; lia|].
    split; [done|]. split; [done|]. split; [done|]. done.
Qed.

Lemma NoDup_cells_of rows cols : NoDup (cells_of rows cols).
Proof.
  unfold cells_of. apply NoDup_bind.
  - intros i1 i2 ij _ _ H1 H2.
    apply list_elem_of_fmap in H1 as (j1 & -> & _).
    by apply list_elem_of_fmap in H2 as (j2 & [= -> _] & _).
  - intros i _. apply NoDup_fmap_2; [|apply NoDup_seqZ].
    by intros j1 j2 [= ->].
  - apply NoDup_seqZ.
Qed.

(** The loop over the cells when it ends. *)
Lemma encode_cells_layout files cells : forall ofp ofp' : file,
    Forall (fun ij => in_grid ij.1 ij.2) cells -> NoDup cells ->
    header_end <= Z.of_nat (length (data ofp)) ->
    cursor ofp = Z.of_nat (length (data ofp)) ->
    encode_cells files cells ofp = Done ofp' ->
    drop (Z.to_nat header_end) (data ofp')
    = drop (Z.to_nat header_end) (data ofp)
      ++ concat (cell_bytes files <$> cells)
    /\ length (data ofp')
       = (length (data ofp)
          + length (concat (cell_bytes files <$> cells)))%nat
    /\ take 128 (data ofp') = take 128 (data ofp)
    /\ (forall i j, in_grid i j -> (i, j) ∉ cells ->
                    read_entry (data ofp') i j = read_entry (data ofp) i j)
    /\ (forall (k : nat) i j records,
           cells !! k = Some (i, j) ->
           files !! (j, i) = Some records ->
           read_entry (data ofp') i j
           = ((Z.of_nat (length (data ofp))
               + Z.of_nat (length (concat (cell_bytes files
                                             <$> take k cells))))
                mod 2 ^ 32,
              Z.of_nat (length (filter (fun seg => seg <> []) records))
                mod 2 ^ 32,
              Z.of_nat (length (concat records)) mod 2 ^ 32)).
Proof.
  induction cells as [|[i0 j0] cells IH];
    intros ofp ofp' Hall Hnd Hlen Hc Hrun.
  - injection Hrun as <-. cbn [fmap list_fmap concat]. rewrite app_nil_r.
    split; [done|]. split; [cbn [length]; lia|]. split; [done|].
    split; [done|]. intros k i j records Hk. by rewrite lookup_nil in Hk.
  - inversion Hall as [|? ? Hg Hrest]; subst. cbn [fst snd] in Hg.
    apply NoDup_cons in Hnd as [Hnotin Hnd].
    cbn [encode_cells fst snd] in Hrun.
    destruct (encode_cell files i0 j0 ofp) as [ofp1|] eqn:Hcell;
      [|discriminate].
    apply encode_cell_layout in Hcell
      as (Hc1 & Hlen1 & Hdrop1 & Htake1 & Hother1 & Hsame1); [|done..].
    apply IH in Hrun as (Hdrop & Hlen' & Htake & Hother & Hentry);
      [|done|done|lia|done].
    cbn [fmap list_fmap concat].
    split; [by rewrite Hdrop, Hdrop1, app_assoc|].
    split; [rewrite Hlen', Hlen1, length_app; lia|].
    split; [by rewrite Htake|].
    split.
    { intros i j Hgij Hni. apply not_elem_of_cons in Hni as [Hne Hni].
      rewrite Hother by done. by apply Hother1. }
    intros k i j records Hk Hl. destruct k as [|k].
    + injection Hk as -> ->. rewrite Hother by done.
      rewrite (Hsame1 records Hl). cbn [take fmap list_fmap concat length].
      by rewrite Z.add_0_r.
    + cbn [lookup list_lookup] in Hk.
      rewrite (Hentry k i j records Hk Hl).
      cbn [take fmap list_fmap concat]. rewrite Hlen1, !length_app.
      do 2 f_equal. f_equal. lia.
Qed.

End CellLayout.

Section CellOrder.

Import Encoder Output Invariants Contents.

Lemma NoDup_grid : NoDup grid.
Proof. apply NoDup_cells_of. Qed.

(** The cell of latitude index [i] and longitude index [j] is cell number
    [360 i + j] of the loops over the cells. *)
Lemma numbered_lookup (l : list (Z * Z)) : forall (k0 : Z) (b : bool),
    (foldl (fun (acc : Z * bool) (ij : Z * Z) =>
              (acc.1 + 1, acc.2 && (acc.1 =? ij.1 * 360 + ij.2)))
       (k0, b) l).2 = true ->
    b = true
    /\ forall (n : nat) ij,
        l !! n = Some ij -> k0 + Z.of_nat n = ij.1 * 360 + ij.2.
Proof.
  induction l as [|ij l IH]; intros k0 b H.
  - split; [exact H|]. intros n ij' Hn. by rewrite lookup_nil in Hn.
  - cbn [foldl fst snd] in H. apply IH in H as [Hb Hl].
    apply andb_prop in Hb as [Hb Hk]. apply Z.eqb_eq in Hk.
    split; [exact Hb|]. intros [|n] ij' Hn.
    + injection Hn as <-. lia.
    + cbn [lookup list_lookup] in Hn. specialize (Hl n ij' Hn). lia.
Qed.

Lemma grid_numbered :
  (foldl (fun (acc : Z * bool) (ij : Z * Z) =>
            (acc.1 + 1, acc.2 && (acc.1 =? ij.1 * 360 + ij.2)))
     (0, true) grid).2 = true.
Proof. vm_compute. reflexivity. Qed.

Lemma grid_index (k : nat) i j :
  grid !! k = Some (i, j) -> Z.of_nat k = i * 360 + j.
Proof.
  intros Hk.
  destruct (numbered_lookup grid 0 true grid_numbered) as [_ H].
  exact (H k (i, j) Hk).
Qed.

Lemma grid_lookup i j :
  in_grid i j -> grid !! Z.to_nat (i * 360 + j) = Some (i, j).
Proof.
  intros Hg. apply elem_of_grid in Hg.
  apply list_elem_of_lookup in Hg as [k Hk].
  pose proof (grid_index k i j Hk) as Hi.
  by replace (Z.to_nat (i * 360 + j)) with k by lia.
Qed.

End CellOrder.

Section OutputLayout.

Import Encoder Output Invariants Contents.

(** The blocks of a staging file whose records are all packed are the
    blocks of its records which are not empty, one for one. *)
Lemma cell_blocks_packed i j records :
  (forall seg, seg ∈ records -> seg <> [] ->
               exists block, encode_segment i j seg = inr block) ->
  Forall2 (fun seg block => encode_segment i j seg = inr block)
    (filter (fun seg => seg <> []) records) (cell_blocks i j records).
Proof.
  induction records as [|seg records IH]; intros Hall; [constructor|].
  assert (Hrest : forall s, s ∈ records -> s <> [] ->
                            exists block, encode_segment i j s = inr block).
  { intros s Hin. apply Hall. by apply elem_of_cons; right. }
  destruct seg as [|v seg].
  - rewrite cell_blocks_cons_empty, filter_cons_False
      by (intros H; by apply H).
    by apply IH.
  - destruct (Hall (v :: seg)) as [block Hb];
      [by apply elem_of_cons; left | done |].
    rewrite (cell_blocks_cons i j (v :: seg) records block) by done.
    rewrite filter_cons_True by done.
    constructor; [done | by apply IH].
Qed.

Lemma encode_cell_done files i j (ofp : file) :
  (exists ofp', encode_cell files i j ofp = Done ofp')
  <-> (forall records seg,
          files !! (j, i) = Some records -> seg ∈ records -> seg <> [] ->
          exists block, encode_segment i j seg = inr block).
Proof.
  unfold encode_cell. destruct (files !! (j, i)) as [records|].
  - pose proof (encode_records_done i j records ofp 0 0) as Hiff.
    destruct (encode_records i j records ofp 0 0) as [[[ofp1 ns] nv]|];
      split.
    + intros _ r seg [= <-]. apply Hiff. by eexists.
    + intros _. by eexists.
    + by intros [ofp' H].
    + intros H. destruct (proj2 Hiff) as [r Hr]; [|discriminate].
      intros seg. by apply H.
  - split; [by intros _ r seg H | by eexists].
Qed.

Lemma encode_cells_done files cells : forall ofp : file,
    (exists ofp', encode_cells files cells ofp = Done ofp')
    <-> (forall i j records seg,
            (i, j) ∈ cells -> files !! (j, i) = Some records ->
            seg ∈ records -> seg <> [] ->
            exists block, encode_segment i j seg = inr block).
Proof.
  induction cells as [|[i0 j0] cells IH]; intros ofp.
  - split; [|by eexists]. intros _ i j records seg Hin.
    by apply elem_of_nil in Hin.
  - cbn [encode_cells fst snd].
    pose proof (encode_cell_done files i0 j0 ofp) as Hcell.
    destruct (encode_cell files i0 j0 ofp) as [ofp1|code e ofp1].
    + rewrite IH. split.
      * intros H i j records seg Hin.
        apply elem_of_cons in Hin as [[= -> ->]|Hin]; [|by apply H].
        apply Hcell. by eexists.
      * intros H i j records seg Hin. apply H. by apply elem_of_cons; right.
    + split; [by intros [ofp' H]|]. intros H.
      destruct (proj2 Hcell) as [r Hr]; [|discriminate].
      intros records seg. apply H. by apply elem_of_cons; left.
Qed.

(** Whatever the loop over the cells leaves, the first 128 bytes are those
    it found. *)
Lemma encode_cells_version files cells : forall ofp : file,
    Forall (fun ij => in_grid ij.1 ij.2) cells ->
    header_end <= Z.of_nat (length (data ofp)) ->
    cursor ofp = Z.of_nat (length (data ofp)) ->
    take 128 (data (left_file (encode_cells files cells ofp)))
    = take 128 (data ofp).
Proof.
  induction cells as [|[i j] cells IH]; intros ofp Hall Hlen Hc; [done|].
  inversion Hall as [|? ? Hg Hrest]; subst. cbn [fst snd] in Hg.
  cbn [encode_cells fst snd].
  destruct (encode_cell files i j ofp) as [ofp1|code e ofp1] eqn:Hcell.
  - apply encode_cell_layout in Hcell as (Hc1 & Hlen1 & _ & Htake & _);
      [|done..].
    rewrite IH; [done | done | lia | done].
  - cbn [left_file]. unfold encode_cell in Hcell.
    destruct (files !! (j, i)) as [records|]; [|discriminate].
    pose proof (encode_records_spec i j records ofp 0 0 Hc) as Hspec.
    destruct (encode_records i j records ofp 0 0) as [[[ofp2 ns] nv]|];
      [discriminate|].
    injection Hcell as _ _ <-. destruct Hspec as (_ & suffix & ->).
    pose proof header_end_128. by rewrite take_app_le by lia.
Qed.

End OutputLayout.

(** ** Segments of stored vertices *)

Section StoredSegments.

Import Encoder Output Invariants Spec.

(** The fields of a segment of fewer than [2 ^ 25] vertices within the
    range of the stored vertices: the size is computed without wrap-around
    and is not below 1. *)
Lemma stored_segment_size i j (seg : segment) f :
  Forall stored_range seg -> Z.of_nat (length seg) < 2 ^ 25 ->
  segment_fields i j seg = inr f ->
  1 <= f_size f.
Proof.
  intros Hall Hlen Hf.
  destruct seg as [|v0 [|v1 rest]];
    [rewrite segment_fields_short in Hf by (simpl; lia); discriminate ..|].
  assert (Hx : Forall (fun v => 0 <= v <= 36000000) (v0 :: v1 :: rest).*1).
  { apply Forall_fmap. eapply Forall_impl; [exact Hall|]. by intros v [? _]. }
  assert (Hy : Forall (fun v => 0 <= v <= 36000000) (v0 :: v1 :: rest).*2).
  { apply Forall_fmap. eapply Forall_impl; [exact Hall|].
    intros v [_ ?]. cbv beta. unfold compose. lia. }
  pose proof (diff_range_bounds 36000000 v0.1 v1.1 rest.*1 ltac:(lia) Hx)
    as (Hrx0 & Hrx1 & Hrx2 & _).
  pose proof (diff_range_bounds 36000000 v0.2 v1.2 rest.*2 ltac:(lia) Hy)
    as (Hry0 & Hry1 & Hry2 & _).
  unfold segment_fields in Hf.
  set (dx := diff_range (v0 :: v1 :: rest).*1) in *.
  set (dy := diff_range (v0 :: v1 :: rest).*2) in *.
  change (diff_range (v0.1 :: v1.1 :: rest.*1)) with dx in *.
  change (diff_range (v0.2 :: v1.2 :: rest.*2)) with dy in *.
  cbv zeta in *.
  unfold neg32, sub32 in Hf.
  rewrite !(wrap32_id (- _)) in Hf by (unfold int32; lia).
  rewrite !(wrap32_id (_ - _)) in Hf by (unfold int32; lia).
  destruct ((- dx.1 >? max_bias) || (- dx.1 <? - max_bias)); [discriminate|].
  destruct ((- dy.1 >? max_bias) || (- dy.1 <? - max_bias)); [discriminate|].
  injection Hf as <-. cbn [f_size].
  change (Z.of_nat (S (S (length rest))))
    with (Z.of_nat (length (v0 :: v1 :: rest))).
  set (count := Z.of_nat (length (v0 :: v1 :: rest))) in *.
  assert (Hcount : 2 <= count) by (subst count; cbn [length]; lia).
  pose proof (floor1_range (dx.2 - dx.1) ltac:(lia)) as [Hfx1 Hfx2].
  pose proof (floor1_range (dy.2 - dy.1) ltac:(lia)) as [Hfy1 Hfy2].
  set (rx := if dx.2 - dx.1 =? 0 then 1 else dx.2 - dx.1) in *.
  set (ry := if dy.2 - dy.1 =? 0 then 1 else dy.2 - dy.1) in *.
  assert (Hrx : rx < 2 ^ 29)
    by (subst rx; destruct (dx.2 - dx.1 =? 0); lia).
  assert (Hry : ry < 2 ^ 29)
    by (subst ry; destruct (dy.2 - dy.1 =? 0); lia).
  pose proof (field_bits_pos count ltac:(lia)).
  pose proof (field_bits_pos rx ltac:(lia)).
  pose proof (field_bits_pos ry ltac:(lia)).
  pose proof (field_bits_upper count 25 ltac:(lia) ltac:(lia)).
  pose proof (field_bits_upper rx 29 ltac:(lia) ltac:(lia)).
  pose proof (field_bits_upper ry 29 ltac:(lia) ltac:(lia)).
  pose proof (total_bits_bound (field_bits count) (field_bits rx)
                (field_bits ry) count ltac:(lia) ltac:(lia) ltac:(lia)
                ltac:(lia)) as Htb.
  rewrite wrap32_id by (unfold int32; lia).
  rewrite Z.quot_div_nonneg by lia.
  pose proof (Z.div_pos _ 8 (proj1 Htb) ltac:(lia)). lia.
Qed.

(** Such a segment is packed exactly when it passes the two bias tests. *)
Lemma stored_segment_packed i j (seg : segment) :
  Forall stored_range seg -> Z.of_nat (length seg) < 2 ^ 25 ->
  (exists block, encode_segment i j seg = inr block)
  <-> (exists f, segment_fields i j seg = inr f).
Proof.
  intros Hall Hlen. split.
  - intros [block H]. apply encode_segment_inr in H as (f & Hf & _).
    by exists f.
  - intros [f Hf]. exists (packed f seg).
    apply encode_segment_packed; [done|].
    pose proof (stored_segment_size i j seg f Hall Hlen Hf). lia.
Qed.

End StoredSegments.

(** ** The output file of a run which ends *)

Section OutputFileTheorems.

Import Encoder Output Invariants Contents Spec.

(** The output file before the first cell ends with the index table. *)
Lemma open_output_end :
  drop (Z.to_nat header_end) (data (open_output_on grid)) = []
  /\ header_end <= Z.of_nat (length (data (open_output_on grid)))
  /\ cursor (open_output_on grid)
     = Z.of_nat (length (data (open_output_on grid))).
Proof.
  destruct open_output_table as (_ & Hcur & Hlen & _).
  split; [apply drop_ge; lia|]. split; [lia | exact Hcur].
Qed.

(** X18.  After the index table the output file holds the blocks of the
    cells, in the order of the loops over the cells (latitude index, then
    longitude index), and nothing else. *)
Theorem output_body (files : gmap (Z * Z) (list segment)) (ofp : file) :
  pass2 files = Done ofp ->
  drop (Z.to_nat header_end) (data ofp) = concat (cell_bytes files <$> grid)
  /\ Z.of_nat (length (data ofp))
     = header_end + Z.of_nat (length (concat (cell_bytes files <$> grid))).
Proof.
  intros Hrun. unfold pass2, pass2_on in Hrun.
  destruct open_output_table as (_ & Hcur & Hlen & _).
  apply encode_cells_layout in Hrun as (Hdrop & Hlen' & _);
    [|exact grid_in_grid | exact NoDup_grid | lia | exact Hcur].
  split.
  - rewrite Hdrop, drop_ge by lia. reflexivity.
  - rewrite Hlen'. lia.
Qed.

(** Where the blocks of the cell number [k] are, in a file which holds the
    blocks of the cells from byte [start]. *)
Lemma cell_region files (cells : list (Z * Z)) (d : bytes) (start k : nat)
    i j records :
  drop start d = concat (cell_bytes files <$> cells) ->
  cells !! k = Some (i, j) -> files !! (j, i) = Some records ->
  take (length (concat (cell_blocks i j records)))
    (drop (start + length (concat (cell_bytes files <$> take k cells))) d)
  = concat (cell_blocks i j records).
Proof.
  intros Hdrop Hk Hl.
  rewrite <- drop_drop, Hdrop.
  pose proof (take_drop_middle cells k (i, j) Hk) as Hsplit.
  set (before := take k cells) in *. rewrite <- Hsplit.
  rewrite fmap_app, concat_app, drop_app_length.
  cbn [fmap list_fmap concat]. unfold cell_bytes at 1. cbn [fst snd].
  rewrite Hl. by rewrite take_app_length.
Qed.

Lemma header_end_nonneg : 0 <= header_end.
Proof. unfold header_end. lia. Qed.

Lemma address_to_nat (n : nat) :
  Z.to_nat (header_end + Z.of_nat n) = (Z.to_nat header_end + n)%nat.
Proof.
  rewrite Z2Nat.inj_add, Nat2Z.id;
    [done | apply header_end_nonneg | apply Nat2Z.is_nonneg].
Qed.

Lemma index_entry_on (files : gmap (Z * Z) (list segment))
    (cells : list (Z * Z)) (ofp0 ofp : file) (k : nat) i j records :
  Forall (fun ij => in_grid ij.1 ij.2) cells -> NoDup cells ->
  drop (Z.to_nat header_end) (data ofp0) = [] ->
  Z.of_nat (length (data ofp0)) = header_end ->
  cursor ofp0 = Z.of_nat (length (data ofp0)) ->
  encode_cells files cells ofp0 = Done ofp ->
  cells !! k = Some (i, j) -> files !! (j, i) = Some records ->
  read_entry (data ofp) i j
  = ((header_end
      + Z.of_nat (length (concat (cell_bytes files <$> take k cells))))
       mod 2 ^ 32,
     Z.of_nat (length (filter (fun seg => seg <> []) records)) mod 2 ^ 32,
     Z.of_nat (length (concat records)) mod 2 ^ 32)
  /\ take (length (concat (cell_blocks i j records)))
       (drop (Z.to_nat
                (header_end
                 + Z.of_nat
                     (length (concat (cell_bytes files <$> take k cells)))))
          (data ofp))
     = concat (cell_blocks i j records)
  /\ Forall2 (fun seg block => encode_segment i j seg = inr block)
       (filter (fun seg => seg <> []) records) (cell_blocks i j records).
Proof.
  intros Hall Hnd Hbody Hlen Hcur Hrun Hk Hl.
  assert (Hdone : exists ofp', encode_cells files cells ofp0 = Done ofp')
    by (by exists ofp).
  pose proof (proj1 (encode_cells_done files cells _) Hdone) as Hpacked.
  apply encode_cells_layout in Hrun as (Hdrop & _ & _ & _ & Hentry);
    [|done | done | lia | done].
  rewrite Hbody in Hdrop. cbn [app] in Hdrop.
  split; [|split].
  - rewrite (Hentry _ i j records Hk Hl), Hlen. reflexivity.
  - rewrite address_to_nat. by apply cell_region.
  - apply cell_blocks_packed. intros seg.
    apply (Hpacked i j records seg); [|exact Hl].
    by eapply list_elem_of_lookup_2.
Qed.

(** X19.  The index entry of a cell with a staging file: the address is the
    end of the index table plus the bytes of the cells before it, the blocks
    of the cell start at that address, and the two counts are those of the
    records which are not empty and of their vertices, all three modulo
    2^32. *)
Theorem index_entry (files : gmap (Z * Z) (list segment)) (ofp : file)
    i j records :
  pass2 files = Done ofp -> in_grid i j -> files !! (j, i) = Some records ->
  let before :=
    concat (cell_bytes files <$> take (Z.to_nat (i * 360 + j)) grid) in
  let address := header_end + Z.of_nat (length before) in
  let packed := filter (fun seg => seg <> []) records in
  read_entry (data ofp) i j
  = (address mod 2 ^ 32, Z.of_nat (length packed) mod 2 ^ 32,
     Z.of_nat (length (concat records)) mod 2 ^ 32)
  /\ take (length (concat (cell_blocks i j records)))
       (drop (Z.to_nat address) (data ofp))
     = concat (cell_blocks i j records)
  /\ Forall2 (fun seg block => encode_segment i j seg = inr block)
       packed (cell_blocks i j records).
Proof.
  intros Hrun Hg Hl.
  destruct open_output_table as (_ & _ & Hlen & _).
  destruct open_output_end as (Hbody & _ & Hcur).
  exact (index_entry_on files grid (open_output_on grid) ofp
           (Z.to_nat (i * 360 + j)) i j records grid_in_grid NoDup_grid
           Hbody Hlen Hcur Hrun (grid_lookup i j Hg) Hl).
Qed.

(** X21.  Whatever a run of pass 2 leaves, its first 128 bytes are the
    version record: the version text, a line feed, and zeros. *)
Theorem version_record (files : gmap (Z * Z) (list segment)) :
  take 128 (data (left_file (pass2 files)))
  = FILE_VERSION ++ 10 :: replicate 71 0.
Proof.
  unfold pass2, pass2_on.
  destruct open_output_table as (_ & Hcur & Hlen & Hversion).
  rewrite encode_cells_version;
    [exact Hversion | exact grid_in_grid | lia | exact Hcur].
Qed.

(** X16.  On staging files whose vertices are within the range of the
    stored vertices and whose records have fewer than [2 ^ 25] vertices,
    pass 2 ends with the output file complete exactly when every segment
    with vertices staged for a cell of the index table passes the two bias
    tests; otherwise it exits. *)
Theorem pass2_completes (files : gmap (Z * Z) (list segment)) :
  staged_within files ->
  (exists ofp, pass2 files = Done ofp)
  <-> (forall i j records seg,
          in_grid i j -> files !! (j, i) = Some records ->
          seg ∈ records -> seg <> [] ->
          exists f, segment_fields i j seg = inr f).
Proof.
  intros Hin. unfold pass2, pass2_on. rewrite encode_cells_done.
  split; intros H i j records seg Hg Hl Hseg Hne.
  - destruct (Hin _ _ _ Hl Hseg) as [Hr Hc].
    apply (stored_segment_packed i j seg Hr Hc).
    apply (H i j records seg); try done. by apply elem_of_grid.
  - destruct (Hin _ _ _ Hl Hseg) as [Hr Hc].
    apply (stored_segment_packed i j seg Hr Hc).
    apply (H i j records seg); try done. by apply elem_of_grid.
Qed.

Lemma encode_cells_agree files files' cells : forall ofp : file,
    (forall i j, (i, j) ∈ cells -> files !! (j, i) = files' !! (j, i)) ->
    encode_cells files cells ofp = encode_cells files' cells ofp.
Proof.
  induction cells as [|[i j] cells IH]; intros ofp Hsame; [done|].
  cbn [encode_cells fst snd].
  assert (Hcell : encode_cell files i j ofp = encode_cell files' i j ofp).
  { unfold encode_cell. rewrite (Hsame i j); [done|].
    by apply elem_of_cons; left. }
  rewrite Hcell. destruct (encode_cell files' i j ofp); [|done].
  apply IH. intros i' j' Hin. apply Hsame. by apply elem_of_cons; right.
Qed.

(** X22.  Pass 2 reads the staging files of the 180 x 360 cells of the index
    table and no other: staging files which agree on these cells give the
    same run. *)
Theorem pass2_reads_table_cells (files files' : gmap (Z * Z) (list segment)) :
  (forall i j, in_grid i j -> files !! (j, i) = files' !! (j, i)) ->
  pass2 files = pass2 files'.
Proof.
  intros Hsame. unfold pass2, pass2_on. apply encode_cells_agree.
  intros i j Hin. apply Hsame. by apply elem_of_grid.
Qed.

(** X15.  A record without vertices in a staging file adds nothing to the
    output file and nothing to the counts. *)
Theorem empty_records_skipped i j (records : list segment) (ofp : file)
    ns nv :
  encode_records i j (filter (fun seg => seg <> []) records) ofp ns nv
  = encode_records i j records ofp ns nv.
Proof.
  revert ofp ns nv.
  induction records as [|seg records IH]; intros ofp ns nv; [done|].
  destruct seg as [|v seg].
  - rewrite filter_cons_False by (intros H; by apply H).
    cbn [encode_records]. change (Z.of_nat (length (@nil vertex)) =? 0)
      with true. cbn iota. apply IH.
  - rewrite filter_cons_True by done. cbn [encode_records].
    destruct (Z.of_nat (length (v :: seg)) =? 0); [apply IH|].
    destruct (encode_segment i j (v :: seg)); [done|]. apply IH.
Qed.

End OutputFileTheorems.

Section OutputFileExamples.

Import Encoder Output Invariants Contents Spec.

(** Pass 2 ends on the staging file of cell (lat 3, lon 4) which holds
    the segment [seg3]. *)
Lemma one_cell_completes :
  exists ofp, pass2 {[(4, 3) := [seg3]]} = Done ofp.
Proof.
  unfold pass2, pass2_on. apply encode_cells_done.
  intros i j records seg _ Hl Hin _.
  apply lookup_singleton_Some in Hl as [[= <- <-] <-].
  apply list_elem_of_singleton in Hin as ->.
  exists block3. vm_compute. reflexivity.
Qed.

Lemma one_cell_within : staged_within {[(4, 3) := [seg3]]}.
Proof.
  intros c records seg Hl Hin.
  apply lookup_singleton_Some in Hl as [_ <-].
  apply list_elem_of_singleton in Hin as ->.
  split; [|simpl; lia].
  repeat constructor; vm_compute; discriminate.
Qed.

Lemma pass2_completes_witness :
  exists ofp, pass2 {[(4, 3) := [seg3]]} = Done ofp.
Proof.
  apply (pass2_completes {[(4, 3) := [seg3]]} one_cell_within).
  intros i j records seg _ Hl Hin _.
  apply lookup_singleton_Some in Hl as [[= <- <-] <-].
  apply list_elem_of_singleton in Hin as ->.
  eexists. vm_compute. reflexivity.
Defined.

Lemma output_body_witness :
  exists ofp,
    pass2 {[(4, 3) := [seg3]]} = Done ofp
    /\ drop (Z.to_nat header_end) (data ofp)
       = concat (cell_bytes {[(4, 3) := [seg3]]} <$> grid).
Proof.
  destruct one_cell_completes as [ofp Hrun]. exists ofp.
  split; [exact Hrun|].
  exact (proj1 (output_body {[(4, 3) := [seg3]]} ofp Hrun)).
Defined.

Lemma index_entry_witness :
  exists ofp,
    pass2 {[(4, 3) := [seg3]]} = Done ofp
    /\ (read_entry (data ofp) 3 4).1.2 = 1
    /\ (read_entry (data ofp) 3 4).2 = 3
    /\ Forall2 (fun seg block => encode_segment 3 4 seg = inr block)
         [seg3] (cell_blocks 3 4 [seg3]).
Proof.
  destruct one_cell_completes as [ofp Hrun]. exists ofp.
  split; [exact Hrun|].
  destruct (index_entry {[(4, 3) := [seg3]]} ofp 3 4 [seg3] Hrun)
    as (Hentry & _ & Hblocks).
  - unfold in_grid. lia.
  - apply lookup_singleton_eq.
  - rewrite Hentry. cbn [fst snd].
    split; [reflexivity|]. split; [reflexivity | exact Hblocks].
Defined.

Lemma pass2_reads_table_cells_witness :
  pass2 {[(0, 180) := [[(0, 0)]]]} = pass2 ∅.
Proof.
  apply pass2_reads_table_cells.
  intros i j [Hi Hj]. rewrite lookup_empty.
  apply lookup_singleton_ne. intros [= _ Hi']. lia.
Defined.

End OutputFileExamples.

Section StoredVertexTheorems.

Import Encoder Ingester Invariants Geometry.

Local Open Scope Q_scope.

(** X1.  A vertex within the input range is stored as a pair of integers
    between 0 and 36000000 and between 0 and 18000000, which the 26-bit and
    25-bit fields of the first vertex hold. *)
Theorem staged_fits_fields (xy : Q * Q) :
  valid_vertex xy ->
  (0 <= (staged xy).1 <= 36000000)%Z /\ (0 <= (staged xy).2 <= 18000000)%Z
  /\ ((staged xy).1 < 2 ^ 26)%Z /\ ((staged xy).2 < 2 ^ 25)%Z.
Proof.
  intros Hv. pose proof (staged_range xy Hv). lia.
Qed.

Lemma staged_fits_fields_witness :
  staged (1795 # 10, 90) = (35950000, 18000000)%Z
  /\ (0 <= (staged ((1795 # 10)%Q, 90%Q)).1 <= 36000000)%Z.
Proof.
  split; [vm_compute; reflexivity|].
  apply (staged_fits_fields (1795 # 10, 90)).
  repeat split; discriminate.
Defined.

(** X2.  The cell of a vertex within the input range whose latitude is at
    most [90 - 2 ^ (-45)], the second largest double below 90, is a cell of
    the index table.  The largest double below 90, [90 - 2 ^ (-46)], is not
    among them: its sum with 90.0 rounds to 180.0, which gives row 180. *)
Theorem valid_vertex_cell (xy : Q * Q) :
  valid_vertex xy ->
  (xy.2 <= 90 - 2 ^ (-45) ->
   in_grid (cell_of (normalize xy)).2 (cell_of (normalize xy)).1)
  /\ (cell_of (normalize (xy.1, 90 - 2 ^ (-46)))).2 = 180%Z.
Proof.
  intros [Hx [Hy1 _]]. split; [|vm_compute; reflexivity].
  intros Hy2. destruct xy as [x y]. cbn [fst snd] in *.
  pose proof (cell_in_table x y Hx (conj Hy1 Hy2)) as H.
  cbv zeta in H. unfold in_grid. lia.
Qed.

Lemma valid_vertex_cell_witness :
  in_grid (cell_of (normalize (180, 90 - 2 ^ (-45)))).2
    (cell_of (normalize (180, 90 - 2 ^ (-45)))).1.
Proof.
  apply (valid_vertex_cell (180, 90 - 2 ^ (-45))).
  - repeat split; discriminate.
  - cbn [snd]. apply Qle_refl.
Defined.

(** X3.  A vertex within the input range is stored within the closed square
    degree of its cell. *)
Theorem staged_in_cell (xy : Q * Q) :
  valid_vertex xy ->
  let c := cell_of (normalize xy) in
  (c.1 * 100000 <= (staged xy).1 <= (c.1 + 1) * 100000)%Z
  /\ (c.2 * 100000 <= (staged xy).2 <= (c.2 + 1) * 100000)%Z.
Proof.
  intros Hv c. exact (staged_in_cell_bounds xy Hv).
Qed.

Lemma staged_in_cell_witness :
  (10 * 100000 <= (staged ((-1695 # 10)%Q, (-795 # 10)%Q)).1
   <= (10 + 1) * 100000)%Z.
Proof.
  apply (staged_in_cell (-1695 # 10, -795 # 10)).
  repeat split; discriminate.
Defined.

(** X4.  A vertex at longitude 180 is stored as the vertex at longitude 0 of
    the same latitude, in the same cell. *)
Theorem antimeridian_as_meridian (x y : Q) :
  x == 180 ->
  cell_of (normalize (x, y)) = cell_of (normalize (0, y))
  /\ staged (x, y) = staged (0, y)
  /\ (staged (x, y)).1 = 18000000%Z.
Proof.
  intros Hx. unfold staged, cell_of, normalize. cbn [fst snd].
  assert (Hb : Qeq_bool (Double.add x 180) 360 = true).
  { apply Qeq_bool_iff. apply (round_Z _ 360); [lia|].
    rewrite Hx. reflexivity. }
  assert (H0 : Double.add 0 180 = 180) by (vm_compute; reflexivity).
  rewrite Hb, H0. change (Qeq_bool 180 360) with false. cbv iota.
  split; [done|]. split; [done|]. vm_compute. reflexivity.
Qed.

Lemma antimeridian_as_meridian_witness :
  staged (180, 10) = staged (0, 10).
Proof.
  apply (antimeridian_as_meridian 180 10). reflexivity.
Defined.

End StoredVertexTheorems.

Section DoubleExamples.

Import Encoder Ingester Geometry.

Local Open Scope Q_scope.

(** Where the rounding of the doubles shows: the largest double below 90
    is in row 180, as its sum with 90.0 rounds to 180.0; the largest double
    below 180 meets the boundary rule, as its sum with 180.0 rounds to
    360.0; the double nearest to 19.99999999999999 is in column 200; and
    the double nearest to -100.866095 is stored as 7913391, where
    ((-100.866095 + 180) * 100000 is below 7913390.5 for that double. *)
Lemma double_rounding_examples :
  (cell_of (normalize (0, 90 - 2 ^ (-46)))).2 = 180%Z
  /\ staged (180 - 2 ^ (-45), 0) = (18000000, 9000000)%Z
  /\ (cell_of (normalize (Double.round (1999999999999999 # 100000000000000),
                          0))).1 = 200%Z
  /\ (staged (Double.round (-100866095 # 1000000), 0)).1 = 7913391%Z
  /\ (Double.round (-100866095 # 1000000) + 180) * 100000 < 79133905 # 10.
Proof. repeat split; vm_compute; reflexivity. Qed.

End DoubleExamples.

Section Binary64Check.

Import Floats Binary64.

(** On the samples the arithmetic of [Double] is that of the doubles of the
    kernel, which are binary64. *)
Lemma double_agrees_with_binary64 : forallb agrees samples = true.
Proof. vm_compute. reflexivity. Qed.

(** The doubles of [double_rounding_examples] are those written there in
    decimal. *)
Lemma double_literals :
  (to_Q 0x1.67fffffffffffp+6 == 90 - 2 ^ (-46))%Q
  /\ (to_Q 0x1.67fffffffffffp+7 == 180 - 2 ^ (-45))%Q
  /\ (to_Q (-0x1.9376e19b90eaap+6)
      == Double.round (-100866095 # 1000000))%Q
  /\ (to_Q 0x1.3fffffffffffdp+4
      == Double.round (1999999999999999 # 100000000000000))%Q.
Proof. repeat split. Qed.

End Binary64Check.

Section SegmentsOfOneCell.

Import Encoder Ingester Invariants Geometry Spec.

(** The extrema of the differences of values which lie in a window of
    width [W]. *)
Lemma diff_scan_window (L W : Z) : forall rest prev a b,
    0 <= W -> 0 <= L -> L + W < 2 ^ 30 ->
    Forall (fun v => L <= v <= L + W) (prev :: rest) ->
    - W <= a ->
    - W <= (diff_scan prev rest (a, b)).1 <= a.
Proof.
  induction rest as [|v rest IH]; intros prev a b HW HL Hlt Hall Ha.
  - cbn [diff_scan fst]. lia.
  - inversion Hall as [|? ? Hprev Hrest]; subst.
    pose proof (Forall_inv Hrest) as Hv. cbv beta in Hv.
    cbn [diff_scan fst snd].
    assert (Hsub : sub32 v prev = v - prev)
      by (apply wrap32_id; unfold int32; lia).
    rewrite Hsub. unfold MIN, MAX.
    specialize (IH v (Z.min (v - prev) a) (Z.max (v - prev) b)
                  HW HL Hlt Hrest ltac:(lia)).
    lia.
Qed.

Lemma diff_range_window (L W : Z) v0 v1 rest :
  0 <= W <= 99999999 -> 0 <= L -> L + W < 2 ^ 30 ->
  Forall (fun v => L <= v <= L + W) (v0 :: v1 :: rest) ->
  - W <= (diff_range (v0 :: v1 :: rest)).1 <= W.
Proof.
  intros HW HL Hlt Hall.
  pose proof (diff_scan_window L W (v1 :: rest) v0 99999999 (-99999999)
                ltac:(lia) HL Hlt Hall ltac:(lia)) as H.
  inversion Hall as [|? ? H0 Hrest]; subst.
  pose proof (Forall_inv Hrest) as H1. cbv beta in H1.
  cbn [diff_range]. cbn [diff_scan fst snd] in *.
  assert (Hsub : sub32 v1 v0 = v1 - v0)
    by (apply wrap32_id; unfold int32; lia).
  rewrite Hsub in *. unfold MIN, MAX in *.
  pose proof (diff_scan_window L W rest v1 (Z.min (v1 - v0) 99999999)
                (Z.max (v1 - v0) (-99999999)) ltac:(lia) HL Hlt Hrest
                ltac:(lia)) as H'.
  lia.
Qed.

(** A segment of at least two values per axis which lie within one degree
    has both biases within the range, and ranges of at most two degrees. *)
Lemma window_segment_fields i j (Lx Ly : Z) (seg : segment) :
  (2 <= length seg)%nat ->
  0 <= Lx <= 36000000 -> 0 <= Ly <= 36000000 ->
  Forall (fun v => (Lx <= v.1 <= Lx + 100000)
                   /\ (Ly <= v.2 <= Ly + 100000)) seg ->
  exists f,
    segment_fields i j seg = inr f
    /\ f_count f = Z.of_nat (length seg)
    /\ f_count_bits f = field_bits (Z.of_nat (length seg))
    /\ 1 <= f_lon_offset_bits f <= 30 /\ 1 <= f_lat_offset_bits f <= 30
    /\ f_size f
       = Z.quot (wrap32 (total_bits (f_count_bits f) (f_lon_offset_bits f)
                           (f_lat_offset_bits f) (f_count f))) 8 + 1.
Proof.
  intros Hlen HLx HLy Hall.
  destruct seg as [|v0 [|v1 rest]]; cbn [length] in Hlen; try lia.
  assert (Hx : Forall (fun v => Lx <= v <= Lx + 100000)
                 (v0 :: v1 :: rest).*1).
  { apply Forall_fmap. eapply Forall_impl; [exact Hall|]. by intros v [? _]. }
  assert (Hy : Forall (fun v => Ly <= v <= Ly + 100000)
                 (v0 :: v1 :: rest).*2).
  { apply Forall_fmap. eapply Forall_impl; [exact Hall|]. by intros v [_ ?]. }
  assert (Hx' : Forall (fun v => 0 <= v <= 36100000)
                  (v0 :: v1 :: rest).*1).
  { eapply Forall_impl; [exact Hx|]. cbv beta. intros v Hv. lia. }
  assert (Hy' : Forall (fun v => 0 <= v <= 36100000)
                  (v0 :: v1 :: rest).*2).
  { eapply Forall_impl; [exact Hy|]. cbv beta. intros v Hv. lia. }
  pose proof (diff_range_window Lx 100000 v0.1 v1.1 rest.*1 ltac:(lia)
                ltac:(lia) ltac:(lia) Hx) as Hdx.
  pose proof (diff_range_window Ly 100000 v0.2 v1.2 rest.*2 ltac:(lia)
                ltac:(lia) ltac:(lia) Hy) as Hdy.
  pose proof (diff_range_bounds 36100000 v0.1 v1.1 rest.*1 ltac:(lia) Hx')
    as (_ & Hrx1 & Hrx2 & _).
  pose proof (diff_range_bounds 36100000 v0.2 v1.2 rest.*2 ltac:(lia) Hy')
    as (_ & Hry1 & Hry2 & _).
  unfold segment_fields.
  set (dx := diff_range (v0 :: v1 :: rest).*1) in *.
  set (dy := diff_range (v0 :: v1 :: rest).*2) in *.
  change (diff_range (v0.1 :: v1.1 :: rest.*1)) with dx in *.
  change (diff_range (v0.2 :: v1.2 :: rest.*2)) with dy in *.
  unfold neg32, sub32. rewrite !(wrap32_id (- _)) by (unfold int32; lia).
  rewrite !(wrap32_id (_ - _)) by (unfold int32; lia).
  destruct ((- dx.1 >? max_bias) || (- dx.1 <? - max_bias)) eqn:Hbx.
  { apply bias_check_true in Hbx. unfold max_bias in Hbx. lia. }
  destruct ((- dy.1 >? max_bias) || (- dy.1 <? - max_bias)) eqn:Hby.
  { apply bias_check_true in Hby. unfold max_bias in Hby. lia. }
  eexists. split; [reflexivity|].
  cbn [f_count f_count_bits f_lon_offset_bits f_lat_offset_bits f_size].
  split; [done|]. split; [done|].
  pose proof (floor1_range (dx.2 - dx.1) ltac:(lia)) as [Hfx1 Hfx2].
  pose proof (floor1_range (dy.2 - dy.1) ltac:(lia)) as [Hfy1 Hfy2].
  assert (Hfx3 : (if dx.2 - dx.1 =? 0 then 1 else dx.2 - dx.1) < 2 ^ 29)
    by (destruct (dx.2 - dx.1 =? 0); lia).
  assert (Hfy3 : (if dy.2 - dy.1 =? 0 then 1 else dy.2 - dy.1) < 2 ^ 29)
    by (destruct (dy.2 - dy.1 =? 0); lia).
  split; [|split; [|done]].
  - split; [by apply field_bits_pos|].
    apply (field_bits_upper _ 29); lia.
  - split; [by apply field_bits_pos|].
    apply (field_bits_upper _ 29); lia.
Qed.

(** Such a segment of fewer than [2 ^ 25] vertices is packed. *)
Lemma window_segment_packs i j (Lx Ly : Z) (seg : segment) :
  (2 <= length seg)%nat -> Z.of_nat (length seg) < 2 ^ 25 ->
  0 <= Lx <= 36000000 -> 0 <= Ly <= 36000000 ->
  Forall (fun v => (Lx <= v.1 <= Lx + 100000)
                   /\ (Ly <= v.2 <= Ly + 100000)) seg ->
  exists block, encode_segment i j seg = inr block.
Proof.
  intros Hlen Hlt HLx HLy Hall.
  destruct (window_segment_fields i j Lx Ly seg Hlen HLx HLy Hall)
    as (f & Hf & Hc & Hcb & Hlo & Hla & Hsize).
  exists (packed f seg). apply encode_segment_packed; [exact Hf|].
  pose proof (field_bits_pos (Z.of_nat (length seg)) ltac:(lia)) as Hcb1.
  pose proof (field_bits_upper (Z.of_nat (length seg)) 25 ltac:(lia)
                ltac:(lia)) as Hcb2.
  pose proof (total_bits_bound (f_count_bits f) (f_lon_offset_bits f)
                (f_lat_offset_bits f) (f_count f) ltac:(lia) ltac:(lia)
                ltac:(lia) ltac:(lia)) as Htb.
  rewrite Hsize, wrap32_id by (unfold int32; lia).
  rewrite Z.quot_div_nonneg by lia.
  pose proof (Z.div_pos _ 8 (proj1 Htb) ltac:(lia)). lia.
Qed.

Lemma staged_window (c : cell) (vs : list (Q * Q)) :
  Forall valid_vertex vs ->
  Forall (fun xy => cell_of (normalize xy) = c) vs ->
  vs <> [] ->
  (0 <= c.1 * 100000 <= 36000000) /\ (0 <= c.2 * 100000 <= 36000000)
  /\ Forall (fun v => (c.1 * 100000 <= v.1 <= c.1 * 100000 + 100000)
                      /\ (c.2 * 100000 <= v.2 <= c.2 * 100000 + 100000))
       (staged <$> vs).
Proof.
  intros Hvalid Hcell Hne.
  assert (Hall : Forall (fun v => (c.1 * 100000 <= v.1 <= c.1 * 100000 + 100000)
                                  /\ (c.2 * 100000 <= v.2
                                      <= c.2 * 100000 + 100000))
                   (staged <$> vs)).
  { apply Forall_fmap. apply Forall_forall. intros xy Hin.
    pose proof (proj1 (Forall_forall _ _) Hvalid xy Hin) as Hv.
    pose proof (proj1 (Forall_forall _ _) Hcell xy Hin) as Hc.
    pose proof (staged_in_cell_bounds xy Hv) as H. rewrite Hc in H.
    unfold compose. cbv beta. lia. }
  destruct vs as [|xy0 vs0]; [done|].
  pose proof (Forall_inv Hvalid) as Hv0. pose proof (Forall_inv Hcell) as Hc0.
  cbv beta in Hv0, Hc0.
  pose proof (valid_cell_range xy0 Hv0) as Hn. rewrite Hc0 in Hn.
  split; [lia|]. split; [lia | exact Hall].
Qed.

Lemma cell_segment_fields i j (c : cell) (vs : list (Q * Q)) :
  (2 <= length vs)%nat ->
  Forall valid_vertex vs ->
  Forall (fun xy => cell_of (normalize xy) = c) vs ->
  exists f, segment_fields i j (staged <$> vs) = inr f.
Proof.
  intros Hlen Hvalid Hcell.
  destruct (staged_window c vs Hvalid Hcell) as (Hx & Hy & Hall).
  { intros ->. cbn [length] in Hlen. lia. }
  destruct (window_segment_fields i j (c.1 * 100000) (c.2 * 100000)
              (staged <$> vs)) as (f & Hf & _);
    [by rewrite length_fmap | lia | lia | exact Hall|].
  by exists f.
Qed.

Lemma cell_segment_packs i j (c : cell) (vs : list (Q * Q)) :
  (2 <= length vs)%nat -> Z.of_nat (length vs) < 2 ^ 25 ->
  Forall valid_vertex vs ->
  Forall (fun xy => cell_of (normalize xy) = c) vs ->
  exists block, encode_segment i j (staged <$> vs) = inr block.
Proof.
  intros Hlen Hlt Hvalid Hcell.
  destruct (staged_window c vs Hvalid Hcell) as (Hx & Hy & Hall).
  { intros ->. cbn [length] in Hlen. lia. }
  apply (window_segment_packs i j (c.1 * 100000) (c.2 * 100000));
    [by rewrite length_fmap | by rewrite length_fmap | lia | lia
    | exact Hall].
Qed.

(** X13.  A segment of at least two vertices within the input range which
    all fall in one cell meets neither bias error, as no difference exceeds
    one degree; with fewer than [2 ^ 25] vertices its buffer is allocated
    and it is packed. *)
Theorem in_cell_segment_packs i j (c : cell) (vs : list (Q * Q)) :
  (2 <= length vs)%nat ->
  Forall valid_vertex vs ->
  Forall (fun xy => cell_of (normalize xy) = c) vs ->
  (exists f, segment_fields i j (staged <$> vs) = inr f)
  /\ (Z.of_nat (length vs) < 2 ^ 25 ->
      exists block, encode_segment i j (staged <$> vs) = inr block).
Proof.
  intros Hlen Hvalid Hcell. split.
  - by apply (cell_segment_fields i j c).
  - intros Hlt. by apply (cell_segment_packs i j c).
Qed.

Lemma in_cell_segment_packs_witness :
  exists block,
    encode_segment 10 10
      (staged <$> [((-1695 # 10)%Q, (-795 # 10)%Q);
                   ((-677 # 4)%Q, (-317 # 4)%Q)])
    = inr block.
Proof.
  apply (in_cell_segment_packs 10 10 (10, 10)).
  - simpl. lia.
  - repeat constructor; discriminate.
  - repeat constructor.
  - simpl. lia.
Defined.

End SegmentsOfOneCell.

(** ** The count of the points processed *)

Section TotalPoints.

Import Encoder Ingester Invariants.

Lemma wrap32_add_l a b : wrap32 (wrap32 a + b) = wrap32 (a + b).
Proof.
  unfold wrap32.
  replace ((a + 2 ^ 31) mod 2 ^ 32 - 2 ^ 31 + b + 2 ^ 31)
    with ((a + 2 ^ 31) mod 2 ^ 32 + b) by lia.
  rewrite Zplus_mod_idemp_l. do 2 f_equal. lia.
Qed.

Lemma split_step_total start londeg1 latdeg1 (st st' : state) :
  split_step start londeg1 latdeg1 st = Ok st' -> total st' = total st.
Proof.
  unfold split_step, fwrite_segment, fclose. intros H.
  destruct st as [tot h fl sc sx lod lad lo la].
  cbn [fp latdeg0 londeg0 set_segCount] in H.
  destruct ((lad >? -999) && (negb (latdeg1 =? lad) || negb (londeg1 =? lod))),
    start, h as [c|];
    cbn -[scaled take Z.to_nat] in H; try discriminate;
    try (destruct (lad =? -999); cbn -[scaled take Z.to_nat] in H);
    try discriminate; by injection H as <-.
Qed.

Lemma vertex_step_total shape j numParts xy (st : state) r :
  vertex_step shape j numParts xy st = Ok r -> total r.1 = total st.
Proof.
  unfold vertex_step. intros H.
  destruct (start_of_segment shape j numParts) as [start np].
  destruct (cell_of (normalize xy)) as [londeg1 latdeg1].
  destruct (split_step start londeg1 latdeg1 st) as [st1|] eqn:Hs;
    [|discriminate].
  cbn [bind] in H. injection H as <-. cbn [fst].
  apply split_step_total in Hs. by rewrite <- Hs.
Qed.

Lemma vertex_loop_total shape vs : forall j numParts (st st' : state),
    vertex_loop shape j numParts vs st = Ok st' -> total st' = total st.
Proof.
  induction vs as [|xy vs IH]; intros j numParts st st' H.
  - by injection H as <-.
  - cbn [vertex_loop] in H.
    destruct (vertex_step shape j numParts xy st) as [r|] eqn:Hstep;
      [|discriminate].
    cbn [bind] in H. apply IH in H. apply vertex_step_total in Hstep.
    congruence.
Qed.

Lemma shape_step_total shape (st st' : state) :
  shape_step shape st = Ok st' ->
  total st' = add32 (total st) (nVertices shape).
Proof.
  unfold shape_step. intros H. destruct (2 <=? nVertices shape).
  - by apply vertex_loop_total in H.
  - by injection H as <-.
Qed.

Lemma shape_loop_total shapes : forall st st' : state,
    int32 (total st) ->
    shape_loop shapes st = Ok st' ->
    total st' = wrap32 (total st + Z.of_nat (length (shapes ≫= padf))).
Proof.
  induction shapes as [|shape shapes IH]; intros st st' Hint H.
  - injection H as <-. cbn [mbind list_bind length].
    by rewrite Z.add_0_r, wrap32_id.
  - cbn [shape_loop] in H.
    destruct (shape_step shape st) as [st1|] eqn:Hstep; [|discriminate].
    cbn [bind] in H. apply shape_step_total in Hstep.
    apply IH in H; [|rewrite Hstep; apply wrap32_int32].
    cbn [mbind list_bind]. rewrite length_app, Nat2Z.inj_add.
    rewrite H, Hstep. unfold add32, nVertices.
    rewrite wrap32_add_l. f_equal. lia.
Qed.

Lemma source_step_total shapes (st st' : state) :
  int32 (total st) ->
  source_step shapes st = Ok st' ->
  total st' = wrap32 (total st + Z.of_nat (length (shapes ≫= padf))).
Proof.
  unfold source_step. intros Hint H.
  destruct (shape_loop shapes (set_segCount 0 st)) as [st1|] eqn:Hloop;
    [|discriminate].
  cbn [bind] in H. apply shape_loop_total in Hloop; [|done].
  destruct (fwrite_segment (take (Z.to_nat (segCount st1)) (segxy st1)) st1)
    as [st2|] eqn:Hw; [|discriminate].
  cbn [bind] in H. injection H as <-.
  apply fwrite_segment_Ok in Hw as (c & _ & ->). exact Hloop.
Qed.

Lemma source_loop_total inputs : forall st st' : state,
    int32 (total st) ->
    source_loop inputs st = Ok st' ->
    total st'
    = wrap32 (total st + Z.of_nat (length (concat inputs ≫= padf))).
Proof.
  induction inputs as [|shapes inputs IH]; intros st st' Hint H.
  - injection H as <-. cbn [concat mbind list_bind length].
    by rewrite Z.add_0_r, wrap32_id.
  - cbn [source_loop] in H.
    destruct (source_step shapes st) as [st1|] eqn:Hsrc; [|discriminate].
    cbn [bind] in H. apply source_step_total in Hsrc; [|done].
    apply IH in H; [|rewrite Hsrc; apply wrap32_int32].
    cbn [concat]. rewrite bind_app, length_app, Nat2Z.inj_add.
    rewrite H, Hsrc, wrap32_add_l. f_equal. lia.
Qed.

(** X12.  The count which pass 1 prints as "Total points processed" after
    the last input file is the number of the vertices of all shapes of all
    input files, those of the shapes of fewer than two vertices included, in
    32-bit arithmetic. *)
Theorem total_points_processed (inputs : list (list SHPObject)) (st : state) :
  pass1 inputs = Ok st ->
  total st = wrap32 (Z.of_nat (length (concat inputs ≫= padf))).
Proof.
  unfold pass1. intros H.
  destruct (source_loop inputs initial) as [st1|] eqn:Hloop; [|discriminate].
  cbn [bind] in H. unfold fclose in H.
  destruct (fp st1); [|discriminate]. injection H as <-.
  apply source_loop_total in Hloop; [exact Hloop|].
  cbn [initial total]. unfold int32. lia.
Qed.

End TotalPoints.

(** ** Shapes of one part *)

Section OnePart.

Import Encoder Ingester Invariants Geometry.

Lemma start_of_segment_first shape :
  nParts shape = 1 -> start_of_segment shape 0 1 = (true, 1).
Proof. unfold start_of_segment. by intros ->. Qed.

Lemma start_of_segment_later shape j :
  nParts shape = 1 -> 0 < j -> start_of_segment shape j 1 = (false, 1).
Proof.
  unfold start_of_segment. intros -> Hj.
  destruct (Z.eqb_spec j 0); [lia | done].
Qed.

Lemma bool_cell_same (londeg latdeg : Z) :
  negb (latdeg =? latdeg) || negb (londeg =? londeg) = false.
Proof. by rewrite !Z.eqb_refl. Qed.

(** A vertex which falls in the cell of the vertex before it, in the
    middle of a part, is added to the segment. *)
Lemma vertex_step_same_cell shape j xy (st : state) :
  nParts shape = 1 -> 0 < j ->
  cell_of (normalize xy) = (londeg0 st, latdeg0 st) ->
  vertex_step shape j 1 xy st
  = Ok (set_previous (londeg0 st) (latdeg0 st)
          (normalize xy).1 (normalize xy).2 (push (staged xy) st), 1).
Proof.
  intros Hparts Hj Hcell. unfold vertex_step.
  rewrite (start_of_segment_later shape j Hparts Hj), Hcell.
  unfold split_step. rewrite bool_cell_same, andb_false_r. done.
Qed.

Lemma take_push (v : vertex) (st : state) :
  0 <= segCount st <= Z.of_nat (length (segxy st)) ->
  take (Z.to_nat (segCount (push v st))) (segxy (push v st))
  = take (Z.to_nat (segCount st)) (segxy st) ++ [v].
Proof.
  intros Hc. cbn [push segCount segxy set_segCount set_segxy].
  apply take_ge. rewrite length_app, length_take. cbn [length]. lia.
Qed.

(** The vertices of a part which stay in the cell of the vertex before
    them are added to the segment, in order; the files are left as they
    are. *)
Lemma vertex_loop_same_cell shape (c : cell) vs :
  forall j (st : state),
    nParts shape = 1 -> 0 < j ->
    (londeg0 st, latdeg0 st) = c ->
    0 <= segCount st <= Z.of_nat (length (segxy st)) ->
    Forall (fun xy => cell_of (normalize xy) = c) vs ->
    exists st',
      vertex_loop shape j 1 vs st = Ok st'
      /\ total st' = total st /\ fp st' = fp st /\ files st' = files st
      /\ (londeg0 st', latdeg0 st') = c
      /\ 0 <= segCount st' <= Z.of_nat (length (segxy st'))
      /\ take (Z.to_nat (segCount st')) (segxy st')
         = take (Z.to_nat (segCount st)) (segxy st) ++ (staged <$> vs)
      /\ (lon0 st', lat0 st')
         = default (lon0 st, lat0 st) (normalize <$> last vs).
Proof.
  induction vs as [|xy vs IH]; intros j st Hparts Hj Hc Hcount Hall.
  - exists st. cbn [vertex_loop fmap list_fmap last option_fmap option_map
                     default].
    rewrite app_nil_r. by repeat split; try lia.
  - inversion Hall as [|? ? Hxy Hrest]; subst.
    cbn [vertex_loop].
    rewrite vertex_step_same_cell by done. cbn [bind fst snd].
    set (st1 := set_previous (londeg0 st) (latdeg0 st)
                  (normalize xy).1 (normalize xy).2 (push (staged xy) st)).
    assert (Hcount1 : 0 <= segCount st1 <= Z.of_nat (length (segxy st1))).
    { subst st1. cbn [set_previous push segCount segxy set_segCount
                        set_segxy].
      rewrite length_app, length_take. cbn [length]. lia. }
    destruct (IH (j + 1) st1 Hparts ltac:(lia) ltac:(by subst st1)
                Hcount1 Hrest)
      as (st' & Hloop & Htot & Hfp & Hfiles & Hc' & Hcount' & Htake & Hlast).
    exists st'. split; [exact Hloop|].
    split; [by rewrite Htot|]. split; [by rewrite Hfp|].
    split; [by rewrite Hfiles|]. split; [done|]. split; [done|].
    split.
    + rewrite Htake.
      change (take (Z.to_nat (segCount st1)) (segxy st1))
        with (take (Z.to_nat (segCount (push (staged xy) st)))
                (segxy (push (staged xy) st))).
      rewrite take_push by done. cbn [fmap list_fmap].
      by rewrite <- app_assoc.
    + rewrite Hlast. subst st1. cbn [lon0 lat0 set_previous].
      destruct vs as [|xy' vs'].
      * cbn [last fmap option_fmap option_map default].
        symmetry. apply surjective_pairing.
      * change (last (xy :: xy' :: vs')) with (last (xy' :: vs')).
        destruct (last (xy' :: vs')) eqn:Hl; [done|].
        by apply last_None in Hl.
Qed.

(** The first vertex of the run, at the start of a part: the file of its
    cell is opened and the vertex starts the segment. *)
Lemma vertex_step_first shape xy (st : state) :
  nParts shape = 1 -> latdeg0 st = -999 ->
  vertex_step shape 0 1 xy st
  = Ok (set_previous (cell_of (normalize xy)).1 (cell_of (normalize xy)).2
          (normalize xy).1 (normalize xy).2
          (push (staged xy) (fopen_ab (cell_of (normalize xy)) st)), 1).
Proof.
  intros Hparts Hlat. unfold vertex_step.
  rewrite (start_of_segment_first shape Hparts).
  destruct (cell_of (normalize xy)) as [londeg1 latdeg1].
  unfold split_step. rewrite Hlat. done.
Qed.

(** A vertex which falls in another cell than the vertex before it, in the
    middle of a part. *)
Lemma vertex_step_crossing shape j xy (st : state) :
  nParts shape = 1 -> 0 < j ->
  latdeg0 st > -999 ->
  fp st = Some (londeg0 st, latdeg0 st) ->
  cell_of (normalize xy) <> (londeg0 st, latdeg0 st) ->
  let old := (londeg0 st, latdeg0 st) in
  let new := cell_of (normalize xy) in
  let previous := (scaled (lon0 st), scaled (lat0 st)) in
  vertex_step shape j 1 xy st
  = Ok (State (total st) (Some new)
          (<[new := default [] (files st !! new)]>
             (<[old := default [] (files st !! old)
                       ++ [take (Z.to_nat (segCount st)) (segxy st)
                           ++ [previous]]]> (files st)))
          2 [previous; staged xy] new.1 new.2
          (normalize xy).1 (normalize xy).2, 1).
Proof.
  intros Hparts Hj Hlat Hfp Hne old new previous. subst old new previous.
  unfold vertex_step. rewrite (start_of_segment_later shape j Hparts Hj).
  destruct (cell_of (normalize xy)) as [londeg1 latdeg1] eqn:Hc.
  rewrite (split_step_changed_cell londeg1 latdeg1 st Hlat Hfp Hne).
  cbn [bind]. do 2 f_equal.
Qed.

Lemma vertex_step_parts shape j xy (st : state) r :
  nParts shape = 1 -> vertex_step shape j 1 xy st = Ok r -> r.2 = 1.
Proof.
  intros Hparts. unfold vertex_step.
  assert (Hs : (start_of_segment shape j 1).2 = 1).
  { unfold start_of_segment. rewrite Hparts. done. }
  destruct (start_of_segment shape j 1) as [start np]. cbn [snd] in Hs.
  destruct (cell_of (normalize xy)) as [londeg1 latdeg1].
  destruct (split_step start londeg1 latdeg1 st) as [st1|]; [|done].
  cbn [bind]. by intros [= <-].
Qed.

Lemma vertex_loop_app shape l1 : forall l2 j (st : state),
    nParts shape = 1 ->
    vertex_loop shape j 1 (l1 ++ l2) st
    = bind (vertex_loop shape j 1 l1 st)
        (vertex_loop shape (j + Z.of_nat (length l1)) 1 l2).
Proof.
  induction l1 as [|xy l1 IH]; intros l2 j st Hparts.
  - cbn [app vertex_loop bind length]. by rewrite Z.add_0_r.
  - cbn [app vertex_loop length].
    destruct (vertex_step shape j 1 xy st) as [r|] eqn:Hstep; [|done].
    cbn [bind]. rewrite (vertex_step_parts shape j xy st r Hparts Hstep).
    rewrite IH by done. do 2 f_equal. lia.
Qed.

End OnePart.

Section OnePartShapes.

Import Encoder Ingester Invariants Geometry.

(** Pass 1 on one input file which holds one shape. *)
Lemma pass1_one_shape shape (st2 st3 : state) :
  (2 <= length (padf shape))%nat ->
  vertex_loop shape 0 1 (padf shape)
    (set_total (add32 0 (nVertices shape)) (set_segCount 0 initial))
  = Ok st2 ->
  fwrite_segment (take (Z.to_nat (segCount st2)) (segxy st2)) st2 = Ok st3 ->
  pass1 [[shape]]
  = Ok (set_previous (londeg0 st3) (-888) (lon0 st3) (lat0 st3) st3).
Proof.
  intros Hlen Hloop Hw.
  unfold pass1, source_loop, source_step, shape_loop, shape_step.
  assert (Hn : (2 <=? nVertices shape) = true)
    by (apply Z.leb_le; unfold nVertices; lia).
  cbn [total set_segCount initial]. rewrite Hn.
  cbn [total set_segCount initial] in Hloop. rewrite Hloop.
  cbn [bind]. rewrite Hw. cbn [bind].
  apply fwrite_segment_Ok in Hw as (c & Hfp & ->).
  unfold fclose. cbn [fp set_previous set_files]. by rewrite Hfp.
Qed.

(** A shape of one part whose vertices all fall in one cell leaves one
    segment, in the file of that cell: its vertices, in order. *)
Lemma pass1_one_cell p (vs : list (Q * Q)) (c : cell) :
  (2 <= length vs)%nat ->
  Forall (fun xy => cell_of (normalize xy) = c) vs ->
  exists st,
    pass1 [[SHP [p] vs]] = Ok st
    /\ files st = {[c := [staged <$> vs]]}.
Proof.
  intros Hlen Hall.
  destruct vs as [|xy0 rest]; [cbn [length] in Hlen; lia|].
  inversion Hall as [|? ? Hc0 Hrest]; subst.
  set (shape := SHP [p] (xy0 :: rest)).
  set (st0 := set_total (add32 0 (nVertices shape)) (set_segCount 0 initial)).
  set (c := cell_of (normalize xy0)) in *.
  set (st1 := set_previous c.1 c.2 (normalize xy0).1 (normalize xy0).2
                (push (staged xy0) (fopen_ab c st0))).
  destruct (vertex_loop_same_cell shape c rest (0 + 1) st1)
    as (st2 & Hloop & _ & Hfp & Hfiles & _ & _ & Htake & _);
    [done | lia | by destruct c | by cbn | done |].
  assert (Hloop0 : vertex_loop shape 0 1 (padf shape) st0 = Ok st2).
  { cbn [padf shape vertex_loop].
    rewrite (vertex_step_first shape xy0 st0) by done.
    cbn [bind fst snd]. exact Hloop. }
  assert (Hfp2 : fp st2 = Some c) by (by rewrite Hfp).
  assert (Hfiles2 : files st2 = {[c := []]}).
  { rewrite Hfiles. subst st1 st0.
    cbn [files set_previous push set_segCount set_segxy fopen_ab set_fp
           set_files set_total initial].
    rewrite lookup_empty. cbn [default]. by rewrite insert_empty. }
  eexists. split.
  - apply (pass1_one_shape shape st2); [done | exact Hloop0 |].
    unfold fwrite_segment. rewrite Hfp2. reflexivity.
  - cbn [files set_previous set_files]. rewrite Hfiles2, Htake.
    rewrite lookup_singleton_eq, insert_singleton_eq. cbn [default app].
    done.
Qed.

(** A shape of one part which leaves the cell [c0] for the cell [c1] once,
    after the vertex [b]: the segment of [c0] ends with [b] twice, and the
    segment of [c1] starts with [b]. *)
Lemma pass1_one_crossing p (pre vs1 : list (Q * Q)) (b : Q * Q)
    (c0 c1 : cell) :
  vs1 <> [] -> c1 <> c0 -> c0.2 > -999 ->
  Forall (fun xy => cell_of (normalize xy) = c0) (pre ++ [b]) ->
  Forall (fun xy => cell_of (normalize xy) = c1) vs1 ->
  exists st,
    pass1 [[SHP [p] (pre ++ b :: vs1)]] = Ok st
    /\ files st = {[c0 := [staged <$> pre ++ [b; b]];
                    c1 := [staged <$> b :: vs1]]}.
Proof.
  intros Hne1 Hne Hlat Hall0 Hall1.
  destruct vs1 as [|x1 rest1]; [done|]. clear Hne1.
  inversion Hall1 as [|? ? Hx1 Hrest1]; subst.
  set (c1 := cell_of (normalize x1)) in *.
  set (shape := SHP [p] (pre ++ b :: x1 :: rest1)).
  set (st0 := set_total (add32 0 (nVertices shape)) (set_segCount 0 initial)).
  (* the vertices before the crossing *)
  assert (Hfirst : exists st2,
             vertex_loop shape 0 1 (pre ++ [b]) st0 = Ok st2
             /\ fp st2 = Some c0 /\ files st2 = {[c0 := []]}
             /\ (londeg0 st2, latdeg0 st2) = c0
             /\ 0 <= segCount st2 <= Z.of_nat (length (segxy st2))
             /\ take (Z.to_nat (segCount st2)) (segxy st2)
                = staged <$> pre ++ [b]
             /\ (lon0 st2, lat0 st2) = normalize b).
  { destruct (pre ++ [b]) as [|xy0 rest] eqn:Hvs0;
      [by destruct pre|].
    inversion Hall0 as [|? ? Hc0 Hrest]; subst.
    set (c0 := cell_of (normalize xy0)) in *.
    set (st1 := set_previous c0.1 c0.2 (normalize xy0).1 (normalize xy0).2
                  (push (staged xy0) (fopen_ab c0 st0))).
    destruct (vertex_loop_same_cell shape c0 rest (0 + 1) st1)
      as (st2 & Hloop & _ & Hfp & Hfiles & Hc & Hcount & Htake & Hlast);
      [done | lia | by destruct c0 | by cbn | done |].
    exists st2. cbn [vertex_loop].
    rewrite (vertex_step_first shape xy0 st0) by done.
    cbn [bind fst snd]. split; [exact Hloop|].
    split; [by rewrite Hfp|].
    split.
    { rewrite Hfiles. subst st1 st0.
      cbn [files set_previous push set_segCount set_segxy fopen_ab set_fp
             set_files set_total initial].
      rewrite lookup_empty. cbn [default]. by rewrite insert_empty. }
    split; [done|]. split; [done|]. split; [by rewrite Htake|].
    rewrite Hlast. subst st1. cbn [lon0 lat0 set_previous].
    assert (Hl : last (xy0 :: rest) = Some b)
      by (rewrite <- Hvs0; apply last_snoc).
    destruct rest as [|xy' rest'].
    - injection Hl as ->. cbn. symmetry. apply surjective_pairing.
    - change (last (xy0 :: xy' :: rest')) with (last (xy' :: rest')) in Hl.
      by rewrite Hl. }
  destruct Hfirst as (st2 & Hloop2 & Hfp2 & Hfiles2 & Hc2 & Hcount2 & Htake2
                      & Hlast2).
  (* the crossing *)
  assert (Hj : 0 < 0 + Z.of_nat (length (pre ++ [b])))
    by (rewrite length_app; cbn [length]; lia).
  assert (Hne2 : cell_of (normalize x1) <> (londeg0 st2, latdeg0 st2))
    by (by rewrite Hc2).
  assert (Hlat2 : latdeg0 st2 > -999).
  { destruct c0 as [a0 b0]. injection Hc2 as _ ->. exact Hlat. }
  assert (Hfp2' : fp st2 = Some (londeg0 st2, latdeg0 st2))
    by (by rewrite Hc2).
  pose proof (vertex_step_crossing shape _ x1 st2 eq_refl Hj Hlat2 Hfp2' Hne2)
    as Hcross.
  cbv zeta in Hcross. fold c1 in Hcross.
  rewrite Hc2, Hfiles2, Htake2 in Hcross.
  assert (Hprev : (scaled (lon0 st2), scaled (lat0 st2)) = staged b).
  { injection Hlast2 as -> ->. done. }
  rewrite Hprev in Hcross.
  rewrite lookup_singleton_eq in Hcross. cbn [default app] in Hcross.
  rewrite insert_singleton_eq in Hcross.
  rewrite lookup_singleton_ne in Hcross by done. cbn [default] in Hcross.
  set (seg0 := (staged <$> pre ++ [b]) ++ [staged b]) in *.
  set (st3 := State (total st2) (Some c1) (<[c1 := []]> {[c0 := [seg0]]})
                2 [staged b; staged x1] c1.1 c1.2
                (normalize x1).1 (normalize x1).2) in *.
  (* the vertices after the crossing *)
  destruct (vertex_loop_same_cell shape c1 rest1
              (0 + Z.of_nat (length (pre ++ [b])) + 1) st3)
    as (st4 & Hloop4 & _ & Hfp4 & Hfiles4 & _ & _ & Htake4 & _);
    [done | lia | by destruct c1 | by cbn | done |].
  assert (Hloop0 : vertex_loop shape 0 1 (padf shape) st0 = Ok st4).
  { cbn [padf shape].
    replace (pre ++ b :: x1 :: rest1) with ((pre ++ [b]) ++ x1 :: rest1)
      by (by rewrite <- app_assoc).
    rewrite vertex_loop_app by done. rewrite Hloop2. cbn [bind vertex_loop].
    rewrite Hcross. cbn [bind fst snd]. exact Hloop4. }
  eexists. split.
  - apply (pass1_one_shape shape st4); [|exact Hloop0|].
    + cbn [padf shape]. rewrite length_app. cbn [length]. lia.
    + unfold fwrite_segment. rewrite Hfp4. reflexivity.
  - cbn [files set_previous set_files]. rewrite Hfiles4, Htake4.
    subst st3. cbn [files fp segCount segxy].
    change (Z.to_nat 2) with 2%nat. cbn [take].
    rewrite lookup_insert_eq, insert_insert_eq. cbn [default app].
    subst seg0. rewrite !fmap_app, <- !app_assoc.
    cbn [fmap list_fmap app]. unfold Datatypes.id. cbn [app].
    apply insert_insert_ne. done.
Qed.

End OnePartShapes.

Section OnePartTheorems.

Import Encoder Ingester Invariants Geometry Samples.

(** X5.  A shape of one part and at least two vertices which all fall in one
    cell is staged as one segment in the file of that cell: its vertices, in
    order, and no other file is written. *)
Theorem single_cell_shape p (vs : list (Q * Q)) (c : cell) :
  (2 <= length vs)%nat ->
  Forall (fun xy => cell_of (normalize xy) = c) vs ->
  exists st,
    pass1 [[SHP [p] vs]] = Ok st
    /\ files st = {[c := [staged <$> vs]]}.
Proof. apply pass1_one_cell. Qed.

Lemma single_cell_shape_witness :
  exists st,
    pass1 [[SHP [0] [((-1695 # 10)%Q, (-795 # 10)%Q);
                     ((-677 # 4)%Q, (-317 # 4)%Q)]]] = Ok st
    /\ files st = {[(10, 10) := [[(1050000, 1050000); (1075000, 1075000)]]]}.
Proof.
  apply (single_cell_shape 0 [((-1695 # 10)%Q, (-795 # 10)%Q);
                              ((-677 # 4)%Q, (-317 # 4)%Q)] (10, 10)).
  - simpl. lia.
  - repeat constructor.
Defined.

(** X6.  A shape of one part which leaves the cell [c0] for the cell [c1]
    once, after its vertex [b], is staged as two segments: the one of [c0]
    is the vertices up to [b] followed by [b] once more, so that it ends
    with an edge of length zero, and the one of [c1] is [b] followed by the
    vertices after it. The edge which crosses is in the segment of [c1]
    only. *)
Theorem single_crossing_shape p (pre vs1 : list (Q * Q)) (b : Q * Q)
    (c0 c1 : cell) :
  vs1 <> [] -> c1 <> c0 -> c0.2 > -999 ->
  Forall (fun xy => cell_of (normalize xy) = c0) (pre ++ [b]) ->
  Forall (fun xy => cell_of (normalize xy) = c1) vs1 ->
  exists st,
    pass1 [[SHP [p] (pre ++ b :: vs1)]] = Ok st
    /\ files st = {[c0 := [staged <$> pre ++ [b; b]];
                    c1 := [staged <$> b :: vs1]]}.
Proof. apply pass1_one_crossing. Qed.

Lemma single_crossing_shape_witness :
  exists st,
    pass1 [[two_points]] = Ok st
    /\ files st = {[(10, 10) := [[(1050000, 1050000); (1050000, 1050000)]];
                    (11, 10) := [[(1050000, 1050000); (1150000, 1050000)]]]}.
Proof.
  apply (single_crossing_shape 0 [] [((-1685 # 10)%Q, (-795 # 10)%Q)]
           ((-1695 # 10)%Q, (-795 # 10)%Q) (10, 10) (11, 10)).
  - discriminate.
  - discriminate.
  - simpl. lia.
  - repeat constructor.
  - repeat constructor.
Defined.

Lemma total_points_processed_witness :
  exists st, pass1 [[two_points]] = Ok st /\ total st = 2.
Proof.
  destruct (pass1_one_crossing 0 [] [((-1685 # 10)%Q, (-795 # 10)%Q)]
              ((-1695 # 10)%Q, (-795 # 10)%Q) (10, 10) (11, 10))
    as (st & Hpass & _);
    [discriminate | discriminate | simpl; lia | repeat constructor
     | repeat constructor |].
  exists st. split; [exact Hpass|].
  rewrite (total_points_processed [[two_points]] st Hpass). reflexivity.
Defined.

End OnePartTheorems.

(** ** A whole run on one shape *)

Section WholeRun.

Import Encoder Decoder Ingester Output Program Invariants Contents Geometry
  Spec.

Lemma concat_fmap_nil {A B} (f : A -> list B) (l : list A) :
  (forall x, x ∈ l -> f x = []) -> concat (f <$> l) = [].
Proof.
  induction l as [|x l IH]; intros H; [done|].
  cbn [fmap list_fmap concat]. rewrite (H x) by (by apply elem_of_cons; left).
  apply IH. intros y Hy. apply H. by apply elem_of_cons; right.
Qed.

Lemma cell_bytes_absent files (ij : Z * Z) :
  files !! (ij.2, ij.1) = None -> cell_bytes files ij = [].
Proof. unfold cell_bytes. by intros ->. Qed.

(** Pass 2 on staging files of which none belongs to a cell of the loops
    leaves the output file as it was opened. *)
Lemma encode_cells_absent files cells : forall ofp : file,
    (forall i j, (i, j) ∈ cells -> files !! (j, i) = None) ->
    encode_cells files cells ofp = Done ofp.
Proof.
  induction cells as [|[i j] cells IH]; intros ofp H; [done|].
  cbn [encode_cells fst snd]. unfold encode_cell.
  rewrite (H i j) by (by apply elem_of_cons; left).
  apply IH. intros i' j' Hin. apply H. by apply elem_of_cons; right.
Qed.

(** The loops over the cells on one staging file which holds one segment
    which is packed. *)
Lemma encode_cells_one_cell (cells : list (Z * Z)) (ofp0 : file) (k : nat)
    i j (seg : segment) block :
  Forall (fun ij => in_grid ij.1 ij.2) cells -> NoDup cells ->
  drop (Z.to_nat header_end) (data ofp0) = [] ->
  Z.of_nat (length (data ofp0)) = header_end ->
  cursor ofp0 = Z.of_nat (length (data ofp0)) ->
  cells !! k = Some (i, j) ->
  seg <> [] -> encode_segment i j seg = inr block ->
  exists ofp,
    encode_cells {[(j, i) := [seg]]} cells ofp0 = Done ofp
    /\ drop (Z.to_nat header_end) (data ofp) = block
    /\ read_entry (data ofp) i j
       = (header_end mod 2 ^ 32, 1, Z.of_nat (length seg) mod 2 ^ 32).
Proof.
  intros Hall Hnd Hbody Hlen Hcur Hk Hne Henc.
  set (files := {[(j, i) := [seg]]} : gmap (Z * Z) (list segment)).
  assert (Hl : files !! (j, i) = Some [seg]) by apply lookup_singleton_eq.
  assert (Hother : forall ij, ij ∈ cells -> ij <> (i, j) ->
                              cell_bytes files ij = []).
  { intros [i' j'] _ Hneq. apply cell_bytes_absent. cbn [fst snd].
    apply lookup_singleton_ne. intros [= -> ->]. by apply Hneq. }
  assert (Hblocks : cell_blocks i j [seg] = [block]).
  { by rewrite (cell_blocks_cons i j seg [] block). }
  assert (Hdone : exists ofp, encode_cells files cells ofp0 = Done ofp).
  { apply encode_cells_done. intros i' j' records s _ Hl' Hin _.
    apply lookup_singleton_Some in Hl' as [[= <- <-] <-].
    apply list_elem_of_singleton in Hin as ->. by exists block. }
  destruct Hdone as [ofp Hrun]. exists ofp. split; [exact Hrun|].
  pose proof (take_drop_middle cells k (i, j) Hk) as Hsplit.
  pose proof Hnd as Hnd'. rewrite <- Hsplit in Hnd'.
  apply NoDup_app in Hnd' as (_ & Hdisj & Hnd2).
  apply NoDup_cons in Hnd2 as [Hnotin _].
  assert (Hbefore : concat (cell_bytes files <$> take k cells) = []).
  { apply concat_fmap_nil. intros ij Hin. apply Hother.
    - by apply (subseteq_take k cells).
    - intros ->. apply (Hdisj _ Hin). by apply elem_of_cons; left. }
  assert (Hafter : concat (cell_bytes files <$> drop (S k) cells) = []).
  { apply concat_fmap_nil. intros ij Hin. apply Hother.
    - by apply (subseteq_drop (S k) cells).
    - by intros ->. }
  destruct (index_entry_on files cells ofp0 ofp k i j [seg] Hall Hnd Hbody
              Hlen Hcur Hrun Hk Hl) as (Hentry & _ & _).
  apply encode_cells_layout in Hrun as (Hdrop & _); [|done | done | lia | done].
  split.
  - rewrite Hdrop, Hbody, <- Hsplit, fmap_app, concat_app, Hbefore.
    cbn [app fmap list_fmap concat]. rewrite Hafter, app_nil_r.
    unfold cell_bytes. cbn [fst snd]. rewrite Hl, Hblocks.
    cbn [concat]. by rewrite app_nil_r.
  - rewrite Hentry, Hbefore. cbn [length concat app].
    rewrite filter_cons_True by done. rewrite Z.add_0_r.
    by rewrite app_nil_r.
Qed.

End WholeRun.

Section WholeRunTheorems.

Import Encoder Decoder Ingester Output Program Invariants Contents Geometry
  Spec.

Lemma header_end_small : header_end mod 2 ^ 32 = header_end.
Proof. reflexivity. Qed.

(** X23.  A whole run on one shape of one part whose vertices all fall in
    one cell of the index table: the run ends, the index entry of the cell
    gives the end of the index table as address, one segment and the count
    of the vertices, and the block at that address, which is all that
    follows the index table, decodes to the stored vertices of the shape, in
    order. *)
Theorem single_cell_run p (vs : list (Q * Q)) (c : cell) :
  (2 <= length vs)%nat -> Z.of_nat (length vs) < 2 ^ 25 ->
  Forall valid_vertex vs ->
  Forall (fun xy => cell_of (normalize xy) = c) vs ->
  in_grid c.2 c.1 ->
  Forall vertex_in_range (staged <$> vs) ->
  exists ofp,
    main [[SHP [p] vs]] = Completed ofp
    /\ read_entry (data ofp) c.2 c.1 = (header_end, 1, Z.of_nat (length vs))
    /\ decode_segment (drop (Z.to_nat header_end) (data ofp)) = staged <$> vs.
Proof.
  intros Hlen2 Hlen Hvalid Hcell Hg Hrange.
  destruct (pass1_one_cell p vs c Hlen2 Hcell) as (st & Hpass & Hfiles).
  destruct c as [lon lat]. cbn [fst snd] in *.
  destruct (cell_segment_packs lat lon (lon, lat) vs Hlen2 Hlen Hvalid
              Hcell) as [block Henc].
  set (seg := staged <$> vs) in *.
  assert (Hseglen : length seg = length vs) by apply length_fmap.
  assert (Hne : seg <> []).
  { intros Hnil. rewrite Hnil in Hseglen. cbn [length] in Hseglen. lia. }
  destruct open_output_table as (_ & _ & Hlen0 & _).
  destruct open_output_end as (Hbody & _ & Hcur).
  destruct (encode_cells_one_cell grid (open_output_on grid) _ lat lon seg
              block grid_in_grid NoDup_grid Hbody Hlen0 Hcur
              (grid_lookup lat lon Hg) Hne Henc)
    as (ofp & Hrun & Hdrop & Hentry).
  clear Hbody Hlen0 Hcur.
  exists ofp. split; [|split].
  - unfold main. rewrite Hpass, Hfiles. unfold pass2, pass2_on.
    unfold cell. rewrite Hrun. reflexivity.
  - rewrite Hentry, header_end_small, Hseglen.
    rewrite Z.mod_small by lia. reflexivity.
  - rewrite Hdrop.
    apply encode_segment_inr in Henc as (f & Hf & _ & ->).
    destruct seg as [|v0 [|v1 rest]]; cbn [length] in Hseglen; try lia.
    assert (Hlen' : Z.of_nat (length (v0 :: v1 :: rest)) < 2 ^ 25)
      by (cbn [length]; lia).
    pose proof (segment_fields_fit lat lon v0 v1 rest f Hrange Hlen' Hf)
      as [Hfit Hoff].
    pose proof (Forall_inv Hrange) as [Hx0 Hy0].
    apply (decode_pack_segment f v0 (v1 :: rest) Hfit);
      [lia | lia | exact Hoff].
Qed.

Lemma single_cell_run_witness :
  exists ofp,
    main [[SHP [0] [((-1695 # 10)%Q, (-795 # 10)%Q);
                    ((-677 # 4)%Q, (-317 # 4)%Q)]]] = Completed ofp
    /\ read_entry (data ofp) 10 10 = (header_end, 1, 2)
    /\ decode_segment (drop (Z.to_nat header_end) (data ofp))
       = [(1050000, 1050000); (1075000, 1075000)].
Proof.
  apply (single_cell_run 0 [((-1695 # 10)%Q, (-795 # 10)%Q);
                            ((-677 # 4)%Q, (-317 # 4)%Q)] (10, 10)).
  - simpl. lia.
  - simpl. lia.
  - repeat constructor; discriminate.
  - repeat constructor.
  - unfold in_grid. simpl. lia.
  - repeat constructor; vm_compute; discriminate.
Defined.

(** X24.  A whole run on one shape of one part whose vertices all fall in
    one cell which is no cell of the index table, as the vertices at
    latitude 90 do: the run ends, and the output file is the one of a run
    without any segment: the version record and the index table, all zero.
    The shape is not in the output file. *)
Theorem shape_off_the_table p (vs : list (Q * Q)) (c : cell) :
  (2 <= length vs)%nat ->
  Forall (fun xy => cell_of (normalize xy) = c) vs ->
  ~ in_grid c.2 c.1 ->
  main [[SHP [p] vs]] = Completed (open_output_on grid)
  /\ Z.of_nat (length (data (open_output_on grid))) = header_end
  /\ forall i j, in_grid i j ->
                 read_entry (data (open_output_on grid)) i j = (0, 0, 0).
Proof.
  intros Hlen2 Hcell Hout.
  destruct (pass1_one_cell p vs c Hlen2 Hcell) as (st & Hpass & Hfiles).
  destruct open_output_table as (_ & _ & Hlen0 & _).
  split; [|split; [exact Hlen0|]].
  - unfold main. rewrite Hpass, Hfiles. unfold pass2, pass2_on.
    rewrite encode_cells_absent; [reflexivity|].
    intros i j Hin. apply elem_of_grid in Hin.
    apply lookup_singleton_ne. intros ->. by apply Hout.
  - intros i j Hg.
    apply (open_output_absent_zero ∅ i j Hg). apply lookup_empty.
Qed.

Lemma shape_off_the_table_witness :
  main [[SHP [0] [(0%Q, 90%Q); ((1 # 2)%Q, 90%Q)]]]
  = Completed (open_output_on grid).
Proof.
  apply (shape_off_the_table 0 [(0%Q, 90%Q); ((1 # 2)%Q, 90%Q)] (180, 180)).
  - simpl. lia.
  - repeat constructor.
  - unfold in_grid. simpl. lia.
Defined.

End WholeRunTheorems.

Section OneVertexPart.

Import Encoder Ingester Output Program Invariants Contents Spec Samples.

(** A staging file whose first record is refused, in a run in which no
    cell before its cell has a staging file, ends the run with the output
    file as it was opened. *)
Lemma first_record_exits (i j : Z) (records : list segment) e :
  in_grid i j ->
  encode_records i j records (open_output_on grid) 0 0
  = Exit (-1) e (open_output_on grid) ->
  pass2 {[(j, i) := records]} = Exit (-1) e (open_output_on grid).
Proof.
  intros Hg Hrec. unfold pass2, pass2_on.
  pose proof (grid_lookup i j Hg) as Hk.
  pose proof (take_drop_middle grid _ (i, j) Hk) as Hsplit.
  pose proof NoDup_grid as Hnd. rewrite <- Hsplit in Hnd.
  apply NoDup_app in Hnd as (_ & Hdisj & _).
  revert Hrec Hsplit Hdisj.
  generalize (open_output_on grid). generalize (Z.to_nat (i * 360 + j)).
  generalize grid. clear. intros cells k ofp Hrec Hsplit Hdisj.
  rewrite <- Hsplit.
  apply (range_exit_ends_cells _ _ i j _ ofp ofp).
  - apply encode_cells_absent. intros i' j' Hin.
    apply lookup_singleton_ne. intros [= -> ->].
    apply (Hdisj _ Hin). by apply elem_of_cons; left.
  - unfold encode_cell. rewrite lookup_singleton_eq. by rewrite Hrec.
Qed.

(** A shape of two parts of which the first has a single vertex, all in
    cell (lon 10, lat 10): pass 1 stages the single vertex as a record of
    its own, and pass 2 ends the run on it. *)
Lemma one_vertex_part_exits :
  let shape :=
    SHP [0; 1] [((-1695 # 10)%Q, (-795 # 10)%Q);
                ((-677 # 4)%Q, (-317 # 4)%Q);
                ((-1353 # 8)%Q, (-633 # 8)%Q)] in
  (exists st,
      pass1 [[shape]] = Ok st
      /\ files st
         = {[(10, 10) := [[(1050000, 1050000)];
                          [(1075000, 1075000); (1087500, 1087500)]]]})
  /\ main [[shape]]
     = RangeExit (-1) (LonBiasOutOfRange 10 10 (-99999999))
         (open_output_on grid).
Proof.
  intros shape.
  assert (Hpass : exists st,
             pass1 [[shape]] = Ok st
             /\ files st
                = {[(10, 10) := [[(1050000, 1050000)];
                                 [(1075000, 1075000);
                                  (1087500, 1087500)]]]}).
  { eexists. split; vm_compute; reflexivity. }
  split; [exact Hpass|].
  destruct Hpass as (st & Hpass & Hfiles).
  unfold main. rewrite Hpass, Hfiles.
  rewrite (first_record_exits 10 10 _ (LonBiasOutOfRange 10 10 (-99999999)));
    [done | unfold in_grid; lia|].
  generalize (open_output_on grid). intros ofp. reflexivity.
Qed.

End OneVertexPart.

(** ** No vertex is lost by pass 1 *)

Section KeepingVertices.

Import Encoder Ingester Invariants Geometry Keeping.

Lemma in_file_write (files : gmap cell (list segment)) c0 s c v :
  in_file files c v ->
  in_file (<[c0 := default [] (files !! c0) ++ [s]]> files) c v.
Proof.
  intros (records & seg & Hl & Hin & Hv).
  destruct (decide (c0 = c)) as [->|Hne].
  - exists (records ++ [s]), seg. rewrite lookup_insert_eq, Hl.
    split; [done|]. split; [|done]. apply elem_of_app. by left.
  - exists records, seg. by rewrite lookup_insert_ne.
Qed.

Lemma in_file_open (files : gmap cell (list segment)) c1 c v :
  in_file files c v ->
  in_file (<[c1 := default [] (files !! c1)]> files) c v.
Proof.
  intros (records & seg & Hl & Hin & Hv).
  destruct (decide (c1 = c)) as [->|Hne].
  - exists records, seg. by rewrite lookup_insert_eq, Hl.
  - exists records, seg. by rewrite lookup_insert_ne.
Qed.

Lemma in_file_written (files : gmap cell (list segment)) c s v :
  v ∈ s -> in_file (<[c := default [] (files !! c) ++ [s]]> files) c v.
Proof.
  intros Hv. exists (default [] (files !! c) ++ [s]), s.
  rewrite lookup_insert_eq. split; [done|]. split; [|done].
  apply elem_of_app. right. by apply list_elem_of_singleton.
Qed.

(** A vertex which is kept is in its file once the segment is written. *)
Lemma kept_written (st : state) c0 s xy :
  kept st xy -> fp st = Some c0 ->
  (forall v, v ∈ take (Z.to_nat (segCount st)) (segxy st) -> v ∈ s) ->
  in_file (<[c0 := default [] (files st !! c0) ++ [s]]> (files st))
    (cell_of (normalize xy)) (staged xy).
Proof.
  intros [Hnone|[Hin|[Hfp Hpend]]] Hopen Hsub.
  - congruence.
  - by apply in_file_write.
  - assert (c0 = cell_of (normalize xy)) as -> by congruence.
    apply in_file_written. by apply Hsub.
Qed.

Lemma unchanged_cell (londeg1 latdeg1 : Z) (st : state) :
  (latdeg0 st >? -999)
  && (negb (latdeg1 =? latdeg0 st) || negb (londeg1 =? londeg0 st)) = false ->
  latdeg0 st > -999 ->
  londeg1 = londeg0 st /\ latdeg1 = latdeg0 st.
Proof.
  intros Hb Hlat.
  assert (Hgt : (latdeg0 st >? -999) = true) by (apply Z.gtb_lt; lia).
  rewrite Hgt in Hb. cbn [andb] in Hb.
  apply orb_false_elim in Hb as [H1 H2].
  apply negb_false_iff in H1, H2.
  apply Z.eqb_eq in H1, H2. done.
Qed.

(** What [split_step] keeps, and the file which it leaves open. *)
Lemma split_step_keeping start londeg1 latdeg1 (st st1 : state) seen :
  keeping st seen -> 0 <= latdeg1 ->
  split_step start londeg1 latdeg1 st = Ok st1 ->
  Forall (kept st1) seen
  /\ forall c, fp st1 = Some c -> c = (londeg1, latdeg1).
Proof.
  intros [[Hcount Hopen Hfiles Hfirst Hlat] Hcell Hnone Hseen] Hlat1 Hstep.
  unfold split_step in Hstep.
  destruct ((latdeg0 st >? -999)
            && (negb (latdeg1 =? latdeg0 st)
                || negb (londeg1 =? londeg0 st))) eqn:Hchanged.
  - destruct start.
    + (* close the segment, open the file of the new cell *)
      destruct (fwrite_segment (take (Z.to_nat (segCount st)) (segxy st)) st)
        as [st_w|] eqn:Hw; [|discriminate].
      cbn [bind] in Hstep.
      apply fwrite_segment_Ok in Hw as (c0 & Hfp & ->).
      unfold fclose in Hstep. cbn [fp set_files] in Hstep.
      rewrite Hfp in Hstep. cbn [bind] in Hstep. injection Hstep as <-.
      split; [|by intros c [= <-]].
      eapply Forall_impl; [exact Hseen|]. intros xy Hk.
      right; left.
      cbn [files set_segCount fopen_ab set_fp set_files].
      apply in_file_open. by apply kept_written.
    + (* add the last point, close the segment, open the new file *)
      destruct (fwrite_segment
                  (take (Z.to_nat (segCount (set_segCount (segCount st + 1)
                                               st) - 1))
                     (segxy (set_segCount (segCount st + 1) st))
                   ++ [(scaled (lon0 (set_segCount (segCount st + 1) st)),
                        scaled (lat0 (set_segCount (segCount st + 1) st)))])
                  (set_segCount (segCount st + 1) st))
        as [st_w|] eqn:Hw; [|discriminate].
      cbn [bind] in Hstep.
      apply fwrite_segment_Ok in Hw as (c0 & Hfp & ->).
      cbn [fp set_segCount] in Hfp.
      unfold fclose in Hstep. cbn [fp set_files set_segCount] in Hstep.
      rewrite Hfp in Hstep. cbn [bind] in Hstep. injection Hstep as <-.
      split; [|by intros c [= <-]].
      eapply Forall_impl; [exact Hseen|]. intros xy Hk.
      right; left.
      cbn [files push set_segCount set_segxy fopen_ab set_fp set_files
             segCount segxy lon0 lat0].
      apply in_file_open. apply kept_written; [done | done |].
      intros v Hv. apply elem_of_app. left.
      by replace (segCount st + 1 - 1) with (segCount st) by lia.
  - destruct start.
    + destruct (Z.eqb_spec (latdeg0 st) (-999)) as [Heq|Hneq].
      * (* the first vertex of the run *)
        injection Hstep as <-. rewrite (Hnone Heq).
        split; [constructor | by intros c [= <-]].
      * (* close the segment, stay in the file *)
        destruct (fwrite_segment (take (Z.to_nat (segCount st)) (segxy st))
                    st) as [st_w|] eqn:Hw; [|discriminate].
        cbn [bind] in Hstep. injection Hstep as <-.
        apply fwrite_segment_Ok in Hw as (c0 & Hfp & ->).
        assert (Hgt : latdeg0 st > -999) by lia.
        destruct (unchanged_cell _ _ _ Hchanged Hgt) as [-> ->].
        split.
        -- eapply Forall_impl; [exact Hseen|]. intros xy Hk.
           right; left. cbn [files set_segCount set_files].
           by apply kept_written.
        -- cbn [fp set_segCount set_files]. intros c Hc.
           apply Hcell; [lia | done].
    + injection Hstep as <-. split; [exact Hseen|].
      intros c Hc.
      destruct Hlat as [Heq|[Heq|Hge]].
      * destruct (Hfirst Heq) as [_ Hfp]. congruence.
      * destruct (unchanged_cell _ _ _ Hchanged ltac:(lia)) as [_ ->]. lia.
      * destruct (unchanged_cell _ _ _ Hchanged ltac:(lia)) as [-> ->].
        by apply Hcell.
Qed.

Lemma kept_push v (st : state) xy londeg latdeg lon lat :
  0 <= segCount st <= Z.of_nat (length (segxy st)) ->
  kept st xy -> kept (set_previous londeg latdeg lon lat (push v st)) xy.
Proof.
  intros Hcount [Hnone|[Hin|[Hfp Hpend]]].
  - by left.
  - right; left. exact Hin.
  - right; right. split; [exact Hfp|].
    change (take (Z.to_nat (segCount (set_previous londeg latdeg lon lat
                                        (push v st))))
              (segxy (set_previous londeg latdeg lon lat (push v st))))
      with (take (Z.to_nat (segCount (push v st))) (segxy (push v st))).
    rewrite take_push by done. apply elem_of_app. by left.
Qed.

Lemma vertex_step_keeping shape j numParts xy (st : state) r seen :
  keeping st seen -> valid_vertex xy ->
  vertex_step shape j numParts xy st = Ok r ->
  keeping r.1 (seen ++ [xy]).
Proof.
  intros Hkeep Hxy Hstep.
  pose proof (vertex_step_staging shape j numParts xy st r
                (kp_staging _ _ Hkeep) Hxy Hstep) as Hstaging.
  unfold vertex_step in Hstep.
  destruct (start_of_segment shape j numParts) as [start np].
  pose proof (valid_vertex_lat xy Hxy) as Hlat.
  destruct (cell_of (normalize xy)) as [londeg1 latdeg1] eqn:Hc.
  cbn [snd] in Hlat.
  destruct (split_step start londeg1 latdeg1 st) as [st1|] eqn:Hsplit;
    [|discriminate].
  cbn [bind] in Hstep. injection Hstep as <-. cbn [fst] in *.
  destruct (split_step_pending _ _ _ _ _ (kp_staging _ _ Hkeep) Hsplit)
    as (Hcount & _ & _).
  destruct (split_step_keeping _ _ _ _ _ _ Hkeep Hlat Hsplit)
    as (Hseen & Hfp).
  constructor.
  - exact Hstaging.
  - intros _ c Hc'. by apply Hfp.
  - cbn [latdeg0 set_previous]. lia.
  - apply Forall_app. split.
    + eapply Forall_impl; [exact Hseen|]. intros xy' Hk.
      by apply kept_push.
    + constructor; [|constructor].
      destruct (fp st1) as [c|] eqn:Hfp1; [|by left].
      right; right. split.
      * cbn [fp set_previous push set_segCount set_segxy].
        rewrite Hfp1, Hc. f_equal. by apply Hfp.
      * match goal with
        | |- _ ∈ take (Z.to_nat (segCount (set_previous _ _ _ _
                                              (push ?v ?s)))) _ =>
            change (v ∈ take (Z.to_nat (segCount (push v s)))
                          (segxy (push v s)))
        end.
        rewrite take_push by done. apply elem_of_app. right.
        by apply list_elem_of_singleton.
Qed.

Lemma vertex_loop_keeping shape vs : forall j numParts (st st' : state) seen,
    keeping st seen -> Forall valid_vertex vs ->
    vertex_loop shape j numParts vs st = Ok st' ->
    keeping st' (seen ++ vs).
Proof.
  induction vs as [|xy vs IH]; intros j numParts st st' seen Hk Hall Hloop.
  - injection Hloop as <-. by rewrite app_nil_r.
  - inversion Hall as [|? ? Hxy Hrest]; subst.
    cbn [vertex_loop] in Hloop.
    destruct (vertex_step shape j numParts xy st) as [r|] eqn:Hstep;
      [|discriminate].
    cbn [bind] in Hloop.
    rewrite cons_middle, app_assoc.
    eapply IH; [|exact Hrest|exact Hloop].
    by eapply vertex_step_keeping.
Qed.

Lemma set_total_keeping n (st : state) seen :
  keeping st seen -> keeping (set_total n st) seen.
Proof.
  intros [Hs Ho Hf Hseen]. constructor; try done.
  by apply set_total_staging.
Qed.

Lemma vertices_read_cons shape shapes :
  vertices_read (shape :: shapes)
  = (if 2 <=? nVertices shape then padf shape else [])
      ++ vertices_read shapes.
Proof.
  unfold vertices_read. destruct (Z.leb_spec 2 (nVertices shape)).
  - by rewrite filter_cons_True by done.
  - rewrite filter_cons_False by lia. done.
Qed.

Lemma shape_loop_keeping shapes : forall (st st' : state) seen,
    keeping st seen -> Forall valid_shape shapes ->
    shape_loop shapes st = Ok st' ->
    keeping st' (seen ++ vertices_read shapes).
Proof.
  induction shapes as [|shape shapes IH]; intros st st' seen Hk Hall Hloop.
  - injection Hloop as <-. by rewrite app_nil_r.
  - inversion Hall as [|? ? Hshape Hrest]; subst.
    cbn [shape_loop] in Hloop.
    destruct (shape_step shape st) as [st1|] eqn:Hstep; [|discriminate].
    cbn [bind] in Hloop.
    rewrite vertices_read_cons, app_assoc.
    eapply IH; [|exact Hrest|exact Hloop].
    unfold shape_step in Hstep. destruct (2 <=? nVertices shape).
    + eapply vertex_loop_keeping; [|exact Hshape|exact Hstep].
      by apply set_total_keeping.
    + injection Hstep as <-. rewrite app_nil_r.
      by apply set_total_keeping.
Qed.

Lemma source_step_filed shapes (st st' : state) seen :
  filed st seen -> Forall valid_shape shapes ->
  source_step shapes st = Ok st' ->
  filed st' (seen ++ vertices_read shapes).
Proof.
  intros [Hfl Hlat Hfirst Hseen] Hall Hsrc.
  pose proof (source_step_flushed shapes st st' Hfl Hall Hsrc) as Hfl'.
  unfold source_step in Hsrc.
  destruct (shape_loop shapes (set_segCount 0 st)) as [st1|] eqn:Hloop;
    [|discriminate].
  cbn [bind] in Hsrc.
  assert (Hk0 : keeping (set_segCount 0 st) seen).
  { destruct Hfl as [Hcount Hopen Hfiles Hfirst' Hlat'].
    constructor.
    - constructor; cbn [set_segCount segCount segxy fp files latdeg0];
        [lia | done | | done | done].
      intros c records Hl. left. eauto.
    - cbn [latdeg0 set_segCount]. lia.
    - exact Hfirst.
    - eapply Forall_impl; [exact Hseen|]. intros xy Hin. right; left.
      exact Hin. }
  pose proof (shape_loop_keeping shapes _ _ _ Hk0 Hall Hloop)
    as [_ _ _ Hseen1].
  destruct (fwrite_segment (take (Z.to_nat (segCount st1)) (segxy st1)) st1)
    as [st2|] eqn:Hw; [|discriminate].
  cbn [bind] in Hsrc. injection Hsrc as <-.
  apply fwrite_segment_Ok in Hw as (c0 & Hfp & ->).
  constructor.
  - exact Hfl'.
  - by right.
  - cbn [latdeg0 set_previous]. lia.
  - eapply Forall_impl; [exact Hseen1|]. intros xy Hk.
    cbn [files set_previous set_files]. by apply kept_written.
Qed.

Lemma source_loop_filed inputs : forall (st st' : state) seen,
    filed st seen -> valid_inputs inputs ->
    source_loop inputs st = Ok st' ->
    filed st' (seen ++ vertices_read (concat inputs)).
Proof.
  induction inputs as [|shapes inputs IH]; intros st st' seen Hf Hall Hloop.
  - injection Hloop as <-. by rewrite app_nil_r.
  - inversion Hall as [|? ? Hshapes Hrest]; subst.
    cbn [source_loop] in Hloop.
    destruct (source_step shapes st) as [st1|] eqn:Hsrc; [|discriminate].
    cbn [bind] in Hloop.
    assert (Hread : vertices_read (concat (shapes :: inputs))
                    = vertices_read shapes ++ vertices_read (concat inputs)).
    { unfold vertices_read. cbn [concat]. by rewrite filter_app, bind_app. }
    rewrite Hread, app_assoc.
    eapply IH; [|exact Hrest|exact Hloop].
    by eapply source_step_filed.
Qed.

(** Every vertex of every shape of at least two vertices is in a segment
    of the staging file of its cell after pass 1. *)
Lemma pass1_keeps inputs (st : state) :
  valid_inputs inputs -> pass1 inputs = Ok st ->
  forall shape xy,
    shape ∈ concat inputs -> 2 <= nVertices shape -> xy ∈ padf shape ->
    in_file (files st) (cell_of (normalize xy)) (staged xy).
Proof.
  intros Hall Hpass shape xy Hshape Hlong Hxy. unfold pass1 in Hpass.
  destruct (source_loop inputs initial) as [st1|] eqn:Hloop; [|discriminate].
  cbn [bind] in Hpass. unfold fclose in Hpass.
  destruct (fp st1); [|discriminate]. injection Hpass as <-.
  assert (Hf0 : filed initial []).
  { constructor; [apply initial_flushed | by left | done | constructor]. }
  pose proof (source_loop_filed inputs _ _ _ Hf0 Hall Hloop)
    as [_ _ _ Hseen].
  cbn [app] in Hseen.
  apply (proj1 (Forall_forall _ _) Hseen xy).
  unfold vertices_read. apply list_elem_of_bind. exists shape.
  split; [done|]. by apply list_elem_of_filter.
Qed.

End KeepingVertices.

Section KeepingTheorems.

Import Encoder Ingester Output Invariants Geometry Keeping Samples.

(** X9.  No vertex is lost by pass 1: after pass 1 on inputs within the
    input range, every vertex of every shape of at least two vertices is, as
    stored, in a segment of the staging file of its own cell. *)
Theorem no_vertex_lost (inputs : list (list SHPObject)) (st : state) :
  valid_inputs inputs -> pass1 inputs = Ok st ->
  forall shape xy,
    shape ∈ concat inputs -> 2 <= nVertices shape -> xy ∈ padf shape ->
    exists records seg,
      files st !! cell_of (normalize xy) = Some records
      /\ seg ∈ records /\ staged xy ∈ seg.
Proof. apply pass1_keeps. Qed.

Lemma no_vertex_lost_witness :
  exists st records seg,
    pass1 [[two_points]] = Ok st
    /\ files st !! (11, 10) = Some records
    /\ seg ∈ records /\ (1150000, 1050000) ∈ seg.
Proof.
  destruct (pass1_one_crossing 0 [] [((-1685 # 10)%Q, (-795 # 10)%Q)]
              ((-1695 # 10)%Q, (-795 # 10)%Q) (10, 10) (11, 10))
    as (st & Hpass & _);
    [discriminate | discriminate | simpl; lia | repeat constructor
     | repeat constructor |].
  destruct (no_vertex_lost [[two_points]] st two_points_valid Hpass
              two_points ((-1685 # 10)%Q, (-795 # 10)%Q))
    as (records & seg & Hl & Hin & Hv).
  - apply list_elem_of_singleton. reflexivity.
  - vm_compute. discriminate.
  - apply elem_of_cons. right. apply list_elem_of_singleton. reflexivity.
  - exists st, records, seg. split; [exact Hpass|].
    split; [exact Hl|]. split; [exact Hin | exact Hv].
Defined.

(** X10.  After pass 1 on inputs within the input range, no staging file
    holds empty records only: every staging file holds a segment of at least
    one vertex. *)
Theorem staging_files_hold_segments (inputs : list (list SHPObject))
    (st : state) :
  valid_inputs inputs -> pass1 inputs = Ok st ->
  forall c records,
    files st !! c = Some records -> exists seg, seg ∈ records /\ seg <> [].
Proof. apply pass1_files. Qed.

Lemma staging_files_hold_segments_witness :
  exists st,
    pass1 [[two_points]] = Ok st
    /\ forall c records,
        files st !! c = Some records ->
        exists seg, seg ∈ records /\ seg <> [].
Proof.
  destruct (pass1_one_crossing 0 [] [((-1685 # 10)%Q, (-795 # 10)%Q)]
              ((-1695 # 10)%Q, (-795 # 10)%Q) (10, 10) (11, 10))
    as (st & Hpass & _);
    [discriminate | discriminate | simpl; lia | repeat constructor
     | repeat constructor |].
  exists st. split; [exact Hpass|].
  exact (staging_files_hold_segments [[two_points]] st two_points_valid Hpass).
Defined.

(** X20.  An index entry which is written is read back, each of its three
    values modulo 2^32; the other entries of the index table, the length of
    the file and what follows the index table are left as they are. *)
Theorem index_entry_written i j a ns nv (ofp : file) :
  in_grid i j -> header_end <= Z.of_nat (length (data ofp)) ->
  read_entry (data (write_head i j a ns nv ofp)) i j
  = (a mod 2 ^ 32, ns mod 2 ^ 32, nv mod 2 ^ 32)
  /\ (forall i' j', in_grid i' j' -> (i', j') <> (i, j) ->
                    read_entry (data (write_head i j a ns nv ofp)) i' j'
                    = read_entry (data ofp) i' j')
  /\ length (data (write_head i j a ns nv ofp)) = length (data ofp)
  /\ drop (Z.to_nat header_end) (data (write_head i j a ns nv ofp))
     = drop (Z.to_nat header_end) (data ofp).
Proof.
  intros Hg Hlen. pose proof (header_offset_grid i j Hg) as [H1 H2].
  split; [apply read_entry_write_head_same; [done | lia]|].
  split.
  { intros i' j' Hg' Hne.
    apply read_entry_write_head_other; [done | done | congruence | lia]. }
  split; [by apply length_write_head | by apply drop_write_head].
Qed.

Lemma index_entry_written_witness :
  read_entry (data (write_head 3 4 777728 1 3 (open_output_on grid))) 3 4
  = (777728, 1, 3).
Proof.
  assert (Hg : in_grid 3 4) by (unfold in_grid; lia).
  destruct (index_entry_written 3 4 777728 1 3 (open_output_on grid) Hg)
    as (H & _).
  - exact (proj1 (proj2 open_output_end)).
  - rewrite H. reflexivity.
Defined.

End KeepingTheorems.

Section WidthOfField.

Import Encoder.

(** X14.  The width computed for a value of at least 1 is the number of its
    bits or one more: no value is cut, and at most one bit is wasted. *)
Theorem width_within_one_bit (n : Z) :
  1 <= n -> Z.log2 n + 1 <= field_bits n <= Z.log2 n + 2.
Proof.
  intros Hn. split.
  - rewrite field_bits_eq by done.
    pose proof (round_log2_ge_log2 n Hn). lia.
  - pose proof (Z.log2_nonneg n).
    pose proof (Z.log2_spec n ltac:(lia)) as [_ Hhi].
    replace (Z.succ (Z.log2 n)) with (Z.log2 n + 1) in Hhi by lia.
    pose proof (field_bits_upper n (Z.log2 n + 1) ltac:(lia) ltac:(lia)).
    lia.
Qed.

Lemma width_within_one_bit_witness :
  Z.log2 6 + 1 <= field_bits 6 <= Z.log2 6 + 2 /\ field_bits 6 = 4.
Proof.
  split; [apply (width_within_one_bit 6); lia | reflexivity].
Defined.

End WidthOfField.

(** ** The names of the staging files *)

Section StagingNames.

Import String Ascii DecimalString Names.

Local Open Scope string_scope.

Lemma number_zeros (k : nat) (s : string) :
  number (zeros k ++ s) = number s.
Proof.
  induction k as [|k IH]; [done|].
  rewrite <- IH. unfold number.
  change (NilEmpty.uint_of_string (zeros (S k) ++ s))
    with (uint_of_char "0" (NilEmpty.uint_of_string (zeros k ++ s))).
  by destruct (NilEmpty.uint_of_string (zeros k ++ s)) as [d|].
Qed.

Lemma number_digits (n : N) : number (digits n) = Some n.
Proof.
  unfold number, digits. rewrite NilEmpty.usu.
  by rewrite DecimalN.Unsigned.of_to.
Qed.

Lemma number_pad (w : nat) (n : N) : number (pad w (digits n)) = Some n.
Proof. unfold pad. by rewrite number_zeros, number_digits. Qed.

Lemma number_minus (s : string) : number (String "-" s) = None.
Proof.
  unfold number. cbn [NilEmpty.uint_of_string].
  by destruct (NilEmpty.uint_of_string s).
Qed.

(** [%03d] prints different integers differently. *)
Lemma fmt_03d_inj (a b : Z) : fmt_03d a = fmt_03d b -> a = b.
Proof.
  unfold fmt_03d. intros H.
  destruct (Z.ltb_spec a 0) as [Ha|Ha], (Z.ltb_spec b 0) as [Hb|Hb].
  - injection H as H. apply (f_equal number) in H.
    rewrite !number_pad in H. injection H as H. lia.
  - apply (f_equal number) in H.
    rewrite number_minus, number_pad in H. discriminate.
  - apply (f_equal number) in H.
    rewrite number_minus, number_pad in H. discriminate.
  - apply (f_equal number) in H.
    rewrite !number_pad in H. injection H as H. lia.
Qed.

Lemma plain_append (s t : string) : plain s -> plain t -> plain (s ++ t).
Proof.
  induction s as [|a s IH]; [done|].
  intros [Ha Hs] Ht. by split; [|apply IH].
Qed.

Lemma plain_zeros (k : nat) : plain (zeros k).
Proof. induction k as [|k IH]; [done|]. by split. Qed.

Lemma plain_uint (d : Decimal.uint) : plain (NilEmpty.string_of_uint d).
Proof. induction d; by cbn. Qed.

Lemma plain_fmt_03d (z : Z) : plain (fmt_03d z).
Proof.
  unfold fmt_03d, pad, digits.
  destruct (z <? 0)%Z.
  - split; [done|]. apply plain_append; [apply plain_zeros | apply plain_uint].
  - apply plain_append; [apply plain_zeros | apply plain_uint].
Qed.

(** Two names with an underscore split at their first underscore. *)
Lemma split_at_underscore (s s' t t' : string) :
  plain s -> plain s' ->
  s ++ String "_" t = s' ++ String "_" t' -> s = s' /\ t = t'.
Proof.
  revert s'. induction s as [|a s IH]; intros [|a' s'] Hs Hs' H.
  - by injection H as ->.
  - injection H as <- _. by destruct Hs' as [Ha _].
  - injection H as -> _. by destruct Hs as [Ha _].
  - injection H as -> H. destruct Hs as [_ Hs], Hs' as [_ Hs'].
    destruct (IH s' Hs Hs' H) as [-> ->]. done.
Qed.

Lemma cell_name_inj (a b a' b' : Z) :
  cell_name a b = cell_name a' b' -> a = a' /\ b = b'.
Proof.
  unfold cell_name. intros H.
  repeat (injection H as H).
  change ("_" ++ fmt_03d b) with (String "_" (fmt_03d b)) in H.
  change ("_" ++ fmt_03d b') with (String "_" (fmt_03d b')) in H.
  apply split_at_underscore in H as [Ha Hb]; [|apply plain_fmt_03d..].
  split; by apply fmt_03d_inj.
Qed.

(** X25.  The staging file which pass 1 writes for a cell is the one which
    pass 2 reads for it, and no other cell has it: two pairs of integers
    have the same file name exactly when they are the same pair. *)
Theorem cell_name_injective (a b a' b' : Z) :
  cell_name a b = cell_name a' b' <-> (a = a' /\ b = b').
Proof.
  split; [apply cell_name_inj|]. by intros [-> ->].
Qed.

End StagingNames.

(** ** The name of the output file *)

Section OutputName.

Import String Ascii Names.

Local Open Scope string_scope.

Lemma length_append_ccl (s : string) :
  String.length (s ++ ".ccl") = (String.length s + 4)%nat.
Proof.
  induction s as [|a s IH]; [done|].
  change (S (String.length (s ++ ".ccl")) = S (String.length s + 4)).
  by rewrite IH.
Qed.

Lemma substring_ccl (s : string) :
  substring (String.length (s ++ ".ccl") - 4) 4 (s ++ ".ccl") = ".ccl".
Proof.
  induction s as [|a s IH]; [done|].
  rewrite length_append_ccl in *.
  replace (String.length (String a s) + 4 - 4)%nat
    with (S (String.length s + 4 - 4)) by (cbn [String.length]; lia).
  exact IH.
Qed.

Lemma prefix_append (s t : string) : prefix s (s ++ t) = true.
Proof.
  induction s as [|a s IH]; [by destruct t|].
  change (prefix (String a s) (String a (s ++ t)) = true).
  cbn [prefix]. by destruct (ascii_dec a a).
Qed.

Lemma prefix_same (s : string) : prefix s s = true.
Proof.
  induction s as [|a s IH]; [done|].
  cbn [prefix]. by destruct (ascii_dec a a).
Qed.

(** X26.  The name of the output file, where the source computes one: it
    ends with ".ccl", it is the argument itself when the argument ends with
    ".ccl" and the argument followed by ".ccl" otherwise, and it is its own
    output name. *)
Theorem outname_extension (arg out : string) :
  outname arg = Some out ->
  substring (String.length out - 4) 4 out = ".ccl"
  /\ (substring (String.length arg - 4) 4 arg = ".ccl" -> out = arg)
  /\ (substring (String.length arg - 4) 4 arg <> ".ccl" ->
      out = arg ++ ".ccl")
  /\ prefix arg out = true
  /\ outname out = Some out.
Proof.
  unfold outname. intros H.
  destruct (Nat.ltb_spec (String.length arg) 4) as [H4|H4]; [discriminate|].
  destruct (Nat.leb_spec 512 (String.length arg)) as [H512|H512];
    [discriminate|].
  destruct (String.eqb_spec (substring (String.length arg - 4) 4 arg) ".ccl")
    as [Heq|Hne].
  - injection H as <-.
    split; [exact Heq|]. split; [done|]. split; [done|].
    split.
    + apply prefix_same.
    + destruct (Nat.ltb_spec (String.length arg) 4); [lia|].
      destruct (Nat.leb_spec 512 (String.length arg)); [lia|].
      by destruct (String.eqb_spec
                     (substring (String.length arg - 4) 4 arg) ".ccl").
  - destruct (Nat.leb_spec 512 (String.length arg + 4)) as [H508|H508];
      [discriminate|].
    injection H as <-.
    split; [apply substring_ccl|]. split; [done|]. split; [done|].
    split; [apply prefix_append|].
    rewrite length_append_ccl.
    destruct (Nat.ltb_spec (String.length arg + 4) 4); [lia|].
    destruct (Nat.leb_spec 512 (String.length arg + 4)); [lia|].
    pose proof (substring_ccl arg) as Hs. rewrite length_append_ccl in Hs.
    rewrite Hs. done.
Qed.

Lemma outname_extension_witness :
  outname "coast" = Some "coast.ccl"
  /\ outname "coast.ccl" = Some "coast.ccl".
Proof.
  split; [reflexivity|].
  apply (outname_extension "coast" "coast.ccl"). reflexivity.
Defined.

(** The source computes a name of the output file exactly for the
    arguments of at least 4 characters which, with the extension they get,
    fit the 512 characters of [outname]. *)
Lemma outname_defined (arg : string) :
  (exists out, outname arg = Some out)
  <-> (4 <= String.length arg)%nat
      /\ ((String.length arg < 508)%nat
          \/ ((String.length arg < 512)%nat
              /\ substring (String.length arg - 4) 4 arg = ".ccl")).
Proof.
  unfold outname.
  destruct (Nat.ltb_spec (String.length arg) 4);
    [split; [by intros [out Hout] | lia]|].
  destruct (Nat.leb_spec 512 (String.length arg));
    [split; [by intros [out Hout] | lia]|].
  destruct (String.eqb_spec (substring (String.length arg - 4) 4 arg) ".ccl").
  - split; [|by eexists]. intros _. split; [done|]. right. by split.
  - destruct (Nat.leb_spec 512 (String.length arg + 4)).
    + split; [by intros [out Hout]|]. intros [_ [Hlt|[_ Heq]]]; [lia|done].
    + split; [|by eexists]. intros _. split; [done|]. left. lia.
Qed.

End OutputName.

(** ** The staging files are appended to *)

Section AppendOnly.

Import Encoder Ingester Invariants Geometry Keeping.

Lemma grows_refl (m : gmap cell (list segment)) : grows m m.
Proof. intros c records Hl. exists []. by rewrite app_nil_r. Qed.

Lemma grows_trans (m1 m2 m3 : gmap cell (list segment)) :
  grows m1 m2 -> grows m2 m3 -> grows m1 m3.
Proof.
  intros H12 H23 c records Hl.
  destruct (H12 c records Hl) as [more1 Hl2].
  destruct (H23 c _ Hl2) as [more2 Hl3].
  exists (more1 ++ more2). by rewrite app_assoc.
Qed.

Lemma grows_write (m : gmap cell (list segment)) c0 s :
  grows m (<[c0 := default [] (m !! c0) ++ [s]]> m).
Proof.
  intros c records Hl. destruct (decide (c0 = c)) as [->|Hne].
  - exists [s]. by rewrite lookup_insert_eq, Hl.
  - exists []. by rewrite lookup_insert_ne, app_nil_r.
Qed.

Lemma grows_open (m : gmap cell (list segment)) c1 :
  grows m (<[c1 := default [] (m !! c1)]> m).
Proof.
  intros c records Hl. exists []. rewrite app_nil_r.
  destruct (decide (c1 = c)) as [->|Hne].
  - by rewrite lookup_insert_eq, Hl.
  - by rewrite lookup_insert_ne.
Qed.

Lemma fwrite_segment_grows s (st st' : state) :
  fwrite_segment s st = Ok st' -> grows (files st) (files st').
Proof.
  intros Hw. apply fwrite_segment_Ok in Hw as (c0 & _ & ->).
  apply grows_write.
Qed.

Lemma split_step_grows start londeg1 latdeg1 (st st' : state) :
  split_step start londeg1 latdeg1 st = Ok st' -> grows (files st) (files st').
Proof.
  unfold split_step. intros Hstep.
  destruct ((latdeg0 st >? -999)
            && (negb (latdeg1 =? latdeg0 st)
                || negb (londeg1 =? londeg0 st))).
  - destruct start.
    + destruct (fwrite_segment _ st) as [st_w|] eqn:Hw; [|discriminate].
      cbn [bind] in Hstep. apply fwrite_segment_grows in Hw.
      destruct (fclose st_w) as [st_c|] eqn:Hc; [|discriminate].
      cbn [bind] in Hstep. injection Hstep as <-.
      unfold fclose in Hc. destruct (fp st_w); [|discriminate].
      injection Hc as <-.
      eapply grows_trans; [exact Hw|]. apply grows_open.
    + destruct (fwrite_segment _ _) as [st_w|] eqn:Hw; [|discriminate].
      cbn [bind] in Hstep. apply fwrite_segment_grows in Hw.
      destruct (fclose st_w) as [st_c|] eqn:Hc; [|discriminate].
      cbn [bind] in Hstep. injection Hstep as <-.
      unfold fclose in Hc. destruct (fp st_w); [|discriminate].
      injection Hc as <-.
      eapply grows_trans; [exact Hw|]. apply grows_open.
  - destruct start.
    + destruct (latdeg0 st =? -999).
      * injection Hstep as <-. apply grows_open.
      * destruct (fwrite_segment _ st) as [st_w|] eqn:Hw; [|discriminate].
        cbn [bind] in Hstep. injection Hstep as <-.
        by apply fwrite_segment_grows in Hw.
    + injection Hstep as <-. apply grows_refl.
Qed.

Lemma vertex_step_grows shape j numParts xy (st : state) r :
  vertex_step shape j numParts xy st = Ok r -> grows (files st) (files r.1).
Proof.
  unfold vertex_step. intros Hstep.
  destruct (start_of_segment shape j numParts) as [start np].
  destruct (cell_of (normalize xy)) as [londeg1 latdeg1].
  destruct (split_step start londeg1 latdeg1 st) as [st1|] eqn:Hs;
    [|discriminate].
  cbn [bind] in Hstep. injection Hstep as <-.
  by apply split_step_grows in Hs.
Qed.

Lemma vertex_loop_grows shape vs : forall j numParts (st st' : state),
    vertex_loop shape j numParts vs st = Ok st' ->
    grows (files st) (files st').
Proof.
  induction vs as [|xy vs IH]; intros j numParts st st' H.
  - injection H as <-. apply grows_refl.
  - cbn [vertex_loop] in H.
    destruct (vertex_step shape j numParts xy st) as [r|] eqn:Hstep;
      [|discriminate].
    cbn [bind] in H. apply IH in H. apply vertex_step_grows in Hstep.
    by eapply grows_trans.
Qed.

Lemma shape_loop_grows shapes : forall st st' : state,
    shape_loop shapes st = Ok st' -> grows (files st) (files st').
Proof.
  induction shapes as [|shape shapes IH]; intros st st' H.
  - injection H as <-. apply grows_refl.
  - cbn [shape_loop] in H.
    destruct (shape_step shape st) as [st1|] eqn:Hstep; [|discriminate].
    cbn [bind] in H. apply IH in H.
    eapply grows_trans; [|exact H].
    unfold shape_step in Hstep. destruct (2 <=? nVertices shape).
    + by apply vertex_loop_grows in Hstep.
    + injection Hstep as <-. apply grows_refl.
Qed.

Lemma source_step_grows shapes (st st' : state) :
  source_step shapes st = Ok st' -> grows (files st) (files st').
Proof.
  unfold source_step. intros H.
  destruct (shape_loop shapes (set_segCount 0 st)) as [st1|] eqn:Hloop;
    [|discriminate].
  cbn [bind] in H. apply shape_loop_grows in Hloop.
  destruct (fwrite_segment _ st1) as [st2|] eqn:Hw; [|discriminate].
  cbn [bind] in H. injection H as <-.
  apply fwrite_segment_grows in Hw.
  by eapply grows_trans.
Qed.

Lemma source_loop_grows inputs : forall st st' : state,
    source_loop inputs st = Ok st' -> grows (files st) (files st').
Proof.
  induction inputs as [|shapes inputs IH]; intros st st' H.
  - injection H as <-. apply grows_refl.
  - cbn [source_loop] in H.
    destruct (source_step shapes st) as [st1|] eqn:Hsrc; [|discriminate].
    cbn [bind] in H. apply IH in H. apply source_step_grows in Hsrc.
    by eapply grows_trans.
Qed.

(** X11.  The staging files are appended to only: whatever vertex, and
    whatever input files, pass 1 goes on with, a staging file keeps the
    records it holds, in their order, before what is written then. *)
Theorem staging_files_append_only :
  (forall shape j numParts xy (st : state) r,
      vertex_step shape j numParts xy st = Ok r ->
      forall c records,
        files st !! c = Some records ->
        exists more, files r.1 !! c = Some (records ++ more))
  /\ (forall inputs (st st' : state),
         source_loop inputs st = Ok st' ->
         forall c records,
           files st !! c = Some records ->
           exists more, files st' !! c = Some (records ++ more)).
Proof.
  split.
  - intros shape j numParts xy st r H. by apply vertex_step_grows in H.
  - intros inputs st st' H. by apply source_loop_grows in H.
Qed.

End AppendOnly.

Section AppendOnlyExample.

Import Encoder Ingester Invariants Geometry Keeping Samples.

Lemma staging_files_append_only_witness :
  exists r more,
    vertex_step two_points 1 1 ((-1685 # 10)%Q, (-795 # 10)%Q)
      after_first_vertex = Ok r
    /\ files r.1 !! (10, 10) = Some ([] ++ more).
Proof.
  pose proof (vertex_step_crossing two_points 1
                ((-1685 # 10)%Q, (-795 # 10)%Q) after_first_vertex
                eq_refl ltac:(lia) ltac:(simpl; lia) eq_refl
                ltac:(vm_compute; congruence)) as Hstep.
  cbv zeta in Hstep.
  destruct (proj1 staging_files_append_only two_points 1 1
              ((-1685 # 10)%Q, (-795 # 10)%Q) after_first_vertex _ Hstep
              (10, 10) []) as [more Hmore].
  - reflexivity.
  - eexists. exists more. split; [exact Hstep | exact Hmore].
Defined.

End AppendOnlyExample.

(** ** The start of a part *)

Section PartStart.

Import Encoder Ingester Invariants Geometry Keeping.

Lemma vertex_step_part_start shape j numParts xy (st : state)
    (c0 : cell) :
  (start_of_segment shape j numParts).1 = true ->
  latdeg0 st > -999 ->
  fp st = Some c0 ->
  let new := cell_of (normalize xy) in
  let record := take (Z.to_nat (segCount st)) (segxy st) in
  let written := <[c0 := default [] (files st !! c0) ++ [record]]> (files st) in
  exists st',
    vertex_step shape j numParts xy st
    = Ok (st', (start_of_segment shape j numParts).2)
    /\ segCount st' = 1 /\ segxy st' = [staged xy]
    /\ (new = (londeg0 st, latdeg0 st) ->
        files st' = written /\ fp st' = Some c0)
    /\ (new <> (londeg0 st, latdeg0 st) ->
        files st' = <[new := default [] (written !! new)]> written
        /\ fp st' = Some new).
Proof.
  intros Hstart Hlat Hfp new record written.
  unfold vertex_step.
  destruct (start_of_segment shape j numParts) as [start np].
  cbn [fst snd] in *. subst start.
  subst new. destruct (cell_of (normalize xy)) as [londeg1 latdeg1] eqn:Hc.
  assert (Hgt : (latdeg0 st >? -999) = true) by (apply Z.gtb_lt; lia).
  assert (Hne999 : (latdeg0 st =? -999) = false) by (apply Z.eqb_neq; lia).
  unfold split_step. rewrite Hgt. cbn [andb].
  destruct (decide ((londeg1, latdeg1) = (londeg0 st, latdeg0 st)))
    as [Heq|Hne].
  - injection Heq as -> ->. rewrite bool_cell_same, Hne999.
    unfold fwrite_segment. rewrite Hfp. cbn [bind].
    eexists. split; [reflexivity|].
    cbn [segCount segxy files fp set_previous push set_segCount set_segxy
           set_files].
    change (Z.to_nat 0) with 0%nat. rewrite take_0. cbn [app].
    split; [done|]. split; [done|]. split; [done|].
    intros Hne. by destruct Hne.
  - rewrite (bool_cell_differs _ _ _ _ Hne).
    unfold fwrite_segment. rewrite Hfp. cbn [bind].
    unfold fclose. cbn [fp set_files]. rewrite Hfp. cbn [bind].
    eexists. split; [reflexivity|].
    cbn [segCount segxy files fp set_previous push set_segCount set_segxy
           set_files fopen_ab set_fp].
    change (Z.to_nat 0) with 0%nat. rewrite take_0. cbn [app].
    split; [done|]. split; [done|]. split; [intros Heq; by destruct Hne|].
    done.
Qed.


(** X7.  The first vertex of a part, after the first vertex of the run: the
    segment before it is written to the open file as it is, without the
    vertex, and the vertex alone starts the next segment; the file of its
    cell is opened when its cell is another than that of the vertex before
    it. *)
Theorem part_start_closes_segment shape j numParts xy (st : state)
    (c0 : cell) :
  (start_of_segment shape j numParts).1 = true ->
  latdeg0 st > -999 ->
  fp st = Some c0 ->
  let new := cell_of (normalize xy) in
  let record := take (Z.to_nat (segCount st)) (segxy st) in
  let written := <[c0 := default [] (files st !! c0) ++ [record]]> (files st) in
  exists st',
    vertex_step shape j numParts xy st
    = Ok (st', (start_of_segment shape j numParts).2)
    /\ segCount st' = 1 /\ segxy st' = [staged xy]
    /\ (new = (londeg0 st, latdeg0 st) ->
        files st' = written /\ fp st' = Some c0)
    /\ (new <> (londeg0 st, latdeg0 st) ->
        files st' = <[new := default [] (written !! new)]> written
        /\ fp st' = Some new).
Proof. apply vertex_step_part_start. Qed.

Lemma part_start_closes_segment_witness :
  exists st',
    vertex_step (SHP [0; 1] [(0%Q, 0%Q); (0%Q, 0%Q)]) 1 1
      ((-1685 # 10)%Q, (-795 # 10)%Q) Samples.after_first_vertex
    = Ok (st', 2)
    /\ segCount st' = 1 /\ segxy st' = [(1150000, 1050000)].
Proof.
  destruct (part_start_closes_segment (SHP [0; 1] [(0%Q, 0%Q); (0%Q, 0%Q)])
              1 1 ((-1685 # 10)%Q, (-795 # 10)%Q) Samples.after_first_vertex
              (10, 10)) as (st' & Hstep & Hcount & Hseg & _).
  - reflexivity.
  - simpl. lia.
  - reflexivity.
  - exists st'. split; [exact Hstep|]. split; [exact Hcount | exact Hseg].
Defined.

(** X8.  The first vertex of a later input file, at the start of a part,
    writes a record without vertices to the file which the input file before
    it left open: after that input file, the staging file holds what it
    held, then an empty record, then what was written after it. *)
Theorem empty_record_between_files shape shapes xy vs (st st' : state)
    (c0 : cell) :
  fp st = Some c0 -> latdeg0 st = -888 ->
  (start_of_segment shape 0 1).1 = true ->
  padf shape = xy :: vs -> vs <> [] ->
  (cell_of (normalize xy)).2 <> -888 ->
  source_step (shape :: shapes) st = Ok st' ->
  exists more,
    files st' !! c0 = Some (default [] (files st !! c0) ++ [] :: more).
Proof.
  intros Hfp Hlat Hstart Hpadf Hvs Hcell Hsrc.
  unfold source_step in Hsrc.
  destruct (shape_loop (shape :: shapes) (set_segCount 0 st)) as [st3|]
    eqn:Hloop; [|discriminate].
  cbn [bind] in Hsrc.
  destruct (fwrite_segment _ st3) as [st4|] eqn:Hw; [|discriminate].
  cbn [bind] in Hsrc. injection Hsrc as <-.
  cbn [files set_previous].
  apply fwrite_segment_grows in Hw.
  cbn [shape_loop] in Hloop.
  destruct (shape_step shape (set_segCount 0 st)) as [st2|] eqn:Hshape;
    [|discriminate].
  cbn [bind] in Hloop. apply shape_loop_grows in Hloop.
  unfold shape_step in Hshape.
  assert (Hn : (2 <=? nVertices shape) = true).
  { apply Z.leb_le. unfold nVertices. rewrite Hpadf.
    destruct vs; [done | cbn [length]; lia]. }
  rewrite Hn, Hpadf in Hshape. cbn [vertex_loop] in Hshape.
  set (st0 := set_total (add32 (total (set_segCount 0 st)) (nVertices shape))
                (set_segCount 0 st)) in *.
  destruct (vertex_step_part_start shape 0 1 xy st0 c0 Hstart
              ltac:(subst st0; cbn [latdeg0 set_total set_segCount]; lia)
              Hfp) as (st1 & Hstep & _ & _ & _ & Hnew).
  rewrite Hstep in Hshape. cbn [bind fst snd] in Hshape.
  apply vertex_loop_grows in Hshape.
  destruct Hnew as [Hfiles1 _].
  { subst st0. cbn [londeg0 latdeg0 set_total set_segCount]. rewrite Hlat.
    intros Heq. apply Hcell. by rewrite Heq. }
  assert (Hl1 : files st1 !! c0
                = Some (default [] (files st !! c0) ++ [[]])).
  { rewrite Hfiles1. subst st0.
    cbn [files segCount segxy set_total set_segCount].
    change (Z.to_nat 0) with 0%nat. rewrite take_0.
    destruct (decide (cell_of (normalize xy) = c0)) as [->|Hne].
    - by rewrite lookup_insert_eq, lookup_insert_eq.
    - by rewrite lookup_insert_ne, lookup_insert_eq. }
  destruct (Hshape c0 _ Hl1) as [more2 Hl2].
  destruct (Hloop c0 _ Hl2) as [more3 Hl3].
  destruct (Hw c0 _ Hl3) as [more4 Hl4].
  exists (more2 ++ more3 ++ more4). rewrite Hl4. f_equal.
  rewrite <- !app_assoc. done.
Qed.

Lemma empty_record_between_files_witness :
  exists st' more,
    source_step [Samples.two_points]
      (State 2 (Some (10, 10)) {[(10, 10) := [[(1050000, 1050000)]]]} 1
         [(1050000, 1050000)] 10 (-888) (21 # 2)%Q (21 # 2)%Q)
    = Ok st'
    /\ files st' !! (10, 10) = Some ([[(1050000, 1050000)]] ++ [] :: more).
Proof.
  set (st := State 2 (Some (10, 10)) {[(10, 10) := [[(1050000, 1050000)]]]}
               1 [(1050000, 1050000)] 10 (-888) (21 # 2)%Q (21 # 2)%Q).
  destruct (source_step [Samples.two_points] st) as [st'|] eqn:Hsrc;
    [|exfalso; vm_compute in Hsrc; discriminate].
  destruct (empty_record_between_files Samples.two_points []
              ((-1695 # 10)%Q, (-795 # 10)%Q)
              [((-1685 # 10)%Q, (-795 # 10)%Q)] st st' (10, 10)
              eq_refl eq_refl eq_refl eq_refl) as [more Hmore].
  - discriminate.
  - vm_compute. discriminate.
  - exact Hsrc.
  - exists st', more. split; [reflexivity | exact Hmore].
Defined.

End PartStart.

(** ** The range error which ends a run *)

Section RangeExit.

Import Encoder Ingester Output Invariants Contents.

Lemma encode_records_exit i j records : forall (ofp ofp' : file) ns nv code e,
    encode_records i j records ofp ns nv = Exit code e ofp' ->
    code = -1
    /\ exists seg, seg ∈ records /\ seg <> []
                   /\ encode_segment i j seg = inl e.
Proof.
  induction records as [|seg records IH]; intros ofp ofp' ns nv code e H;
    [discriminate|].
  cbn [encode_records] in H.
  destruct (Z.eqb_spec (Z.of_nat (length seg)) 0) as [Hz|Hz].
  - apply IH in H as (Hcode & s & Hin & Hne & He).
    split; [done|]. exists s. split; [by apply elem_of_cons; right | done].
  - destruct (encode_segment i j seg) as [e'|block] eqn:He.
    + injection H as <- <- <-. split; [done|]. exists seg.
      split; [by apply elem_of_cons; left|]. split; [|done].
      intros ->. by apply Hz.
    + apply IH in H as (Hcode & s & Hin & Hne & He').
      split; [done|]. exists s.
      split; [by apply elem_of_cons; right | done].
Qed.

Lemma encode_cells_exit files cells : forall (ofp ofp' : file) code e,
    encode_cells files cells ofp = Exit code e ofp' ->
    code = -1
    /\ exists i j records seg,
        (i, j) ∈ cells /\ files !! (j, i) = Some records
        /\ seg ∈ records /\ seg <> []
        /\ encode_segment i j seg = inl e.
Proof.
  induction cells as [|[i0 j0] cells IH]; intros ofp ofp' code e H;
    [discriminate|].
  cbn [encode_cells fst snd] in H.
  destruct (encode_cell files i0 j0 ofp) as [ofp1|code1 e1 ofp1] eqn:Hcell.
  - apply IH in H as (Hcode & i & j & records & seg & Hin & Hrest).
    split; [done|]. exists i, j, records, seg.
    split; [by apply elem_of_cons; right | done].
  - injection H as <- <- <-. unfold encode_cell in Hcell.
    destruct (files !! (j0, i0)) as [records|] eqn:Hl; [|discriminate].
    destruct (encode_records i0 j0 records ofp 0 0) as [[[o ns] nv]|c1 e2 o]
      eqn:Hrec; [discriminate|].
    injection Hcell as <- <- <-.
    apply encode_records_exit in Hrec as (Hcode & seg & Hin & Hne & He).
    split; [done|]. exists i0, j0, records, seg.
    split; [by apply elem_of_cons; left | done].
Qed.

(** The errors of a segment: a bias error names the cell and the bias of
    the segment, and the buffer is not allocated when the size is below 0. *)
Lemma encode_segment_error i j (seg : segment) e :
  encode_segment i j seg = inl e ->
  e = LonBiasOutOfRange i j (neg32 (diff_range seg.*1).1)
  \/ e = LatBiasOutOfRange i j (neg32 (diff_range seg.*2).1)
  \/ (e = AllocatingBuffer
      /\ exists f, segment_fields i j seg = inr f /\ f_size f < 0).
Proof.
  intros He. unfold encode_segment in He.
  destruct (segment_fields i j seg) as [e0|f] eqn:Hf.
  - injection He as <-. unfold segment_fields in Hf.
    destruct ((neg32 (diff_range seg.*1).1 >? max_bias)
              || (neg32 (diff_range seg.*1).1 <? - max_bias)).
    + injection Hf as <-. by left.
    + destruct ((neg32 (diff_range seg.*2).1 >? max_bias)
                || (neg32 (diff_range seg.*2).1 <? - max_bias)).
      * injection Hf as <-. right. by left.
      * discriminate.
  - destruct (Z.lt_ge_cases (f_size f) 0) as [Hneg|Hpos].
    + rewrite calloc_None in He by done. injection He as <-.
      right. right. split; [done|]. by exists f.
    + rewrite calloc_Some in He by done. discriminate.
Qed.

(** X17.  On staging files whose vertices are within the range of the
    stored vertices and whose records have fewer than [2 ^ 25] vertices, a
    run of pass 2 which exits does so with the code -1 and a bias error of a
    segment with vertices which is staged for a cell of the index table; the
    cell which the error names is that cell, and the bias is the one
    computed for that segment. *)
Theorem range_exit_names_segment (files : gmap (Z * Z) (list segment))
    code e (ofp : file) :
  staged_within files ->
  pass2 files = Exit code e ofp ->
  code = -1
  /\ exists i j records seg,
      in_grid i j /\ files !! (j, i) = Some records
      /\ seg ∈ records /\ seg <> []
      /\ encode_segment i j seg = inl e
      /\ (e = LonBiasOutOfRange i j (neg32 (diff_range seg.*1).1)
          \/ e = LatBiasOutOfRange i j (neg32 (diff_range seg.*2).1)).
Proof.
  unfold pass2, pass2_on. intros Hwithin H.
  apply encode_cells_exit in H
    as (Hcode & i & j & records & seg & Hin & Hl & Hseg & Hne & He).
  split; [done|]. exists i, j, records, seg.
  split; [by apply elem_of_grid|]. split; [done|]. split; [done|].
  split; [done|]. split; [done|].
  destruct (encode_segment_error i j seg e He) as [H|[H|[_ (f & Hf & Hs)]]];
    [by left | by right|].
  destruct (Hwithin _ _ _ Hl Hseg) as [Hr Hc].
  pose proof (stored_segment_size i j seg f Hr Hc Hf). lia.
Qed.

Lemma range_exit_names_segment_witness :
  exists code e ofp,
    pass2 {[(4, 3) := [[(0, 0); (200000, 0)]]]} = Exit code e ofp
    /\ code = -1.
Proof.
  destruct (pass2 {[(4, 3) := [[(0, 0); (200000, 0)]]]})
    as [ofp|code e ofp] eqn:Hrun.
  - exfalso.
    assert (Hdone : exists ofp', pass2 {[(4, 3) := [[(0, 0); (200000, 0)]]]}
                                 = Done ofp') by (by exists ofp).
    clear Hrun. unfold pass2, pass2_on in Hdone.
    pose proof (proj1 (encode_cells_done _ _ _) Hdone 3 4
                  [[(0, 0); (200000, 0)]] [(0, 0); (200000, 0)]) as H.
    clear Hdone.
    destruct H as [block Hb].
    + apply elem_of_grid. unfold in_grid. lia.
    + apply lookup_singleton_eq.
    + by apply list_elem_of_singleton.
    + done.
    + vm_compute in Hb. discriminate.
  - exists code, e, ofp. split; [reflexivity|].
    refine (proj1 (range_exit_names_segment _ code e ofp _ Hrun)).
    intros c records seg Hl Hin.
    apply lookup_singleton_Some in Hl as [_ <-].
    apply list_elem_of_singleton in Hin as ->.
    split; [|simpl; lia].
    repeat constructor; vm_compute; discriminate.
Defined.

End RangeExit.

(** ** Reading the cells of the output file back *)

Section ReadBack.

Import Encoder Decoder Output Invariants Contents Reader Spec.

Lemma get_bit_app (b t : bytes) (i : Z) :
  0 <= i < 8 * Z.of_nat (length b) -> get_bit (b ++ t) i = get_bit b i.
Proof.
  intros Hi. unfold get_bit.
  assert (Hlt : (Z.to_nat (i / 8) < length b)%nat).
  { apply Nat2Z.inj_lt. rewrite Z2Nat.id by (apply Z.div_pos; lia).
    apply Z.div_lt_upper_bound; lia. }
  by rewrite lookup_app_l.
Qed.

Lemma bit_unpack_app (b t : bytes) (s w : Z) :
  0 <= s -> 0 <= w -> s + w <= 8 * Z.of_nat (length b) ->
  bit_unpack (b ++ t) s w = bit_unpack b s w.
Proof.
  intros Hs Hw Hlen. unfold bit_unpack. apply unpack_bits_ext.
  intros j Hj. apply get_bit_app. lia.
Qed.

Lemma unpack_offsets_app lo la bx by_ (b t : bytes) :
  0 <= lo -> 0 <= la ->
  forall (n : nat) prev pos,
    0 <= pos -> pos + Z.of_nat n * (lo + la) <= 8 * Z.of_nat (length b) ->
    unpack_offsets lo la bx by_ prev n (b ++ t) pos
    = unpack_offsets lo la bx by_ prev n b pos.
Proof.
  intros Hlo Hla. induction n as [|n IH]; intros prev pos Hpos Hlen; [done|].
  cbn [unpack_offsets].
  rewrite !bit_unpack_app by lia.
  f_equal. apply IH; lia.
Qed.


(** A block followed by other bytes is read as the block alone, and its
    length is found from its first fields. *)
Lemma read_block i j (seg : segment) (block t : bytes) :
  Forall vertex_in_range seg -> Z.of_nat (length seg) < 2 ^ 25 ->
  encode_segment i j seg = inr block ->
  decode_segment (block ++ t) = seg
  /\ block_size (block ++ t) = Z.of_nat (length block)
  /\ (1 <= length block)%nat.
Proof.
  intros Hall Hlen Henc.
  destruct seg as [|v0 [|v1 rest]]; [discriminate Henc ..|].
  apply encode_segment_inr in Henc as (f & Hf & _ & ->).
  pose proof (segment_fields_fit i j v0 v1 rest f Hall Hlen Hf)
    as [Hfit Hoff].
  pose proof (Forall_inv Hall) as [Hx0 Hy0].
  pose proof (decode_pack_segment f v0 (v1 :: rest) Hfit ltac:(lia)
                ltac:(lia) Hoff) as Hdec.
  pose proof (pack_segment_header f v0 (v1 :: rest) Hfit ltac:(lia)
                ltac:(lia)) as Hh.
  cbv zeta in Hh. destruct Hh as (H1 & H2 & H3 & H4 & _).
  pose proof (segment_fields_inr i j v0 v1 rest f Hall Hf)
    as (_ & _ & Hrx & Hry & Heq).
  cbv zeta in Heq.
  assert (Hsize :
    f_size f
    = total_bits (f_count_bits f) (f_lon_offset_bits f)
        (f_lat_offset_bits f) (f_count f) / 8 + 1
    /\ 0 <= total_bits (f_count_bits f) (f_lon_offset_bits f)
              (f_lat_offset_bits f) (f_count f)).
  { rewrite Heq.
    cbn [f_count f_count_bits f_lon_offset_bits f_lat_offset_bits f_size].
    set (count := Z.of_nat (length (v0 :: v1 :: rest))) in *.
    assert (Hcount : 2 <= count) by (subst count; cbn [length]; lia).
    cbv zeta in Hrx, Hry.
    match goal with
    | |- context [total_bits (field_bits count) (field_bits ?rx)
                    (field_bits ?ry) count] =>
        pose proof (field_bits_pos count ltac:(lia));
        pose proof (field_bits_pos rx ltac:(lia));
        pose proof (field_bits_pos ry ltac:(lia));
        pose proof (field_bits_upper count 25 ltac:(lia) ltac:(lia));
        pose proof (field_bits_upper rx 26 ltac:(lia) ltac:(lia));
        pose proof (field_bits_upper ry 25 ltac:(lia) ltac:(lia));
        pose proof (total_bits_bound (field_bits count) (field_bits rx)
                      (field_bits ry) count ltac:(lia) ltac:(lia)
                      ltac:(lia) ltac:(lia)) as Htb
    end.
    rewrite wrap32_id by (unfold int32; lia).
    rewrite Z.quot_div_nonneg by lia. split; [reflexivity | lia]. }
  destruct Hsize as [Hsize Htb].
  destruct Hfit as [Hc Hcb Hlon Hlat Hcf Hbx Hby Hsz].
  set (block := packed f (v0 :: v1 :: rest)) in *.
  assert (Hblen : Z.of_nat (length block) = f_size f).
  { apply length_pack_segment. rewrite Hsize.
    pose proof (Z.div_pos _ 8 Htb ltac:(lia)). lia. }
  cbn [length] in Hc. unfold total_bits in Hsz.
  assert (Hcount : 2 <= f_count f) by lia.
  assert (0 <= (f_count f - 1)
               * (f_lon_offset_bits f + f_lat_offset_bits f)) by nia.
  split; [|split].
  - rewrite <- Hdec. unfold decode_segment. cbv zeta.
    replace (0 + 5) with 5 by lia. replace (5 + 5) with 10 by lia.
    replace (10 + 5) with 15 by lia.
    rewrite (bit_unpack_app block t 0 5), (bit_unpack_app block t 5 5),
      (bit_unpack_app block t 10 5) by lia.
    rewrite H1, H2, H3.
    rewrite (bit_unpack_app block t 15 (f_count_bits f)) by lia.
    rewrite H4.
    rewrite !(bit_unpack_app block t _ 18), (bit_unpack_app block t _ 26),
      (bit_unpack_app block t _ 25) by lia.
    f_equal.
    apply unpack_offsets_app; lia.
  - unfold block_size. cbv zeta.
    rewrite (bit_unpack_app block t 0 5), (bit_unpack_app block t 5 5),
      (bit_unpack_app block t 10 5) by lia.
    rewrite H1, H2, H3.
    rewrite (bit_unpack_app block t 15 (f_count_bits f)) by lia.
    rewrite H4. lia.
  - pose proof (Z.div_pos _ 8 Htb ltac:(lia)). lia.
Qed.

(** The blocks of the segments [segs], one after the other and followed by
    other bytes, are read back as [segs]. *)
Lemma decode_blocks_concat i j (segs : list segment) (blocks : list bytes) :
  Forall2 (fun seg block => encode_segment i j seg = inr block)
    segs blocks ->
  Forall (fun seg => Forall vertex_in_range seg
                     /\ Z.of_nat (length seg) < 2 ^ 25) segs ->
  forall t, decode_blocks (length segs) (concat blocks ++ t) = segs.
Proof.
  induction 1 as [|seg block segs blocks Henc _ IH]; intros Hall t;
    [done|].
  inversion Hall as [|? ? [Hrange Hlen] Hall']; subst.
  cbn [length decode_blocks concat]. rewrite <- app_assoc.
  destruct (read_block i j seg block (concat blocks ++ t) Hrange Hlen Henc)
    as (-> & -> & _).
  rewrite Nat2Z.id, drop_app_length. f_equal. by apply IH.
Qed.


Lemma blocks_hold_segments i j (segs : list segment) (blocks : list bytes) :
  Forall2 (fun seg block => encode_segment i j seg = inr block)
    segs blocks ->
  Forall (fun seg => Forall vertex_in_range seg
                     /\ Z.of_nat (length seg) < 2 ^ 25) segs ->
  (length segs <= length (concat blocks))%nat.
Proof.
  induction 1 as [|seg block segs blocks Henc _ IH]; intros Hall; [done|].
  inversion Hall as [|? ? [Hrange Hlen] Hall']; subst.
  destruct (read_block i j seg block [] Hrange Hlen Henc) as (_ & _ & Hb).
  specialize (IH Hall').
  cbn [length concat]. rewrite length_app. lia.
Qed.

Lemma Forall_filter_segments (P : segment -> Prop) (records : list segment) :
  Forall P records -> Forall P (filter (fun seg => seg <> []) records).
Proof.
  intros H. apply Forall_forall. intros seg Hin.
  apply list_elem_of_filter in Hin as [_ Hin].
  by eapply Forall_forall in H.
Qed.

(** A cell is read back through its index entry, in a file which holds the
    blocks of the cells [cells] after the index table. *)
Lemma read_cell_on (files : gmap (Z * Z) (list segment))
    (cells : list (Z * Z)) (ofp0 ofp : file) (k : nat) i j records :
  Forall (fun ij => in_grid ij.1 ij.2) cells -> NoDup cells ->
  drop (Z.to_nat header_end) (data ofp0) = [] ->
  Z.of_nat (length (data ofp0)) = header_end ->
  cursor ofp0 = Z.of_nat (length (data ofp0)) ->
  encode_cells files cells ofp0 = Done ofp ->
  cells !! k = Some (i, j) -> files !! (j, i) = Some records ->
  Forall (fun seg => Forall vertex_in_range seg
                     /\ Z.of_nat (length seg) < 2 ^ 25) records ->
  Z.of_nat (length (data ofp)) < 2 ^ 32 ->
  read_cell (data ofp) i j = filter (fun seg => seg <> []) records.
Proof.
  intros Hall Hnd Hbody Hlen Hcur Hrun Hk Hl Hgood Hshort.
  destruct (index_entry_on files cells ofp0 ofp k i j records Hall Hnd
              Hbody Hlen Hcur Hrun Hk Hl) as (Hentry & Htake & Hblocks).
  apply Forall_filter_segments in Hgood.
  pose proof (blocks_hold_segments i j _ _ Hblocks Hgood) as Hcount.
  pose proof (decode_blocks_concat i j _ _ Hblocks Hgood) as Hread.
  unfold read_cell. rewrite Hentry. cbn [fst snd].
  pose proof header_end_nonneg as Hend.
  revert Htake Hcount Hread.
  generalize (filter (fun seg : segment => seg <> []) records).
  generalize (concat (cell_blocks i j records)).
  generalize (length (concat (cell_bytes files <$> take k cells))).
  generalize (data ofp) Hshort. generalize header_end Hend.
  clear. intros e He d Hshort b blocks segs Htake Hcount Hread.
  destruct segs as [|seg segs]; [done|].
  assert (Hb : (1 <= length blocks)%nat) by (cbn [length] in Hcount; lia).
  pose proof (f_equal length Htake) as Hn.
  rewrite length_take, length_drop in Hn.
  rewrite !Z.mod_small, Nat2Z.id by lia.
  rewrite <- (take_drop (length blocks) (drop (Z.to_nat (e + Z.of_nat b)) d)).
  rewrite Htake. apply Hread.
Qed.

End ReadBack.

Section ReadBackTheorems.

Import Encoder Decoder Output Invariants Contents Reader Spec.

(** X27.  Round trip of a cell: in an output file shorter than 2^32 bytes,
    the blocks found through the index entry of a cell with a staging file,
    read one after the other, give the records of the file which are not
    empty, in their order, when the records lie within the declared ranges
    and have fewer than 2^25 vertices. *)
Theorem cell_round_trip (files : gmap (Z * Z) (list segment)) (ofp : file)
    i j records :
  pass2 files = Done ofp -> in_grid i j -> files !! (j, i) = Some records ->
  Forall (fun seg => Forall vertex_in_range seg
                     /\ Z.of_nat (length seg) < 2 ^ 25) records ->
  Z.of_nat (length (data ofp)) < 2 ^ 32 ->
  read_cell (data ofp) i j = filter (fun seg => seg <> []) records.
Proof.
  intros Hrun Hg Hl Hgood Hshort.
  destruct open_output_table as (_ & _ & Hlen & _).
  destruct open_output_end as (Hbody & _ & Hcur).
  exact (read_cell_on files grid (open_output_on grid) ofp
           (Z.to_nat (i * 360 + j)) i j records grid_in_grid NoDup_grid
           Hbody Hlen Hcur Hrun (grid_lookup i j Hg) Hl Hgood Hshort).
Qed.

End ReadBackTheorems.

Section ReadBackExample.

Import Encoder Decoder Output Invariants Contents Reader Spec.

(** The length of the output file which pass 2 leaves. *)
Lemma output_length (files : gmap (Z * Z) (list segment)) (ofp : file) :
  pass2 files = Done ofp ->
  Z.of_nat (length (data ofp))
  = header_end + Z.of_nat (length (concat (cell_bytes files <$> grid))).
Proof.
  intros Hrun. unfold pass2, pass2_on in Hrun.
  destruct open_output_table as (_ & Hcur & Hlen & _).
  apply encode_cells_layout in Hrun as (_ & Hlen' & _);
    [|exact grid_in_grid | exact NoDup_grid | lia | exact Hcur].
  rewrite Hlen'. lia.
Qed.

(** Pass 2 ends on the staging file of cell (lat 3, lon 4) which holds the
    segment [seg3] twice, with an empty record in between. *)
Lemma two_blocks_complete :
  exists ofp, pass2 {[(4, 3) := [seg3; []; seg3]]} = Done ofp.
Proof.
  unfold pass2, pass2_on. apply encode_cells_done.
  intros i j records seg _ Hl Hin Hne.
  apply lookup_singleton_Some in Hl as [[= <- <-] <-].
  exists block3.
  apply elem_of_cons in Hin as [->|Hin]; [vm_compute; reflexivity|].
  apply elem_of_cons in Hin as [->|Hin]; [done|].
  apply list_elem_of_singleton in Hin as ->. vm_compute. reflexivity.
Qed.

Lemma two_blocks_length :
  Z.of_nat (length (concat (cell_bytes {[(4, 3) := [seg3; []; seg3]]}
                              <$> grid)))
  = 34.
Proof. vm_compute. reflexivity. Qed.

Lemma cell_round_trip_witness :
  exists ofp,
    pass2 {[(4, 3) := [seg3; []; seg3]]} = Done ofp
    /\ read_cell (data ofp) 3 4 = [seg3; seg3].
Proof.
  destruct two_blocks_complete as [ofp Hrun]. exists ofp.
  split; [exact Hrun|].
  apply (cell_round_trip {[(4, 3) := [seg3; []; seg3]]} ofp 3 4
           [seg3; []; seg3] Hrun).
  - unfold in_grid. lia.
  - apply lookup_singleton_eq.
  - repeat constructor; vm_compute; congruence.
  - rewrite (output_length _ ofp Hrun), two_blocks_length. reflexivity.
Defined.

End ReadBackExample.
